(** * recovery.c: restart-safe command resolution and completion

    A shallow embedding of [get_args], [finish_recovery] and the dispatch
    part of [main] from recovery.c, with the C library routines they call
    modelled on byte lists, and the properties of the command protocol
    proved over that embedding; then the string routines and the list
    building of the file browser and the environment of [make_part]. *)

From Stdlib Require Import ZArith Ascii String List Lia.
From stdpp Require Import base gmap strings list sorting.

Local Open Scope nat_scope.

(** ** C strings and in-place string routines *)

Module CLib.

(** A [char] is an unsigned byte (the target ABI is ARM, where plain [char]
    is unsigned, so [boot.recovery[0] != 255] is a real test). *)
Definition NUL : ascii := "000"%char.
Definition xFF : ascii := "255"%char.
Definition LF : ascii := "010"%char.
Definition CR : ascii := "013"%char.

(** The value of a C string: the bytes before its terminator. *)
Abbreviation cstr := (list ascii).

(** An object in memory (a struct, a [char] array): its bytes, by index. *)
Abbreviation mem := (list ascii).

Definition lit (s : string) : cstr := list_ascii_of_string s.
Arguments lit : simpl never.

Definition is_nul (c : ascii) : bool := Ascii.eqb c NUL.

(** [c] occurs in the NUL-terminated set [set] (as [strchr] on a delimiter
    string would find it). *)
Definition in_set (set : cstr) (c : ascii) : bool :=
  existsb (Ascii.eqb c) set.

(** Length of the longest prefix whose bytes all satisfy [P]. *)
Fixpoint span (P : ascii -> bool) (l : list ascii) : nat :=
  match l with
  | c :: l' => if P c then S (span P l') else 0
  | [] => 0
  end.

(** [strlen(m + p)]. Reading stops at the end of the object; the callers
    below terminate their buffers before they scan them. *)
Definition strlen_at (m : mem) (p : nat) : nat :=
  span (fun c => negb (is_nul c)) (drop p m).

(** The C string that starts at [m + p] (what [strdup(m + p)] copies). *)
Definition cstr_at (m : mem) (p : nat) : cstr :=
  take (strlen_at m p) (drop p m).

(** [strnlen(m + p, n)]. *)
Definition strnlen_at (m : mem) (p n : nat) : nat :=
  span (fun c => negb (is_nul c)) (take n (drop p m)).

(** A byte of the string that is in [set], and one that is not. *)
Definition inside (set : cstr) (c : ascii) : bool :=
  negb (is_nul c) && in_set set c.
Definition outside (set : cstr) (c : ascii) : bool :=
  negb (is_nul c) && negb (in_set set c).

(** [strspn(m + p, accept)] and [strcspn(m + p, reject)]. *)
Definition strspn_at (m : mem) (p : nat) (accept : cstr) : nat :=
  span (inside accept) (drop p m).

Definition strcspn_at (m : mem) (p : nat) (reject : cstr) : nat :=
  span (outside reject) (drop p m).

(** [m[p] = b0; m[p+1] = b1; ...], one store per byte. *)
Fixpoint store_bytes (m : mem) (p : nat) (bs : list ascii) : mem :=
  match bs with
  | [] => m
  | b :: bs' => store_bytes (<[p:=b]> m) (S p) bs'
  end.

(** [strlcpy(m + dst, src, siz)]: copies at most [siz - 1] bytes of [src]
    and terminates the result; nothing is written when [siz] is 0. *)
Definition strlcpy (m : mem) (dst : nat) (src : cstr) (siz : nat) : mem :=
  match siz with
  | 0 => m
  | S n => store_bytes m dst (take n src ++ [NUL])
  end.

(** [strlcat(m + dst, src, siz)]: looks for the end of the string in the
    first [siz] bytes of [dst]; when there is none nothing is written;
    otherwise appends as much of [src] as leaves room for the terminator. *)
Definition strlcat (m : mem) (dst : nat) (src : cstr) (siz : nat) : mem :=
  let dlen := strnlen_at m dst siz in
  match siz - dlen with
  | 0 => m
  | S n => store_bytes m (dst + dlen) (take n src ++ [NUL])
  end.

(** [strtok(s, delim)] with its saved position made explicit ([None] is
    the NULL pointer).  Returns the token's start, the position saved for
    the next call and the memory, in which the delimiter that ended the
    token has been overwritten by NUL. *)
Definition strtok (m : mem) (s : option nat) (delim : cstr)
  : option nat * option nat * mem :=
  match s with
  | None => (None, None, m)
  | Some p =>
      let tok := p + strspn_at m p delim in
      match m !! tok with
      | None => (None, None, m)
      | Some c =>
          if is_nul c then (None, None, m)
          else
            let stop := tok + strcspn_at m tok delim in
            match m !! stop with
            | None => (Some tok, None, m)
            | Some d =>
                if is_nul d then (Some tok, None, m)
                else (Some tok, Some (S stop), <[stop:=NUL]> m)
            end
      end
  end.

(** [fgets(buf, n, fp)] on the unread rest of a stream: the bytes read (at
    most [n - 1], ending after the first newline) and what is left; [None]
    at end of file. *)
Fixpoint line_len (l : list ascii) : nat :=
  match l with
  | [] => 0
  | c :: l' => if Ascii.eqb c LF then 1 else S (line_len l')
  end.

Definition fgets (n : nat) (rest : list ascii)
  : option (list ascii * list ascii) :=
  match rest with
  | [] => None
  | _ => let k := Nat.min (n - 1) (line_len rest) in
         Some (take k rest, drop k rest)
  end.

End CLib.

Import CLib.

(** ** The device: control block, volumes, files, and the trace of calls *)

(** Modelled from the spec: bootloader.h is not part of the sources; the
    record is [command] (32 bytes), [status] (32 bytes) and [recovery]
    (1024 bytes), in this order, read and written as a whole.  The struct is
    one flat object, so that a store past the end of a field would land in
    its neighbour. *)
Definition COMMAND_SIZE : nat := 32.
Definition STATUS_SIZE : nat := 32.
Definition RECOVERY_SIZE : nat := 1024.
Definition command_off : nat := 0.
Definition status_off : nat := 32.
Definition recovery_off : nat := 64.
Definition sizeof_boot : nat := 1088.

Definition MAX_ARG_LENGTH : nat := 4096.
Definition MAX_ARGS : nat := 100.

Arguments COMMAND_SIZE : simpl never.
Arguments STATUS_SIZE : simpl never.
Arguments RECOVERY_SIZE : simpl never.
Arguments recovery_off : simpl never.
Arguments status_off : simpl never.
Arguments sizeof_boot : simpl never.
Arguments MAX_ARG_LENGTH : simpl never.
Arguments MAX_ARGS : simpl never.

Definition COMMAND_FILE : string := "CACHE:recovery/command".
Definition INTENT_FILE : string := "CACHE:recovery/intent".
Definition LOG_FILE : string := "CACHE:recovery/log".
Definition TEMPORARY_LOG_FILE : string := "/tmp/recovery.log".

Inductive level := LOGI | LOGW | LOGE.

(** What the program does to the outside: a log line (format string of the
    source and its string arguments) or a call of an external routine. *)
Inductive event :=
| Log (lv : level) (fmt : string) (args : list cstr)
| Call (fn : string) (args : list cstr).

(** The condition of a volume, as the calls of this file can observe it:
    mounting fails; files cannot be created or removed; writes fail. *)
Inductive volume_state := VolOk | VolUnmountable | VolReadOnly | VolFull.

Record world := World {
  misc_ok : bool;                       (* the MISC partition can be read and written *)
  bcb : mem;                            (* the control block stored there *)
  volume : string -> volume_state;      (* by root name, CACHE: and the like *)
  files : gmap string (list ascii);     (* regular files, by translated path *)
  install_result : cstr -> Z;           (* what install_package returns *)
  format_result : string -> Z;          (* what format_root_device returns *)
  firmware_pending : bool;              (* a radio or hboot image waits to be flashed *)
  operator_reboot : Z;                  (* what the operator's menu session leaves in do_reboot *)
  tmplog_offset : nat;                  (* static long tmplog_offset of finish_recovery *)
  do_reboot : Z;                        (* static int do_reboot *)
  trace : list event
}.

Definition set_bcb (b : mem) (w : world) : world :=
  World (misc_ok w) b (volume w) (files w) (install_result w) (format_result w)
        (firmware_pending w) (operator_reboot w) (tmplog_offset w) (do_reboot w) (trace w).
Definition set_files (f : gmap string (list ascii)) (w : world) : world :=
  World (misc_ok w) (bcb w) (volume w) f (install_result w) (format_result w)
        (firmware_pending w) (operator_reboot w) (tmplog_offset w) (do_reboot w) (trace w).
Definition set_tmplog_offset (n : nat) (w : world) : world :=
  World (misc_ok w) (bcb w) (volume w) (files w) (install_result w) (format_result w)
        (firmware_pending w) (operator_reboot w) n (do_reboot w) (trace w).
Definition set_do_reboot (z : Z) (w : world) : world :=
  World (misc_ok w) (bcb w) (volume w) (files w) (install_result w) (format_result w)
        (firmware_pending w) (operator_reboot w) (tmplog_offset w) z (trace w).
Definition set_trace (t : list event) (w : world) : world :=
  World (misc_ok w) (bcb w) (volume w) (files w) (install_result w) (format_result w)
        (firmware_pending w) (operator_reboot w) (tmplog_offset w) (do_reboot w) t.

(** The state monad the code runs in. *)
Definition M (A : Type) : Type := world -> A * world.

Definition ret {A} (a : A) : M A := fun w => (a, w).
Definition bind {A B} (c : M A) (k : A -> M B) : M B :=
  fun w => let (a, w') := c w in k a w'.
Definition gets {A} (f : world -> A) : M A := fun w => (f w, w).
Definition modify (f : world -> world) : M unit := fun w => (tt, f w).

Declare Scope m_scope.
Delimit Scope m_scope with M.
Notation "x <- c ;; k" := (bind c (fun x => k))
  (at level 100, c at next level, right associativity) : m_scope.
Notation "c ;; k" := (bind c (fun _ => k))
  (at level 100, right associativity) : m_scope.
Local Open Scope m_scope.

Definition emit (e : event) : M unit :=
  modify (fun w => set_trace (trace w ++ [e]) w).

(** A line of [LOGI], [LOGW] or [LOGE].  They print to the standard
    streams, which [main] reopens on the runtime log before anything else:
    on the device the line ends up in that file.  Here the trace keeps the
    line, and the entry of the runtime log in [files] is the text that the
    log copy finds there; [tmplog_grows] is how that text gets longer.
    What is stated about the files of a routine that logs therefore leaves
    the runtime log aside. *)
Definition log (lv : level) (fmt : string) (args : list cstr) : M unit :=
  emit (Log lv fmt args).
Definition when (b : bool) (c : M unit) : M unit := if b then c else ret tt.

(** *** External routines *)

(** Modelled from the spec: roots.c is not part of the sources.  A root
    path is a root name followed by a path below the root's mount point
    (the header comment of recovery.c gives /cache/recovery/command for
    CACHE:recovery/command). *)
Definition ROOTS : list (string * string) :=
  [("CACHE:", "/cache/"); ("DATA:", "/data/");
   ("SDCARD:", "/sdcard/"); ("SYSTEM:", "/system/")]%string.

Definition root_entry (root_path : string) : option (string * string) :=
  find (fun r => String.prefix (fst r) root_path) ROOTS.

Definition translate_root_path (root_path : string) : option string :=
  match root_entry root_path with
  | Some (root, dir) =>
      Some (dir ++ substring (String.length root)
                     (String.length root_path - String.length root) root_path)%string
  | None => None
  end.

(** The volume a translated path lives on; paths outside every mount point
    are on the RAM disk. *)
Definition volume_of (w : world) (path : string) : volume_state :=
  match find (fun r => String.prefix (snd r) path) ROOTS with
  | Some (root, _) => volume w root
  | None => VolOk
  end.

(** [true] stands for the return value 0. *)
Definition ensure_root_path_mounted (root_path : string) : M bool :=
  emit (Call "ensure_root_path_mounted" [lit root_path]) ;;
  v <- gets volume ;;
  ret (match root_entry root_path with
       | Some (root, _) =>
           match v root with VolUnmountable => false | _ => true end
       | None => false
       end).

(** Modelled from the spec: bootloader.c is not part of the sources.  A
    read that fails leaves the caller's structure as it is; a write that
    fails leaves the stored record as it is; neither aborts the run. *)
Definition get_bootloader_message (boot : mem) : M mem :=
  emit (Call "get_bootloader_message" []) ;;
  w <- gets id ;;
  ret (if misc_ok w then resize sizeof_boot NUL (bcb w) else boot).

Definition set_bootloader_message (boot : mem) : M unit :=
  emit (Call "set_bootloader_message" [boot]) ;;
  modify (fun w => if misc_ok w then set_bcb boot w else w).

(** *** stdio streams *)

Record FILE := mkFILE {
  f_path : string;
  f_data : list ascii;    (* what a reader sees of the file *)
  f_pos : nat;            (* read position *)
  f_err : bool            (* the error indicator tested by ferror *)
}.

Definition mode0 (mode : string) : ascii :=
  match mode with String c _ => c | EmptyString => NUL end.

Definition fopen (path mode : string) : M (option FILE) :=
  w <- gets id ;;
  if Ascii.eqb (mode0 mode) "r" then
    ret (match files w !! path with
         | Some d => Some (mkFILE path d 0 false)
         | None => None
         end)
  else
    match volume_of w path with
    | VolReadOnly | VolUnmountable => ret None
    | _ =>
        modify (fun w =>
                  set_files
                    (if Ascii.eqb (mode0 mode) "w" then <[path:=[]]> (files w)
                     else match files w !! path with
                          | Some _ => files w
                          | None => <[path:=[]]> (files w)
                          end) w) ;;
        ret (Some (mkFILE path [] 0 false))
    end.

(** [fputs(s, fp)]: the bytes reach the file, or the stream's error
    indicator is set. *)
Definition fputs (s : cstr) (fp : FILE) : M FILE :=
  w <- gets id ;;
  match s, volume_of w (f_path fp) with
  | [], _ => ret fp
  | _, VolOk =>
      modify (fun w =>
                set_files
                  (<[f_path fp := default [] (files w !! f_path fp) ++ s]> (files w))
                  w) ;;
      ret fp
  | _, _ => ret (mkFILE (f_path fp) (f_data fp) (f_pos fp) true)
  end.

Definition fseek_set (fp : FILE) (off : nat) : FILE :=
  mkFILE (f_path fp) (f_data fp) off (f_err fp).

Definition ftell (fp : FILE) : nat := f_pos fp.

Inductive errno := ENOENT | EROFS.

(** [unlink(path)]: [None] is the return value 0. *)
Definition unlink (path : string) : M (option errno) :=
  w <- gets id ;;
  match files w !! path with
  | None => ret (Some ENOENT)
  | Some _ =>
      match volume_of w path with
      | VolReadOnly => ret (Some EROFS)
      | _ => modify (fun w => set_files (delete path (files w)) w) ;; ret None
      end
  end.

(** *** fopen_root_path, check_and_fclose *)

Definition fopen_root_path (root_path mode : string) : M (option FILE) :=
  mounted <- ensure_root_path_mounted root_path ;;
  if negb mounted then
    log LOGE "Can't mount %s\n" [lit root_path] ;; ret None
  else
    match translate_root_path root_path with
    | None => log LOGE "Bad path %s\n" [lit root_path] ;; ret None
    | Some path =>
        when (in_set (lit "wa") (mode0 mode))
             (emit (Call "dirCreateHierarchy" [lit path])) ;;
        fopen path mode
    end.

Definition check_and_fclose (fp : FILE) (name : string) : M unit :=
  when (f_err fp) (log LOGE "Error in %s\n(%s)\n" [lit name]).

(** ** get_args *)

(** [f[0] != 0 && f[0] != 255] for the field at [off]. *)
Definition first_byte_set (boot : mem) (off : nat) : bool :=
  match boot !! off with
  | Some c => negb (Ascii.eqb c NUL) && negb (Ascii.eqb c xFF)
  | None => false
  end.

(** The loop over [strtok(NULL, LF)] that fills the slots 1 to
    MAX_ARGS - 1 of the new vector, with [n] iterations left. *)
Fixpoint bcb_args (n : nat) (boot : mem) (save : option nat)
  : list cstr * mem :=
  match n with
  | 0 => ([], boot)
  | S n' =>
      let '(arg, save', boot') := strtok boot save [LF] in
      match arg with
      | None => ([], boot')
      | Some a =>
          let '(rest, boot'') := bcb_args n' boot' save' in
          (cstr_at boot' a :: rest, boot'')
      end
  end.

(** The double quote, which the formats of [get_args] and [file_options]
    hold escaped. *)
Definition DQUOTE : ascii := "034"%char.

(** The format of the line that reports a recovery field which is neither
    a command nor blank: the message is printed between double quotes. *)
Definition BAD_BOOT_MESSAGE : string :=
  String.append "Bad boot message\n"
    (String DQUOTE (String.append "%.20s" (String DQUOTE "\n"))).

(** The first block guarded by [argc <= 1]: look in the control block. *)
Definition args_from_bcb (argv : list cstr) (boot : mem)
  : M (list cstr * mem) :=
  let boot := <[recovery_off + (RECOVERY_SIZE - 1) := NUL]> boot in
  let '(arg, save, boot) := strtok boot (Some recovery_off) [LF] in
  let bad_message :=
    when (first_byte_set boot recovery_off)
         (log LOGE BAD_BOOT_MESSAGE
              [take 20 (cstr_at boot recovery_off)]) ;;
    ret (argv, boot) in
  match arg with
  | Some a =>
      if bool_decide (cstr_at boot a = lit "recovery") then
        let '(args, boot') := bcb_args (MAX_ARGS - 1) boot save in
        log LOGI "Got arguments from boot message\n" [] ;;
        ret (cstr_at boot a :: args, boot')
      else bad_message
  | None => bad_message
  end.

(** The loop over [fgets] on the command file, with [n] iterations left.
    [buf] holds the line and its terminator; [strtok(buf, CR LF)] is NULL
    for a line without a token, and [strdup(NULL)] does not return: the
    result is [None]. *)
Fixpoint read_command_lines (n : nat) (rest : list ascii)
  : option (list cstr) :=
  match n with
  | 0 => Some []
  | S n' =>
      match fgets MAX_ARG_LENGTH rest with
      | None => Some []
      | Some (line, rest') =>
          let '(tok, _, buf) := strtok (line ++ [NUL]) (Some 0) [CR; LF] in
          match tok with
          | None => None
          | Some t =>
              match read_command_lines n' rest' with
              | Some more => Some (cstr_at buf t :: more)
              | None => None
              end
          end
      end
  end.

(** The second block guarded by [argc <= 1]: try the command file.  [None]
    when the process dies in the loop.  For an empty vector, the NULL in
    slot 0 is the empty string. *)
Definition args_from_file (argv : list cstr) : M (option (list cstr)) :=
  fp <- fopen_root_path COMMAND_FILE "r" ;;
  match fp with
  | Some fp =>
      let argv0 := hd [] argv in
      match read_command_lines (MAX_ARGS - 1) (drop (f_pos fp) (f_data fp)) with
      | Some lines =>
          check_and_fclose fp COMMAND_FILE ;;
          log LOGI "Got arguments from %s\n" [lit COMMAND_FILE] ;;
          ret (Some (argv0 :: lines))
      | None => ret None
      end
  | None => ret (Some argv)
  end.

(** The text the final loop builds in [boot.recovery]. *)
Definition write_recovery (boot : mem) (argv : list cstr) : mem :=
  fold_left
    (fun b a => strlcat (strlcat b recovery_off a RECOVERY_SIZE)
                        recovery_off [LF] RECOVERY_SIZE)
    (drop 1 argv)
    (strlcpy boot recovery_off (lit "recovery" ++ [LF]) RECOVERY_SIZE).

Definition get_args (argv : list cstr) : M (option (list cstr)) :=
  boot <- get_bootloader_message (replicate sizeof_boot NUL) ;;
  when (first_byte_set boot command_off)
       (log LOGI "Boot command: %.*s\n"
            [take COMMAND_SIZE (cstr_at boot command_off)]) ;;
  when (first_byte_set boot status_off)
       (log LOGI "Boot status: %.*s\n"
            [take STATUS_SIZE (cstr_at boot status_off)]) ;;
  r <- (if length argv <=? 1 then args_from_bcb argv boot
        else ret (argv, boot)) ;;
  let '(argv, boot) := r in
  r <- (if length argv <=? 1 then args_from_file argv
        else ret (Some argv)) ;;
  match r with
  | None => ret None
  | Some argv =>
      let boot := strlcpy boot command_off (lit "boot-recovery") COMMAND_SIZE in
      let boot := write_recovery boot argv in
      set_bootloader_message boot ;;
      ret (Some argv)
  end.

(** ** finish_recovery *)

(** [char buf[4096]] of [finish_recovery]. *)
Definition LOG_BUF_SIZE : nat := 4096.
Arguments LOG_BUF_SIZE : simpl never.

(** [while (fgets(buf, sizeof(buf), tmplog)) fputs(buf, log);] with [fuel]
    iterations left; [fputs] writes the bytes of [buf] before its first
    NUL. *)
Fixpoint copy_lines (fuel : nat) (tmplog lg : FILE) : M (FILE * FILE) :=
  match fuel with
  | 0 => ret (tmplog, lg)
  | S fuel' =>
      match fgets LOG_BUF_SIZE (drop (f_pos tmplog) (f_data tmplog)) with
      | None => ret (tmplog, lg)
      | Some (line, _) =>
          lg' <- fputs (cstr_at (line ++ [NUL]) 0) lg ;;
          copy_lines fuel' (fseek_set tmplog (f_pos tmplog + length line)) lg'
      end
  end.

(** The four blocks of [finish_recovery], in the order of the source. *)

(** Record the intent, if any. *)
Definition write_intent (send_intent : option cstr) : M unit :=
  match send_intent with
  | Some s =>
      fp <- fopen_root_path INTENT_FILE "w" ;;
      match fp with
      | None => log LOGE "Can't open %s\n" [lit INTENT_FILE]
      | Some fp => fp <- fputs s fp ;; check_and_fclose fp INTENT_FILE
      end
  | None => ret tt
  end.

(** Copy logs to cache so the system can find out what happened. *)
Definition copy_log : M unit :=
  lg <- fopen_root_path LOG_FILE "a" ;;
  match lg with
  | None => log LOGE "Can't open %s\n" [lit LOG_FILE]
  | Some lg =>
      tmplog <- fopen TEMPORARY_LOG_FILE "r" ;;
      lg <- match tmplog with
            | None =>
                log LOGE "Can't open %s\n" [lit TEMPORARY_LOG_FILE] ;; ret lg
            | Some tmplog =>
                off <- gets tmplog_offset ;;
                let tmplog := fseek_set tmplog off in
                r <- copy_lines (S (length (f_data tmplog))) tmplog lg ;;
                modify (set_tmplog_offset (ftell (fst r))) ;;
                check_and_fclose (fst r) TEMPORARY_LOG_FILE ;;
                ret (snd r)
            end ;;
      check_and_fclose lg LOG_FILE
  end.

(** Reset the bootloader message to revert to a normal main system boot. *)
Definition reset_bootloader_message : M unit :=
  set_bootloader_message (replicate sizeof_boot NUL).

(** Remove the command file, so recovery won't repeat indefinitely. *)
Definition remove_command_file : M unit :=
  mounted <- ensure_root_path_mounted COMMAND_FILE ;;
  failed <- (if negb mounted then ret true
             else match translate_root_path COMMAND_FILE with
                  | None => ret true
                  | Some path =>
                      e <- unlink path ;;
                      ret (match e with
                           | None | Some ENOENT => false
                           | Some _ => true
                           end)
                  end) ;;
  when failed (log LOGW "Can't unlink %s\n" [lit COMMAND_FILE]).

Definition finish_recovery (send_intent : option cstr) : M unit :=
  write_intent send_intent ;;
  copy_log ;;
  reset_bootloader_message ;;
  remove_command_file ;;
  emit (Call "sync" []).

(** ** main: option parsing, dispatch, and the way out *)

(** *** getopt_long over OPTIONS *)

Inductive has_arg := no_argument | required_argument.

Record option_entry := mkOpt {
  o_name : string;
  o_has_arg : has_arg;
  o_val : ascii
}.

(** The table of the source.  It has no closing all-zero entry; the scan
    of the table is taken to end after these four. *)
Definition OPTIONS : list option_entry :=
  [ mkOpt "send_intent" required_argument "s";
    mkOpt "update_package" required_argument "u";
    mkOpt "wipe_data" no_argument "w";
    mkOpt "wipe_cache" no_argument "c" ].

Fixpoint is_prefix (p l : list ascii) : bool :=
  match p, l with
  | [], _ => true
  | a :: p', b :: l' => Ascii.eqb a b && is_prefix p' l'
  | _ :: _, [] => false
  end.

(** A long option name selects the entry it equals, or else the only entry
    it abbreviates. *)
Definition match_long (name : cstr) : option option_entry :=
  match filter (fun o => lit (o_name o) = name) OPTIONS with
  | o :: _ => Some o
  | [] =>
      match filter (fun o => is_prefix name (lit (o_name o)) = true) OPTIONS with
      | [o] => Some o
      | _ => None
      end
  end.

Definition BADCH : ascii := "?".

(** The results of the successive calls
    [getopt_long(argc, argv, "", OPTIONS, NULL)] until it returns -1, each
    with the value [optarg] has after the call.  [args] is the vector from
    index 1 on.  Words that are not options are moved out of the way and
    skipped, a word [--] ends the scan, and every short option is unknown
    because the short option string is empty.  A name that is in the table
    is found before the scan of the table reaches its end.  For a name
    that is not, for an abbreviation, and for an option whose argument is
    missing at the end of the vector, the C library reads on past the
    four entries, and what it returns then is not defined by the source:
    the results below for these words are those of a table closed after
    its fourth entry. *)
Fixpoint getopt_long (args : list cstr) : list (ascii * option cstr) :=
  match args with
  | [] => []
  | a :: rest =>
      if is_prefix (lit "--") a then
        let body := drop 2 a in
        match body with
        | [] => []
        | _ =>
            let n := span (fun c => negb (Ascii.eqb c "=")) body in
            let name := take n body in
            let value := match drop n body with
                         | [] => None
                         | _ :: v => Some v
                         end in
            match match_long name with
            | None => (BADCH, None) :: getopt_long rest
            | Some o =>
                match o_has_arg o, value with
                | no_argument, None => (o_val o, None) :: getopt_long rest
                | no_argument, Some _ => (BADCH, None) :: getopt_long rest
                | required_argument, Some v =>
                    (o_val o, Some v) :: getopt_long rest
                | required_argument, None =>
                    match rest with
                    | v :: rest' => (o_val o, Some v) :: getopt_long rest'
                    | [] => [(BADCH, None)]
                    end
                end
            end
        end
      else if is_prefix (lit "-") a && (1 <? length a) then
        replicate (length a - 1) (BADCH, None) ++ getopt_long rest
      else getopt_long rest
  end.

(** The variables the option loop of [main] sets; [previous_runs] keeps the
    text that [atoi] would convert. *)
Record options := mkOptions {
  previous_runs : option cstr;
  send_intent : option cstr;
  update_package : option cstr;
  wipe_data : bool;
  wipe_cache : bool
}.

Definition no_options : options := mkOptions None None None false false.

(** The body of the [switch (arg)]. *)
Definition option_case (o : options) (r : ascii * option cstr) : M options :=
  let '(arg, optarg) := r in
  if Ascii.eqb arg "p" then
    ret (mkOptions optarg (send_intent o) (update_package o) (wipe_data o) (wipe_cache o))
  else if Ascii.eqb arg "s" then
    ret (mkOptions (previous_runs o) optarg (update_package o) (wipe_data o) (wipe_cache o))
  else if Ascii.eqb arg "u" then
    ret (mkOptions (previous_runs o) (send_intent o) optarg (wipe_data o) (wipe_cache o))
  else if Ascii.eqb arg "w" then
    ret (mkOptions (previous_runs o) (send_intent o) (update_package o) true true)
  else if Ascii.eqb arg "c" then
    ret (mkOptions (previous_runs o) (send_intent o) (update_package o) (wipe_data o) true)
  else if Ascii.eqb arg BADCH then
    log LOGE "Invalid command argument\n" [] ;; ret o
  else ret o.

Fixpoint option_loop (o : options) (rs : list (ascii * option cstr)) : M options :=
  match rs with
  | [] => ret o
  | r :: rs' => o' <- option_case o r ;; option_loop o' rs'
  end.

Definition parse_options (argv : list cstr) : M options :=
  option_loop no_options (getopt_long (drop 1 argv)).

(** *** Dispatch *)

Definition erase_root (root : string) : M Z :=
  emit (Call "ui_set_background" [lit "BACKGROUND_ICON_INSTALLING"]) ;;
  emit (Call "ui_show_indeterminate_progress" []) ;;
  emit (Call "ui_print" [lit "Formatting %s.."; lit root]) ;;
  emit (Call "format_root_device" [lit root]) ;;
  f <- gets format_result ;;
  ret (f root).

Definition install_package (path : cstr) : M Z :=
  emit (Call "install_package" [path]) ;;
  f <- gets install_result ;;
  ret (f path).

(** The interactive menu, cut down to one round of its loop.  Each round
    starts with [finish_recovery(NULL)]; the routine returns once the
    operator chose to reboot or to go to the console, and that choice is
    what it leaves in [do_reboot].  The rounds before the last, the menu
    actions and an operator who never chooses are outside this model:
    what is proved with it holds for the runs in which the menu is left at
    once, and nothing is claimed here about the others. *)
Definition prompt_and_wait : M unit :=
  emit (Call "prompt_and_wait" []) ;;
  finish_recovery None ;;
  emit (Call "ui_reset_progress" []) ;;
  emit (Call "get_menu_selection" []) ;;
  r <- gets operator_reboot ;;
  modify (set_do_reboot r).

(** How the process ends. *)
Inductive ending :=
| Died                       (* killed in get_args *)
| FirmwareReboot             (* maybe_install_firmware_update rebooted *)
| Reboot (how : string)      (* reboot(RB_POWER_OFF) or reboot(RB_AUTOBOOT) *)
| Exit (code : string).      (* return EXIT_SUCCESS *)

Section Main.

(** install.h is not part of the sources: the two status codes are taken
    as given. *)
Variables INSTALL_SUCCESS INSTALL_ERROR : Z.

Definition failed (status : Z) : bool := negb (status =? INSTALL_SUCCESS)%Z.

(** From [int status = INSTALL_SUCCESS;] to the end of the if-chain. *)
Definition dispatch (o : options) : M Z :=
  match update_package o with
  | Some pkg =>
      status <- install_package pkg ;;
      when (failed status) (emit (Call "ui_print" [lit "Installation aborted.\n"])) ;;
      ret status
  | None =>
      if wipe_data o || wipe_cache o then
        status <- (if wipe_data o then
                     r <- erase_root "DATA:" ;;
                     ret (if (r =? 0)%Z then INSTALL_SUCCESS else INSTALL_ERROR)
                   else ret INSTALL_SUCCESS) ;;
        status <- (if wipe_cache o then
                     r <- erase_root "CACHE:" ;;
                     ret (if (r =? 0)%Z then status else INSTALL_ERROR)
                   else ret status) ;;
        when (failed status) (emit (Call "ui_print" [lit "Data wipe failed.\n"])) ;;
        ret status
      else ret INSTALL_ERROR
  end.

(** From [if (status != INSTALL_SUCCESS) ui_set_background(...)] to the end
    of [main]. *)
Definition leave (status : Z) (intent : option cstr) : M ending :=
  when (failed status)
       (emit (Call "ui_set_background" [lit "BACKGROUND_ICON_ERROR"])) ;;
  emit (Call "system" [lit "echo 0 > /sys/class/leds/keyboard-backlight/brightness"]) ;;
  ensure_root_path_mounted "SYSTEM:" ;;
  ensure_root_path_mounted "DATA:" ;;
  ensure_root_path_mounted "SDCARD:" ;;
  when (failed status) prompt_and_wait ;;
  emit (Call "maybe_install_firmware_update" (from_option (fun s => [s]) [] intent)) ;;
  pending <- gets firmware_pending ;;
  if pending then ret FirmwareReboot
  else
    finish_recovery intent ;;
    emit (Call "sync" []) ;;
    r <- gets do_reboot ;;
    if (r =? 0)%Z then
      emit (Call "tcflush" []) ;;
      emit (Call "tcflow" []) ;;
      ret (Exit "EXIT_SUCCESS")
    else
      emit (Call "ui_print" [lit "Rebooting...\n"]) ;;
      emit (Call "sync" []) ;;
      if (r =? 2)%Z then
        emit (Call "reboot" [lit "RB_POWER_OFF"]) ;; ret (Reboot "RB_POWER_OFF")
      else
        emit (Call "reboot" [lit "RB_AUTOBOOT"]) ;; ret (Reboot "RB_AUTOBOOT").

(** [main], from [get_args] on.  The statements that only print (the
    command line, the properties) and [register_update_commands] are left
    out: they set none of the variables used below. *)
Definition main (argv : list cstr) : M ending :=
  r <- get_args argv ;;
  match r with
  | None => ret Died
  | Some argv =>
      o <- parse_options argv ;;
      status <- dispatch o ;;
      leave status (send_intent o)
  end.

End Main.

(** * Properties *)

Example strlcpy_small :
  strlcpy (lit "xxxxxx") 1 (lit "abcdef") 3 = "x"%char :: lit "ab" ++ NUL :: lit "xx".
Proof. reflexivity. Qed.

Example translate_command :
  translate_root_path COMMAND_FILE = Some "/cache/recovery/command"%string.
Proof. reflexivity. Qed.

Example getopt_sample :
  getopt_long [lit "--wipe_data"; lit "--update_package=CACHE:x.zip"; lit "foo";
               lit "-ab"; lit "--send"; lit "hello"; lit "--wipe"]
  = [("w"%char, None); ("u"%char, Some (lit "CACHE:x.zip")); (BADCH, None);
     (BADCH, None); ("s"%char, Some (lit "hello")); (BADCH, None)].
Proof. reflexivity. Qed.

(** ** Reasoning about the trace *)

(** The events a computation adds to the trace of [w]. *)
Definition events {A} (c : M A) (w : world) : list event :=
  drop (length (trace w)) (trace (snd (c w))).

(** [c] only appends to the trace, and what it appends satisfies [P]. *)
Definition emits {A} (P : event -> Prop) (c : M A) : Prop :=
  forall w, trace (snd (c w)) = trace w ++ events c w /\ Forall P (events c w).

Lemma emits_intro {A} (P : event -> Prop) (c : M A) :
  (forall w, exists d, trace (snd (c w)) = trace w ++ d /\ Forall P d) ->
  emits P c.
Proof.
  intros H w. destruct (H w) as (d & Hd & HP). unfold events.
  rewrite Hd, drop_app_length. auto.
Qed.

Lemma events_unique {A} (c : M A) w d :
  trace (snd (c w)) = trace w ++ d -> events c w = d.
Proof. intros H. unfold events. rewrite H, drop_app_length. reflexivity. Qed.

Lemma emits_weaken {A} (P Q : event -> Prop) (c : M A) :
  (forall e, P e -> Q e) -> emits P c -> emits Q c.
Proof.
  intros HPQ Hc w. destruct (Hc w) as [H1 H2]. split; [done|].
  eapply Forall_impl; eauto.
Qed.

Lemma emits_ret {A} P (a : A) : emits P (ret a).
Proof. apply emits_intro. intros w. exists []. simpl. by rewrite app_nil_r. Qed.

Lemma emits_gets {A} P (f : world -> A) : emits P (gets f).
Proof. apply emits_intro. intros w. exists []. simpl. by rewrite app_nil_r. Qed.

Lemma emits_emit (P : event -> Prop) e : P e -> emits P (emit e).
Proof. intros He. apply emits_intro. intros w. exists [e]. split; [done|]. by constructor. Qed.

Lemma emits_log (P : event -> Prop) lv fmt args :
  P (Log lv fmt args) -> emits P (log lv fmt args).
Proof. apply emits_emit. Qed.

Lemma emits_modify P f :
  (forall w, trace (f w) = trace w) -> emits P (modify f).
Proof.
  intros H. apply emits_intro. intros w. exists []. simpl.
  by rewrite H, app_nil_r.
Qed.

Lemma emits_bind {A B} P (c : M A) (k : A -> M B) :
  emits P c -> (forall a, emits P (k a)) -> emits P (bind c k).
Proof.
  intros Hc Hk. apply emits_intro. intros w. unfold bind.
  destruct (Hc w) as [H1 H2]. destruct (c w) as [a w1]. simpl in *.
  destruct (Hk a w1) as [H3 H4].
  exists (events c w ++ events (k a) w1). split.
  - by rewrite H3, H1, app_assoc.
  - by apply Forall_app.
Qed.

Lemma events_bind {A B} P (c : M A) (k : A -> M B) w :
  emits P c -> (forall a, emits P (k a)) ->
  events (bind c k) w = events c w ++ events (k (fst (c w))) (snd (c w)).
Proof.
  intros Hc Hk. apply events_unique. unfold bind.
  destruct (Hc w) as [H1 _]. destruct (c w) as [a w1] eqn:E. simpl in *.
  destruct (Hk a w1) as [H3 _]. by rewrite H3, H1, app_assoc.
Qed.

Lemma emits_when P b c : emits P c -> emits P (when b c).
Proof. destruct b; simpl; auto using emits_ret. Qed.

(** One step of a proof that a computation emits only [P]-events; open
    goals are the side conditions [P e] and the calls of other routines. *)
Ltac emits_step :=
  match goal with
  | |- emits _ (bind _ _) => apply emits_bind; [| intros ?]
  | |- emits _ (ret _) => apply emits_ret
  | |- emits _ (gets _) => apply emits_gets
  | |- emits _ (when _ _) => apply emits_when
  | |- emits _ (log _ _ _) => apply emits_log
  | |- emits _ (emit _) => apply emits_emit
  | |- emits _ (modify _) =>
      apply emits_modify; let w := fresh "w" in intros w;
      try reflexivity; try (destruct (misc_ok w); reflexivity)
  | |- emits _ (match ?x with _ => _ end) => destruct x
  | |- emits _ (let '(_, _) := ?x in _) => destruct x
  end.

(** The names of the external routines among a list of events, in order. *)
Definition called (t : list event) : list string :=
  omap (fun e => match e with Call fn _ => Some fn | Log _ _ _ => None end) t.

(** The arguments of the calls of [fn] among a list of events, in order. *)
Definition calls (fn : string) (t : list event) : list (list cstr) :=
  omap (fun e => match e with
                 | Call f a => if String.eqb f fn then Some a else None
                 | Log _ _ _ => None
                 end) t.

(** [e] is a log line or a call of one of [fns]. *)
Definition among (fns : list string) (e : event) : Prop :=
  match e with
  | Log _ _ _ => True
  | Call fn _ => In fn fns
  end.

Lemma calls_among fns fn t :
  ~ In fn fns -> Forall (among fns) t -> calls fn t = [].
Proof.
  intros Hfn. induction 1 as [|e t He _ IH]; [done|].
  unfold calls in *. simpl. destruct e as [|f a]; [done|]. simpl in He.
  destruct (String.eqb_spec f fn) as [->|]; [contradiction|done].
Qed.

Lemma calls_app fn t1 t2 : calls fn (t1 ++ t2) = calls fn t1 ++ calls fn t2.
Proof. unfold calls. apply omap_app. Qed.

(** The external routines that [get_args] and [finish_recovery] call. *)
Definition io_fns : list string :=
  ["ensure_root_path_mounted"; "dirCreateHierarchy"; "get_bootloader_message";
   "set_bootloader_message"; "sync"]%string.

Ltac emits_auto := repeat emits_step; auto; try solve [simpl; auto 10].

Lemma emits_fopen P path mode : emits P (fopen path mode).
Proof.
  unfold fopen. apply emits_bind; [emits_auto|]. intros w.
  destruct (Ascii.eqb _ _); [emits_auto|].
  destruct (volume_of w path); emits_auto.
Qed.

Lemma emits_fputs P s fp : emits P (fputs s fp).
Proof.
  unfold fputs. apply emits_bind; [emits_auto|]. intros w.
  destruct s; [emits_auto|]. destruct (volume_of w (f_path fp)); emits_auto.
Qed.

Lemma emits_unlink P path : emits P (unlink path).
Proof.
  unfold unlink. apply emits_bind; [emits_auto|]. intros w.
  destruct (files w !! path); [|emits_auto].
  destruct (volume_of w path); emits_auto.
Qed.

Lemma emits_ensure_root_path_mounted root_path :
  emits (among io_fns) (ensure_root_path_mounted root_path).
Proof. unfold ensure_root_path_mounted. emits_auto. Qed.

Lemma emits_get_bootloader_message boot :
  emits (among io_fns) (get_bootloader_message boot).
Proof. unfold get_bootloader_message. emits_auto. Qed.

Lemma emits_set_bootloader_message boot :
  emits (among io_fns) (set_bootloader_message boot).
Proof. unfold set_bootloader_message. emits_auto. Qed.

Lemma emits_check_and_fclose P fp name :
  (forall lv fmt args, P (Log lv fmt args)) -> emits P (check_and_fclose fp name).
Proof. intros. unfold check_and_fclose. emits_auto. Qed.

Lemma emits_fopen_root_path root_path mode :
  emits (among io_fns) (fopen_root_path root_path mode).
Proof.
  unfold fopen_root_path.
  apply emits_bind; [apply emits_ensure_root_path_mounted|]. intros mounted.
  destruct (negb mounted); [emits_auto|].
  destruct (translate_root_path root_path); [|emits_auto].
  emits_step; [emits_auto|]. apply emits_fopen.
Qed.

Lemma emits_copy_lines P fuel tmplog lg : emits P (copy_lines fuel tmplog lg).
Proof.
  revert tmplog lg. induction fuel as [|fuel IH]; intros; simpl; [emits_auto|].
  destruct (fgets _ _) as [[line rest]|]; [|emits_auto].
  emits_step; [apply emits_fputs|]. apply IH.
Qed.

#[export] Hint Resolve emits_fopen emits_fputs emits_unlink
  emits_ensure_root_path_mounted emits_get_bootloader_message
  emits_set_bootloader_message emits_check_and_fclose emits_fopen_root_path
  emits_copy_lines : core.

Lemma emits_finish_recovery intent :
  emits (among io_fns) (finish_recovery intent).
Proof.
  unfold finish_recovery, write_intent, copy_log, reset_bootloader_message,
    remove_command_file.
  emits_auto.
  all: try (apply emits_check_and_fclose; simpl; auto).
Qed.

Lemma emits_args_from_bcb argv boot :
  emits (among io_fns) (args_from_bcb argv boot).
Proof.
  unfold args_from_bcb. destruct (strtok _ _ _) as [[arg save] boot'].
  destruct arg; [|emits_auto].
  destruct (bool_decide _); [|emits_auto].
  destruct (bcb_args _ _ _). emits_auto.
Qed.

Lemma emits_args_from_file argv :
  emits (among io_fns) (args_from_file argv).
Proof.
  unfold args_from_file. apply emits_bind; [auto|]. intros [fp|]; [|emits_auto].
  destruct (read_command_lines _ _); emits_auto.
  apply emits_check_and_fclose; simpl; auto.
Qed.

Lemma emits_get_args argv : emits (among io_fns) (get_args argv).
Proof.
  unfold get_args. emits_auto.
  all: auto using emits_args_from_bcb, emits_args_from_file.
Qed.

(** ** The dispatcher *)

Section Dispatcher.

Variables INSTALL_SUCCESS INSTALL_ERROR : Z.

Local Abbreviation dispatch' := (dispatch INSTALL_SUCCESS INSTALL_ERROR).
Local Abbreviation leave' := (leave INSTALL_SUCCESS).
Local Abbreviation failed' := (failed INSTALL_SUCCESS).

(** The erase of [root] failed. *)
Definition erase_fails (w : world) (root : string) : bool :=
  negb (format_result w root =? 0)%Z.

Lemma erase_root_run root w :
  erase_root root w =
  (format_result w root,
   set_trace (trace w ++
     [Call "ui_set_background" [lit "BACKGROUND_ICON_INSTALLING"];
      Call "ui_show_indeterminate_progress" [];
      Call "ui_print" [lit "Formatting %s.."; lit root];
      Call "format_root_device" [lit root]]) w).
Proof.
  unfold erase_root, bind, emit, modify, gets, ret, set_trace. simpl.
  by rewrite <- !app_assoc.
Qed.

Lemma install_package_run pkg w :
  install_package pkg w =
  (install_result w pkg, set_trace (trace w ++ [Call "install_package" [pkg]]) w).
Proof. reflexivity. Qed.

Lemma events_set_trace {A} (c : M A) w a d w' :
  c w = (a, w') -> trace w' = trace w ++ d -> events c w = d.
Proof. intros E H. apply events_unique. by rewrite E. Qed.

Ltac run :=
  unfold bind, when, emit, modify, gets, ret; simpl;
  rewrite ?erase_root_run, ?install_package_run; simpl.

(** What [dispatch] returns and which operations it invokes, by cases on
    the parsed options. *)
Lemma dispatch_run (o : options) (w : world) :
  let status := fst (dispatch' o w) in
  let t := events (dispatch' o) w in
  match update_package o with
  | Some pkg =>
      status = install_result w pkg
      /\ calls "install_package" t = [[pkg]]
      /\ calls "format_root_device" t = []
  | None =>
      calls "install_package" t = []
      /\ calls "format_root_device" t =
           (if wipe_data o then [[lit "DATA:"]] else [])
           ++ (if wipe_cache o then [[lit "CACHE:"]] else [])
      /\ status =
           if wipe_data o || wipe_cache o then
             if (wipe_data o && erase_fails w "DATA:")
                || (wipe_cache o && erase_fails w "CACHE:")
             then INSTALL_ERROR else INSTALL_SUCCESS
           else INSTALL_ERROR
  end.
Proof.
  destruct o as [pr si [pkg|] wd wc]; unfold dispatch, events, erase_fails; simpl.
  - run. destruct (failed' (install_result w pkg)); simpl.
    all: rewrite <- ?app_assoc, drop_app_length; done.
  - destruct wd, wc; simpl; run.
    all: repeat match goal with
           | |- context [(?x =? 0)%Z] => destruct (x =? 0)%Z; simpl
           | |- context [failed' ?x] => destruct (failed' x); simpl
           end.
    all: rewrite <- ?app_assoc, ?drop_app_length; try done.
    by rewrite drop_all.
Qed.

(** X13: when both erases are requested and the erase of the data
    partition fails, the cache partition is erased all the same, after it,
    and the status is the error code whatever that second erase returns. *)
Theorem erase_no_short_circuit (o : options) (w : world) :
  update_package o = None -> wipe_data o = true -> wipe_cache o = true ->
  erase_fails w "DATA:" = true ->
  fst (dispatch' o w) = INSTALL_ERROR
  /\ calls "format_root_device" (events (dispatch' o) w)
     = [[lit "DATA:"]; [lit "CACHE:"]].
Proof.
  intros Hu Hd Hc Hf. pose proof (dispatch_run o w) as H. simpl in H.
  rewrite Hu, Hd, Hc, Hf in H. simpl in H. by destruct H as (_ & -> & ->).
Qed.

(** *** After the dispatch *)

Lemma events_emit e w : events (emit e) w = [e].
Proof. by apply events_unique. Qed.

Lemma events_ret {A} (a : A) w : events (ret a) w = [].
Proof. apply events_unique. simpl. by rewrite app_nil_r. Qed.

Lemma events_ensure_root_path_mounted root w :
  events (ensure_root_path_mounted root) w
  = [Call "ensure_root_path_mounted" [lit root]].
Proof. by apply events_unique. Qed.

(** The routines [leave] may call when the status is the success code. *)
Definition quiet_fns : list string :=
  io_fns ++ ["system"; "maybe_install_firmware_update"; "tcflush"; "tcflow";
             "ui_print"; "reboot"]%string.

Definition leave_fns : list string :=
  quiet_fns ++ ["ui_set_background"; "prompt_and_wait"; "ui_reset_progress";
                "get_menu_selection"]%string.

Ltac in_fns :=
  unfold leave_fns, quiet_fns, io_fns; simpl;
  repeat (first [left; reflexivity | right]).

Lemma among_incl fns fns' e : incl fns fns' -> among fns e -> among fns' e.
Proof. intros H. destruct e; simpl; auto. Qed.

Lemma emits_among_incl {A} fns fns' (c : M A) :
  incl fns fns' -> emits (among fns) c -> emits (among fns') c.
Proof. intros H. apply emits_weaken. intros e. by apply among_incl. Qed.

Lemma io_quiet : incl io_fns quiet_fns.
Proof. apply incl_appl, incl_refl. Qed.

Lemma quiet_leave : incl quiet_fns leave_fns.
Proof. apply incl_appl, incl_refl. Qed.

Lemma emits_prompt_and_wait : emits (among leave_fns) prompt_and_wait.
Proof.
  unfold prompt_and_wait. emits_auto.
  all: try solve [in_fns].
  eapply emits_among_incl, emits_finish_recovery.
  eapply incl_tran; [apply io_quiet | apply quiet_leave].
Qed.

(** [leave] from the call of [maybe_install_firmware_update] on. *)
Lemma emits_leave_end fns intent (k : M ending) :
  incl quiet_fns fns ->
  k = (emit (Call "maybe_install_firmware_update"
               (from_option (fun s => [s]) [] intent)) ;;
       pending <- gets firmware_pending ;;
       if pending then ret FirmwareReboot
       else
         finish_recovery intent ;;
         emit (Call "sync" []) ;;
         r <- gets do_reboot ;;
         if (r =? 0)%Z then
           emit (Call "tcflush" []) ;;
           emit (Call "tcflow" []) ;;
           ret (Exit "EXIT_SUCCESS")
         else
           emit (Call "ui_print" [lit "Rebooting...\n"]) ;;
           emit (Call "sync" []) ;;
           if (r =? 2)%Z then
             emit (Call "reboot" [lit "RB_POWER_OFF"]) ;; ret (Reboot "RB_POWER_OFF")
           else
             emit (Call "reboot" [lit "RB_AUTOBOOT"]) ;; ret (Reboot "RB_AUTOBOOT")) ->
  emits (among fns) k.
Proof.
  intros Hfns ->.
  assert (Hq : forall fn, In fn quiet_fns -> In fn fns) by exact Hfns.
  emits_auto.
  all: try solve [apply Hq; in_fns].
  eapply emits_among_incl, emits_finish_recovery.
  eapply incl_tran; [apply io_quiet | done].
Qed.

Lemma emits_leave status intent : emits (among leave_fns) (leave' status intent).
Proof.
  unfold leave.
  apply emits_bind; [emits_auto; in_fns|intros _].
  apply emits_bind; [emits_auto; in_fns|intros _].
  do 3 (apply emits_bind;
        [eapply emits_among_incl, emits_ensure_root_path_mounted;
         eapply incl_tran; [apply io_quiet | apply quiet_leave]|intros _]).
  apply emits_bind; [apply emits_when, emits_prompt_and_wait|intros _].
  eapply emits_leave_end; [apply quiet_leave|reflexivity].
Qed.

Lemma emits_leave_success intent :
  emits (among quiet_fns) (leave' INSTALL_SUCCESS intent).
Proof.
  unfold leave, failed. rewrite Z.eqb_refl. simpl.
  apply emits_bind; [emits_auto|intros _].
  apply emits_bind; [emits_auto; in_fns|intros _].
  do 3 (apply emits_bind;
        [eapply emits_among_incl, emits_ensure_root_path_mounted;
         apply io_quiet|intros _]).
  apply emits_bind; [emits_auto|intros _].
  eapply emits_leave_end; [apply incl_refl|reflexivity].
Qed.

(** C9: when the status is not the success code, the error background is
    set first and the interactive menu is entered before anything reboots
    the device; with the success code the menu is not entered and the
    error background is not set. *)
Theorem error_enters_fallback (status : Z) (intent : option cstr) (w : world) :
  let t := events (leave' status intent) w in
  (status <> INSTALL_SUCCESS ->
   exists t1 t2,
     t = Call "ui_set_background" [lit "BACKGROUND_ICON_ERROR"] :: t1
         ++ Call "prompt_and_wait" [] :: t2
     /\ calls "reboot" t1 = []
     /\ calls "prompt_and_wait" t1 = [])
  /\ (status = INSTALL_SUCCESS ->
      calls "prompt_and_wait" t = [] /\ calls "ui_set_background" t = []).
Proof.
  simpl. split.
  - intros Hne.
    assert (Hf : failed' status = true).
    { unfold failed. by apply negb_true_iff, Z.eqb_neq. }
    unfold leave. rewrite Hf. unfold prompt_and_wait.
    set (k1 := bind (finish_recovery None) _).
    set (k2 := bind (emit (Call "maybe_install_firmware_update" _)) _).
    exists [Call "system" [lit "echo 0 > /sys/class/leds/keyboard-backlight/brightness"];
            Call "ensure_root_path_mounted" [lit "SYSTEM:"];
            Call "ensure_root_path_mounted" [lit "DATA:"];
            Call "ensure_root_path_mounted" [lit "SDCARD:"]].
    set (w1 := set_trace (trace w ++
       [Call "ui_set_background" [lit "BACKGROUND_ICON_ERROR"];
        Call "system" [lit "echo 0 > /sys/class/leds/keyboard-backlight/brightness"];
        Call "ensure_root_path_mounted" [lit "SYSTEM:"];
        Call "ensure_root_path_mounted" [lit "DATA:"];
        Call "ensure_root_path_mounted" [lit "SDCARD:"];
        Call "prompt_and_wait" []]) w).
    exists (events (k1 ;; k2) w1). split; [|done].
    apply events_unique.
    assert (Hk : emits (among leave_fns) (k1 ;; k2)).
    { apply emits_bind.
      - subst k1. emits_auto. all: try solve [in_fns].
        eapply emits_among_incl, emits_finish_recovery.
        eapply incl_tran; [apply io_quiet | apply quiet_leave].
      - intros _. eapply emits_leave_end; [apply quiet_leave|reflexivity]. }
    match goal with |- trace (snd (?c w)) = _ =>
      assert (Heq : c w = (k1 ;; k2) w1) end.
    { unfold bind, when, emit, modify, gets, ret, ensure_root_path_mounted.
      simpl. subst w1. unfold set_trace. simpl. by rewrite <- !app_assoc. }
    rewrite Heq. destruct (Hk w1) as [-> _]. subst w1. simpl.
    by rewrite <- !app_assoc.
  - intros ->. destruct (emits_leave_success intent w) as [_ H].
    split; eapply calls_among; eauto; simpl; intuition discriminate.
Qed.

End Dispatcher.

(** ** Reasoning about the rest of the world *)

(** [c] leaves the observation [f] of the world as it was. *)
Definition keeps {A B} (f : world -> B) (c : M A) : Prop :=
  forall w, f (snd (c w)) = f w.

(** Every result of [c] satisfies [Q]. *)
Definition returns {A} (Q : A -> Prop) (c : M A) : Prop :=
  forall w, Q (fst (c w)).

Section Keeps.

Context {B : Type} (f : world -> B).

Lemma keeps_ret {A} (a : A) : keeps f (ret a).
Proof. by intros w. Qed.

Lemma keeps_gets {A} (g : world -> A) : keeps f (gets g).
Proof. by intros w. Qed.

Lemma keeps_modify g : (forall w, f (g w) = f w) -> keeps f (modify g).
Proof. intros H w. apply H. Qed.

Lemma keeps_emit e : (forall t w, f (set_trace t w) = f w) -> keeps f (emit e).
Proof. intros H w. apply H. Qed.

Lemma keeps_bind_post {A C} (Q : A -> Prop) (c : M A) (k : A -> M C) :
  returns Q c -> keeps f c -> (forall a, Q a -> keeps f (k a)) ->
  keeps f (bind c k).
Proof.
  intros HQ Hc Hk w. unfold bind. specialize (HQ w). specialize (Hc w).
  destruct (c w) as [a w1]. simpl in *. by rewrite (Hk a HQ w1).
Qed.

Lemma keeps_bind {A C} (c : M A) (k : A -> M C) :
  keeps f c -> (forall a, keeps f (k a)) -> keeps f (bind c k).
Proof.
  intros Hc Hk. apply (keeps_bind_post (fun _ => True)); auto. by intros w.
Qed.

Lemma keeps_when b c : keeps f c -> keeps f (when b c).
Proof. destruct b; simpl; auto using keeps_ret. Qed.

End Keeps.

Ltac keeps_step :=
  match goal with
  | |- keeps _ (bind _ _) => apply keeps_bind; [| intros ?]
  | |- keeps _ (ret _) => apply keeps_ret
  | |- keeps _ (gets _) => apply keeps_gets
  | |- keeps _ (when _ _) => apply keeps_when
  | |- keeps _ (log _ _ _) => apply keeps_emit; try reflexivity
  | |- keeps _ (emit _) => apply keeps_emit; try reflexivity
  | |- keeps _ (modify _) =>
      apply keeps_modify; let w := fresh "w" in intros w;
      try reflexivity; try (destruct (misc_ok w); reflexivity)
  | |- keeps _ (match ?x with _ => _ end) => destruct x
  | |- keeps _ (let '(_, _) := ?x in _) => destruct x
  end.

Ltac keeps_auto := repeat keeps_step; auto.

(** *** Observations that a routine cannot change

    An observation [f] of the world may ignore the trace, the files, the
    stored control block or the log offset; a routine that only changes
    what [f] ignores keeps [f]. *)

Section Frame.

Context {B : Type} (f : world -> B).

Hypothesis Ht : forall t w, f (set_trace t w) = f w.
Hypothesis Hfi : forall x w, f (set_files x w) = f w.
Hypothesis Hb : forall x w, f (set_bcb x w) = f w.
Hypothesis Ho : forall x w, f (set_tmplog_offset x w) = f w.

Ltac frame :=
  repeat first
    [ assumption
    | match goal with
      | |- keeps _ (bind _ _) => apply keeps_bind; [|intros ?]
      | |- keeps _ (ret _) => apply keeps_ret
      | |- keeps _ (gets _) => apply keeps_gets
      | |- keeps _ (when _ _) => apply keeps_when
      | |- keeps _ (emit _) => apply keeps_emit; exact Ht
      | |- keeps _ (log _ _ _) => apply keeps_emit; exact Ht
      | |- keeps _ (modify _) => apply keeps_modify; intros ?
      | |- keeps _ (match ?x with _ => _ end) => destruct x
      | |- keeps _ (let '(_, _) := ?x in _) => destruct x
      | H : forall a, keeps _ (?c a) |- keeps _ (?c _) => apply H
      | H : forall a b, keeps _ (?c a b) |- keeps _ (?c _ _) => apply H
      | H : forall a b d, keeps _ (?c a b d) |- keeps _ (?c _ _ _) => apply H
      end ].

Lemma frame_ensure_root_path_mounted root_path :
  keeps f (ensure_root_path_mounted root_path).
Proof. unfold ensure_root_path_mounted. frame. Qed.

Lemma frame_check_and_fclose fp name : keeps f (check_and_fclose fp name).
Proof. unfold check_and_fclose. frame. Qed.

Lemma frame_fopen path mode : keeps f (fopen path mode).
Proof.
  unfold fopen. apply keeps_bind; [apply keeps_gets|]. intros w.
  destruct (Ascii.eqb _ _); [apply keeps_ret|].
  destruct (volume_of w path); frame; apply Hfi.
Qed.

Lemma frame_fputs s fp : keeps f (fputs s fp).
Proof.
  unfold fputs. apply keeps_bind; [apply keeps_gets|]. intros w.
  destruct s; [apply keeps_ret|].
  destruct (volume_of w (f_path fp)); frame; apply Hfi.
Qed.

Lemma frame_unlink path : keeps f (unlink path).
Proof.
  unfold unlink. apply keeps_bind; [apply keeps_gets|]. intros w.
  destruct (files w !! path); [|apply keeps_ret].
  destruct (volume_of w path); frame; apply Hfi.
Qed.

Lemma frame_copy_lines fuel tmplog lg : keeps f (copy_lines fuel tmplog lg).
Proof.
  revert tmplog lg. induction fuel as [|fuel IH]; intros; simpl; [apply keeps_ret|].
  destruct (fgets _ _) as [[line rest]|]; [|apply keeps_ret].
  apply keeps_bind; [apply frame_fputs|]. intros. apply IH.
Qed.

Lemma frame_set_bootloader_message boot :
  keeps f (set_bootloader_message boot).
Proof.
  unfold set_bootloader_message. frame. destruct (misc_ok _); [apply Hb|done].
Qed.

Lemma frame_fopen_root_path root_path mode :
  keeps f (fopen_root_path root_path mode).
Proof.
  pose proof frame_ensure_root_path_mounted. pose proof frame_fopen.
  unfold fopen_root_path. frame.
Qed.

Lemma frame_write_intent intent : keeps f (write_intent intent).
Proof.
  pose proof frame_fopen_root_path. pose proof frame_fputs.
  pose proof frame_check_and_fclose. unfold write_intent. frame.
Qed.

Lemma frame_copy_log : keeps f copy_log.
Proof.
  pose proof frame_fopen_root_path. pose proof frame_fopen.
  pose proof frame_copy_lines. pose proof frame_check_and_fclose.
  unfold copy_log. frame. apply Ho.
Qed.

Lemma frame_reset_bootloader_message : keeps f reset_bootloader_message.
Proof. apply frame_set_bootloader_message. Qed.

Lemma frame_remove_command_file : keeps f remove_command_file.
Proof.
  pose proof frame_ensure_root_path_mounted. pose proof frame_unlink.
  unfold remove_command_file. frame.
Qed.

Lemma frame_finish_recovery intent : keeps f (finish_recovery intent).
Proof.
  pose proof frame_write_intent. pose proof frame_copy_log.
  pose proof frame_reset_bootloader_message.
  pose proof frame_remove_command_file.
  unfold finish_recovery. frame.
Qed.

End Frame.

(** *** Files that a routine does not touch *)

Definition command_path : string := "/cache/recovery/command".
Definition intent_path : string := "/cache/recovery/intent".
Definition log_path : string := "/cache/recovery/log".

(** The stream, if any, is a stream on the file [path]. *)
Definition on_path (path : string) (r : option FILE) : Prop :=
  forall fp, r = Some fp -> f_path fp = path.

Lemma returns_fopen path mode : returns (on_path path) (fopen path mode).
Proof.
  intros w fp. unfold fopen, bind, gets, ret, modify. simpl.
  destruct (Ascii.eqb _ _); simpl.
  - destruct (files w !! path); intros [= <-]; done.
  - destruct (volume_of w path); simpl; intros [= <-]; done.
Qed.

Lemma returns_fputs s fp :
  returns (fun fp' => f_path fp' = f_path fp) (fputs s fp).
Proof.
  intros w. unfold fputs, bind, gets, ret, modify. simpl.
  destruct s; [done|]. by destruct (volume_of w (f_path fp)).
Qed.

Lemma returns_copy_lines fuel tmplog lg :
  returns (fun r => f_path (snd r) = f_path lg) (copy_lines fuel tmplog lg).
Proof.
  revert tmplog lg. induction fuel as [|fuel IH]; intros tmplog lg w; [done|].
  simpl. destruct (fgets _ _) as [[line rest]|]; [|done].
  unfold bind. pose proof (returns_fputs (cstr_at (line ++ [NUL]) 0) lg w) as H.
  destruct (fputs _ lg w) as [lg' w']. simpl in H. rewrite <- H. apply IH.
Qed.

Lemma returns_fopen_root_path root_path mode path :
  translate_root_path root_path = Some path ->
  returns (on_path path) (fopen_root_path root_path mode).
Proof.
  intros Hp w. unfold fopen_root_path. rewrite Hp.
  unfold bind at 1. destruct (ensure_root_path_mounted root_path w) as [m w1].
  destruct (negb m); [by intros fp|].
  unfold bind. destruct (when _ _ w1) as [[] w2]. apply returns_fopen.
Qed.

Section FileFrame.

Variable q : string.

Local Abbreviation file_q := (fun w : world => files w !! q).

Ltac file_frame :=
  repeat first
    [ assumption
    | match goal with
      | |- keeps _ (bind _ _) => apply keeps_bind; [|intros ?]
      | |- keeps _ (ret _) => apply keeps_ret
      | |- keeps _ (gets _) => apply keeps_gets
      | |- keeps _ (when _ _) => apply keeps_when
      | |- keeps _ (emit _) => apply keeps_emit; reflexivity
      | |- keeps _ (log _ _ _) => apply keeps_emit; reflexivity
      | |- keeps _ (modify _) => apply keeps_modify; intros ?; simpl
      | |- keeps _ (match ?x with _ => _ end) => destruct x
      end ].

Lemma file_fopen path mode : q <> path -> keeps file_q (fopen path mode).
Proof.
  intros Hq. unfold fopen. apply keeps_bind; [apply keeps_gets|]. intros w.
  destruct (Ascii.eqb (mode0 mode) "r"); [apply keeps_ret|].
  destruct (volume_of w path); file_frame.
  all: destruct (Ascii.eqb _ _); [|destruct (files _ !! path)];
    by rewrite ?lookup_insert_ne.
Qed.

Lemma file_fopen_r path : keeps file_q (fopen path "r").
Proof.
  unfold fopen. apply keeps_bind; [apply keeps_gets|]. intros w. apply keeps_ret.
Qed.

Lemma file_fputs s fp : q <> f_path fp -> keeps file_q (fputs s fp).
Proof.
  intros Hq. unfold fputs. apply keeps_bind; [apply keeps_gets|]. intros w.
  destruct s; [apply keeps_ret|].
  destruct (volume_of w (f_path fp)); file_frame.
  by rewrite lookup_insert_ne.
Qed.

Lemma file_unlink path : q <> path -> keeps file_q (unlink path).
Proof.
  intros Hq. unfold unlink. apply keeps_bind; [apply keeps_gets|]. intros w.
  destruct (files w !! path); [|apply keeps_ret].
  destruct (volume_of w path); file_frame; by rewrite lookup_delete_ne.
Qed.

Lemma file_copy_lines fuel tmplog lg :
  q <> f_path lg -> keeps file_q (copy_lines fuel tmplog lg).
Proof.
  revert tmplog lg. induction fuel as [|fuel IH]; intros tmplog lg Hq; simpl;
    [apply keeps_ret|].
  destruct (fgets _ _) as [[line rest]|]; [|apply keeps_ret].
  eapply keeps_bind_post; [apply returns_fputs|by apply file_fputs|].
  simpl. intros lg' Hlg. apply IH. by rewrite Hlg.
Qed.

Lemma file_fopen_root_path root_path mode path :
  translate_root_path root_path = Some path -> q <> path ->
  keeps file_q (fopen_root_path root_path mode).
Proof.
  intros Hp Hq. unfold fopen_root_path, ensure_root_path_mounted. rewrite Hp.
  pose proof (file_fopen path mode Hq). file_frame.
Qed.

Lemma file_write_intent intent :
  q <> intent_path -> keeps file_q (write_intent intent).
Proof.
  intros Hq. unfold write_intent. destruct intent as [s|]; [|apply keeps_ret].
  eapply keeps_bind_post;
    [by apply (returns_fopen_root_path _ _ intent_path)
    |by apply (file_fopen_root_path _ _ intent_path)|].
  intros [fp|] Hfp; [|file_frame]. specialize (Hfp fp eq_refl).
  apply keeps_bind; [apply file_fputs; by rewrite Hfp|].
  intros. unfold check_and_fclose. file_frame.
Qed.

Lemma file_copy_log : q <> log_path -> keeps file_q copy_log.
Proof.
  intros Hq. unfold copy_log.
  eapply keeps_bind_post;
    [by apply (returns_fopen_root_path _ _ log_path)
    |by apply (file_fopen_root_path _ _ log_path)|].
  intros [lg|] Hlg; [|file_frame]. specialize (Hlg lg eq_refl).
  unfold check_and_fclose.
  apply keeps_bind; [apply file_fopen_r|]. intros [tmplog|].
  - apply keeps_bind; [|intros; file_frame].
    apply keeps_bind; [apply keeps_gets|]. intros off.
    apply keeps_bind; [apply file_copy_lines; by rewrite Hlg|].
    intros. file_frame. done.
  - file_frame.
Qed.

Lemma file_remove_command_file :
  q <> command_path -> keeps file_q remove_command_file.
Proof.
  intros Hq. unfold remove_command_file, ensure_root_path_mounted.
  change (translate_root_path COMMAND_FILE) with (Some command_path).
  pose proof (file_unlink command_path Hq). file_frame.
Qed.

End FileFrame.

(** ** Completion *)

Definition zeroed : mem := replicate sizeof_boot NUL.

(** The cache volume mounts and lets files be removed. *)
Definition cache_usable (w : world) : bool :=
  match volume w "CACHE:" with
  | VolOk | VolFull => true
  | VolUnmountable | VolReadOnly => false
  end.

Definition unlink_warning : event :=
  Log LOGW "Can't unlink %s\n" [lit COMMAND_FILE].

Definition not_a_warning (e : event) : Prop :=
  match e with Log LOGW _ _ => False | _ => True end.

Lemma finish_recovery_steps intent w :
  snd (finish_recovery intent w)
  = snd (emit (Call "sync" [])
           (snd (remove_command_file
              (snd (reset_bootloader_message
                 (snd (copy_log (snd (write_intent intent w))))))))).
Proof.
  unfold finish_recovery, bind.
  destruct (write_intent intent w) as [[] w1]; cbn [snd].
  destruct (copy_log w1) as [[] w2]; cbn [snd].
  destruct (reset_bootloader_message w2) as [[] w3]; cbn [snd].
  by destruct (remove_command_file w3) as [[] w4].
Qed.

Lemma reset_bootloader_message_bcb w :
  bcb (snd (reset_bootloader_message w))
  = if misc_ok w then zeroed else bcb w.
Proof.
  unfold reset_bootloader_message, set_bootloader_message, bind, emit, modify.
  simpl. by destruct (misc_ok w).
Qed.

Lemma finish_recovery_bcb intent w :
  bcb (snd (finish_recovery intent w)) = if misc_ok w then zeroed else bcb w.
Proof.
  rewrite finish_recovery_steps, (keeps_emit bcb) by done.
  rewrite (frame_remove_command_file bcb) by done.
  rewrite reset_bootloader_message_bcb.
  rewrite (frame_copy_log misc_ok), (frame_write_intent misc_ok) by done.
  destruct (misc_ok w); [done|].
  by rewrite (frame_copy_log bcb), (frame_write_intent bcb).
Qed.

Lemma remove_command_file_run w :
  remove_command_file w =
  let t := trace w ++ [Call "ensure_root_path_mounted" [lit COMMAND_FILE]] in
  match volume w "CACHE:", files w !! command_path with
  | VolUnmountable, _ => (tt, set_trace (t ++ [unlink_warning]) w)
  | VolReadOnly, Some _ => (tt, set_trace (t ++ [unlink_warning]) w)
  | _, None => (tt, set_trace t w)
  | _, Some _ => (tt, set_files (delete command_path (files w)) (set_trace t w))
  end.
Proof.
  unfold remove_command_file, ensure_root_path_mounted, unlink.
  change (translate_root_path COMMAND_FILE) with (Some command_path).
  change (root_entry COMMAND_FILE) with (Some ("CACHE:", "/cache/")%string).
  unfold bind, emit, modify, gets, ret, log, when, emit, modify. simpl.
  destruct (volume w "CACHE:") eqn:V; simpl; try reflexivity.
  all: destruct (files w !! command_path); simpl; try reflexivity.
  all: unfold volume_of; simpl; rewrite V; reflexivity.
Qed.

Lemma remove_command_file_file w :
  files (snd (remove_command_file w)) !! command_path
  = if cache_usable w then None else files w !! command_path.
Proof.
  rewrite remove_command_file_run. unfold cache_usable.
  destruct (volume w "CACHE:"), (files w !! command_path) eqn:E; simpl;
    rewrite ?lookup_delete_eq; done.
Qed.

Lemma command_intent : command_path <> intent_path.
Proof. done. Qed.

Lemma command_log : command_path <> log_path.
Proof. done. Qed.

Lemma finish_recovery_command_file intent w :
  files (snd (finish_recovery intent w)) !! command_path
  = if cache_usable w then None else files w !! command_path.
Proof.
  rewrite finish_recovery_steps.
  rewrite (keeps_emit (fun w => files w !! command_path)) by done.
  rewrite remove_command_file_file.
  assert (Hu : cache_usable
                 (snd (reset_bootloader_message
                         (snd (copy_log (snd (write_intent intent w))))))
               = cache_usable w).
  { unfold cache_usable.
    rewrite (frame_reset_bootloader_message volume),
      (frame_copy_log volume), (frame_write_intent volume); done. }
  rewrite Hu. destruct (cache_usable w); [done|].
  rewrite (frame_reset_bootloader_message (fun w => files w !! command_path))
    by done.
  rewrite (file_copy_log command_path command_log).
  by rewrite (file_write_intent command_path intent command_intent).
Qed.

(** The first three blocks of [finish_recovery] log errors only, and call
    only the routines of [io_fns]. *)
Section Blocks.

Variable P : event -> Prop.
Hypothesis HE : forall fmt args, P (Log LOGE fmt args).
Hypothesis HC : forall fn args, In fn io_fns -> P (Call fn args).

Local Ltac fns := first [apply HE | apply HC; unfold io_fns; simpl; tauto].

Lemma block_fopen_root_path root_path mode :
  emits P (fopen_root_path root_path mode).
Proof.
  unfold fopen_root_path, ensure_root_path_mounted.
  emits_auto; try fns.
Qed.

Lemma block_check_and_fclose fp name : emits P (check_and_fclose fp name).
Proof. unfold check_and_fclose. emits_auto; fns. Qed.

Lemma emits_write_intent intent : emits P (write_intent intent).
Proof.
  unfold write_intent. destruct intent; [|apply emits_ret].
  apply emits_bind; [apply block_fopen_root_path|]. intros [fp|].
  - apply emits_bind; [apply emits_fputs|]. intros. apply block_check_and_fclose.
  - emits_auto; fns.
Qed.

Lemma emits_copy_log : emits P copy_log.
Proof.
  unfold copy_log.
  apply emits_bind; [apply block_fopen_root_path|]. intros [lg|].
  - apply emits_bind; [apply emits_fopen|]. intros [tmplog|].
    + apply emits_bind; [|intros; apply block_check_and_fclose].
      apply emits_bind; [apply emits_gets|]. intros.
      apply emits_bind; [apply emits_copy_lines|]. intros.
      apply emits_bind; [emits_auto|]. intros.
      apply emits_bind; [apply block_check_and_fclose|]. intros. apply emits_ret.
    + apply emits_bind; [|intros; apply block_check_and_fclose].
      emits_auto; fns.
  - emits_auto; fns.
Qed.

Lemma emits_reset_bootloader_message : emits P reset_bootloader_message.
Proof.
  unfold reset_bootloader_message, set_bootloader_message. emits_auto; fns.
Qed.

End Blocks.

Lemma emits_remove_command_file :
  emits (fun _ => True) remove_command_file.
Proof.
  unfold remove_command_file.
  apply emits_bind; [eapply emits_weaken, emits_ensure_root_path_mounted; done|].
  intros. emits_auto.
Qed.

Lemma events_finish_recovery intent w :
  let w1 := snd (write_intent intent w) in
  let w2 := snd (copy_log w1) in
  let w3 := snd (reset_bootloader_message w2) in
  events (finish_recovery intent) w
  = events (write_intent intent) w ++ events copy_log w1
    ++ events reset_bootloader_message w2 ++ events remove_command_file w3
    ++ [Call "sync" []].
Proof.
  intros w1 w2 w3. unfold finish_recovery.
  assert (H1 := emits_write_intent (fun _ => True)).
  assert (H2 := emits_copy_log (fun _ => True)).
  assert (H3 := emits_reset_bootloader_message (fun _ => True)).
  assert (H4 := emits_remove_command_file).
  rewrite (events_bind (fun _ => True)); [|by auto|by intros; emits_auto].
  rewrite (events_bind (fun _ => True) copy_log); [|by auto|by intros; emits_auto].
  rewrite (events_bind (fun _ => True) reset_bootloader_message);
    [|by auto|by intros; emits_auto].
  rewrite (events_bind (fun _ => True) remove_command_file);
    [|by auto|by intros; emits_auto].
  by rewrite events_emit.
Qed.

Lemma not_a_warning_unlink t :
  Forall not_a_warning t -> unlink_warning ∉ t.
Proof.
  intros H Hin. rewrite Forall_forall in H. by apply (H _ Hin).
Qed.

(** An absent command file is no reason for a warning. *)
Lemma finish_recovery_enoent intent w :
  files w !! command_path = None ->
  volume w "CACHE:" <> VolUnmountable ->
  unlink_warning ∉ events (finish_recovery intent) w.
Proof.
  intros Hf Hv. rewrite events_finish_recovery.
  set (w1 := snd (write_intent intent w)).
  set (w2 := snd (copy_log w1)).
  set (w3 := snd (reset_bootloader_message w2)).
  assert (Hq : forall e, not_a_warning e -> e <> unlink_warning)
    by (intros e He ->; exact He).
  rewrite !not_elem_of_app. split_and!.
  - apply not_a_warning_unlink, emits_write_intent; done.
  - apply not_a_warning_unlink, emits_copy_log; done.
  - apply not_a_warning_unlink, emits_reset_bootloader_message; done.
  - assert (Hf3 : files w3 !! command_path = None).
    { subst w3 w2 w1.
      rewrite (frame_reset_bootloader_message (fun w => files w !! command_path))
        by done.
      rewrite (file_copy_log command_path command_log).
      by rewrite (file_write_intent command_path intent command_intent). }
    assert (Hv3 : volume w3 "CACHE:" = volume w "CACHE:").
    { subst w3 w2 w1.
      rewrite (frame_reset_bootloader_message volume),
        (frame_copy_log volume), (frame_write_intent volume); done. }
    erewrite events_unique; [|rewrite remove_command_file_run; cbn zeta;
      rewrite Hv3, Hf3; destruct (volume w "CACHE:"); try done; reflexivity].
    by apply not_elem_of_cons; split; [|apply not_elem_of_nil].
  - by apply not_elem_of_cons; split; [|apply not_elem_of_nil].
Qed.

(** C4: completion is idempotent.  A second call in a row leaves the stored
    control block and the command file as the first call left them; the
    control block is then zeroed whenever the MISC partition can be
    written, and the command file is absent whenever the cache volume
    mounts and lets files be removed; the second call, which finds the
    command file gone, logs no unlink warning, as no call does that finds
    the file absent on a volume that mounts. *)
Theorem finish_recovery_idempotent (intent : option cstr) (w : world) :
  let w1 := snd (finish_recovery intent w) in
  let w2 := snd (finish_recovery intent w1) in
  bcb w2 = bcb w1
  /\ files w2 !! command_path = files w1 !! command_path
  /\ (misc_ok w = true -> bcb w1 = zeroed)
  /\ (cache_usable w = true ->
      files w1 !! command_path = None
      /\ unlink_warning ∉ events (finish_recovery intent) w1)
  /\ (forall w', files w' !! command_path = None ->
                 volume w' "CACHE:" <> VolUnmountable ->
                 unlink_warning ∉ events (finish_recovery intent) w').
Proof.
  intros w1 w2.
  assert (Hm : misc_ok w1 = misc_ok w)
    by (apply (frame_finish_recovery misc_ok); done).
  assert (Hv : volume w1 = volume w)
    by (apply (frame_finish_recovery volume); done).
  assert (Hu : cache_usable w1 = cache_usable w)
    by (unfold cache_usable; by rewrite Hv).
  split_and!.
  - subst w2. rewrite finish_recovery_bcb, Hm. subst w1.
    rewrite finish_recovery_bcb. by destruct (misc_ok w).
  - subst w2. rewrite finish_recovery_command_file, Hu. subst w1.
    rewrite finish_recovery_command_file. by destruct (cache_usable w).
  - intros H. subst w1. by rewrite finish_recovery_bcb, H.
  - intros H.
    assert (Hf : files w1 !! command_path = None)
      by (subst w1; by rewrite finish_recovery_command_file, H).
    split; [done|]. apply finish_recovery_enoent; [done|].
    rewrite Hv. unfold cache_usable in H. by destruct (volume w "CACHE:").
  - intros w'. apply finish_recovery_enoent.
Qed.

(** ** Facts about the string routines *)

(** [s] holds no NUL: it is the value of a C string. *)
Definition is_cstr (s : list ascii) : bool :=
  forallb (fun c => negb (is_nul c)) s.

Lemma span_le P l : span P l <= length l.
Proof. induction l as [|c l IH]; simpl; [lia|]. destruct (P c); simpl; lia. Qed.

Lemma span_all P l : forallb P l = true -> span P l = length l.
Proof.
  induction l as [|c l IH]; simpl; [done|].
  intros [-> H]%andb_true_iff. by rewrite IH.
Qed.

Lemma span_app P l1 l2 :
  forallb P l1 = true -> span P (l1 ++ l2) = length l1 + span P l2.
Proof.
  induction l1 as [|c l1 IH]; simpl; [done|].
  intros [-> H]%andb_true_iff. by rewrite IH.
Qed.

Lemma span_stop P l1 c l2 :
  forallb P l1 = true -> P c = false -> span P (l1 ++ c :: l2) = length l1.
Proof. intros H Hc. rewrite span_app by done. simpl. rewrite Hc. lia. Qed.

Lemma span_take P l : forallb P (take (span P l) l) = true.
Proof.
  induction l as [|c l IH]; simpl; [done|].
  destruct (P c) eqn:E; simpl; [|done]. by rewrite E, IH.
Qed.

Lemma span_lookup P l c : l !! span P l = Some c -> P c = false.
Proof.
  induction l as [|d l IH]; simpl; [done|].
  destruct (P d) eqn:E; simpl; [done|]. by intros [= <-].
Qed.

Lemma forallb_app' P (l1 l2 : list ascii) :
  forallb P (l1 ++ l2) = forallb P l1 && forallb P l2.
Proof. apply forallb_app. Qed.

Lemma is_cstr_app l1 l2 : is_cstr (l1 ++ l2) = is_cstr l1 && is_cstr l2.
Proof. apply forallb_app. Qed.

Lemma forallb_take P (l : list ascii) n :
  forallb P l = true -> forallb P (take n l) = true.
Proof.
  revert n. induction l as [|c l IH]; intros [|n]; simpl; try done.
  intros [-> H]%andb_true_iff. by apply IH.
Qed.

Lemma forallb_drop P (l : list ascii) n :
  forallb P l = true -> forallb P (drop n l) = true.
Proof.
  revert n. induction l as [|c l IH]; intros [|n]; simpl; try done.
  intros [_ H]%andb_true_iff. by apply IH.
Qed.

Lemma is_nul_NUL : is_nul NUL = true.
Proof. done. Qed.

(** A buffer that holds [s] and its terminator reads as [s]. *)
Lemma cstr_at_terminated s rest :
  is_cstr s = true -> cstr_at (s ++ NUL :: rest) 0 = s.
Proof.
  intros Hs. unfold cstr_at, strlen_at. rewrite drop_0.
  rewrite span_stop by done. by rewrite take_app_length.
Qed.

(** *** fgets *)

Lemma line_len_le l : line_len l <= length l.
Proof. induction l as [|c l IH]; simpl; [lia|]. destruct (Ascii.eqb c LF); simpl; lia. Qed.

Lemma line_len_pos l : l <> [] -> 1 <= line_len l.
Proof. destruct l as [|c l]; [done|]. simpl. destruct (Ascii.eqb c LF); lia. Qed.

Lemma fgets_some n rest :
  rest <> [] -> 2 <= n ->
  exists k, 1 <= k <= length rest
            /\ fgets n rest = Some (take k rest, drop k rest).
Proof.
  intros Hr Hn. exists (Nat.min (n - 1) (line_len rest)). split.
  - pose proof (line_len_pos rest Hr). pose proof (line_len_le rest). lia.
  - unfold fgets. by destruct rest.
Qed.

(** ** The log copy *)

(** The bytes of the file [p]; an absent file has none. *)
Definition content (p : string) (w : world) : list ascii :=
  default [] (files w !! p).

(** The runtime log grows by [bs]: what the process prints between two
    calls of [finish_recovery] ends up there. *)
Definition tmplog_grows (bs : list ascii) (w : world) : world :=
  set_files (<[TEMPORARY_LOG_FILE := content TEMPORARY_LOG_FILE w ++ bs]> (files w)) w.

(** Files can be created and removed on the cache volume. *)
Definition cache_opens (w : world) : bool :=
  match volume w "CACHE:" with
  | VolOk | VolFull => true
  | VolUnmountable | VolReadOnly => false
  end.

Lemma fputs_nil fp w : fputs [] fp w = (fp, w).
Proof. reflexivity. Qed.

Lemma fputs_ok s fp w :
  s <> [] -> volume_of w (f_path fp) = VolOk ->
  fputs s fp w
  = (fp, set_files (<[f_path fp := content (f_path fp) w ++ s]> (files w)) w).
Proof.
  intros Hs Hv. unfold fputs, bind, gets, modify, ret. simpl.
  destruct s; [done|]. by rewrite Hv.
Qed.

Lemma drop_after_take (data : list ascii) pos k rest :
  drop pos data = rest -> k <= length rest ->
  drop (pos + length (take k rest)) data = drop k rest.
Proof.
  intros <- Hk. rewrite length_take.
  replace (pos + k `min` length (drop pos data)) with (pos + k) by lia.
  by rewrite drop_drop.
Qed.

(** The read position after the loop is the end of the file, whatever
    became of the writes. *)
Lemma copy_lines_pos fuel tmplog lg w :
  length (drop (f_pos tmplog) (f_data tmplog)) <= fuel ->
  ftell (fst (fst (copy_lines fuel tmplog lg w)))
  = f_pos tmplog + length (drop (f_pos tmplog) (f_data tmplog)).
Proof.
  revert tmplog lg w. induction fuel as [|fuel IH]; intros tmplog lg w Hlen.
  - simpl. unfold ftell. lia.
  - simpl. destruct (drop (f_pos tmplog) (f_data tmplog)) as [|c rest] eqn:E.
    { simpl. unfold ftell. lia. }
    destruct (fgets_some LOG_BUF_SIZE (c :: rest)) as (k & Hk & ->);
      [done|unfold LOG_BUF_SIZE; lia|].
    unfold bind. destruct (fputs _ lg w) as [lg' w'].
    pose proof (drop_after_take _ _ k _ E ltac:(lia)) as Hd.
    rewrite IH; simpl; rewrite Hd, length_drop, ?length_take; simpl in *; lia.
Qed.

(** On a volume that takes the writes, a log without NUL bytes is copied
    from the read position to its end. *)
Lemma copy_lines_content fuel tmplog lg w :
  volume_of w (f_path lg) = VolOk ->
  is_cstr (drop (f_pos tmplog) (f_data tmplog)) = true ->
  length (drop (f_pos tmplog) (f_data tmplog)) <= fuel ->
  content (f_path lg) (snd (copy_lines fuel tmplog lg w))
  = content (f_path lg) w ++ drop (f_pos tmplog) (f_data tmplog).
Proof.
  revert tmplog lg w. induction fuel as [|fuel IH]; intros tmplog lg w Hv Hc Hlen.
  - simpl. destruct (drop _ _); [by rewrite app_nil_r|simpl in Hlen; lia].
  - simpl. destruct (drop (f_pos tmplog) (f_data tmplog)) as [|c rest] eqn:E.
    { simpl. by rewrite app_nil_r. }
    destruct (fgets_some LOG_BUF_SIZE (c :: rest)) as (k & Hk & ->);
      [done|unfold LOG_BUF_SIZE; lia|].
    assert (Hline : is_cstr (take k (c :: rest)) = true)
      by (by apply forallb_take).
    rewrite cstr_at_terminated by done.
    unfold bind. rewrite fputs_ok; [|destruct k; [lia|done]|done].
    pose proof (drop_after_take _ _ k _ E ltac:(lia)) as Hd.
    rewrite IH; simpl; rewrite ?Hd.
    + unfold content. simpl. rewrite lookup_insert_eq. simpl.
      by rewrite <- app_assoc, take_drop.
    + done.
    + by apply forallb_drop.
    + rewrite length_drop. simpl in *. lia.
Qed.

Arguments copy_lines : simpl never.

Lemma volume_of_log w : volume_of w log_path = volume w "CACHE:".
Proof. reflexivity. Qed.

Lemma fopen_root_path_log_run w :
  fopen_root_path LOG_FILE "a" w =
  let t := trace w ++ [Call "ensure_root_path_mounted" [lit LOG_FILE]] in
  match volume w "CACHE:" with
  | VolUnmountable =>
      (None, set_trace (t ++ [Log LOGE "Can't mount %s\n" [lit LOG_FILE]]) w)
  | VolReadOnly =>
      (None, set_trace (t ++ [Call "dirCreateHierarchy" [lit log_path]]) w)
  | _ =>
      (Some (mkFILE log_path [] 0 false),
       set_files (match files w !! log_path with
                  | Some _ => files w
                  | None => <[log_path:=[]]> (files w)
                  end)
                 (set_trace (t ++ [Call "dirCreateHierarchy" [lit log_path]]) w))
  end.
Proof.
  unfold fopen_root_path, ensure_root_path_mounted.
  change (translate_root_path LOG_FILE) with (Some log_path).
  change (root_entry LOG_FILE) with (Some ("CACHE:", "/cache/")%string).
  unfold bind, emit, modify, gets, ret, log, when, emit, modify, fopen. simpl.
  destruct (volume w "CACHE:") eqn:V; simpl; try reflexivity.
  all: unfold volume_of, bind, gets, modify, ret; simpl; rewrite V; reflexivity.
Qed.

Lemma check_and_fclose_run fp name w :
  snd (check_and_fclose fp name w)
  = if f_err fp
    then set_trace (trace w ++ [Log LOGE "Error in %s\n(%s)\n" [lit name]]) w
    else w.
Proof. unfold check_and_fclose, when. by destruct (f_err fp). Qed.

(** What the log copy does to the offset: nothing when one of the two
    files cannot be opened, and otherwise it moves it to the end of the
    runtime log. *)
Lemma copy_log_offset w :
  tmplog_offset (snd (copy_log w))
  = match cache_opens w, files w !! TEMPORARY_LOG_FILE with
    | true, Some T => tmplog_offset w + length (drop (tmplog_offset w) T)
    | _, _ => tmplog_offset w
    end.
Proof.
  unfold copy_log, bind at 1. rewrite fopen_root_path_log_run. cbn zeta.
  unfold cache_opens.
  destruct (volume w "CACHE:") eqn:V; try reflexivity.
  all: unfold bind at 1; unfold fopen at 1; unfold bind, gets, ret; simpl.
  all: match goal with
       | |- context [?fs !! TEMPORARY_LOG_FILE] =>
           replace (fs !! TEMPORARY_LOG_FILE) with (files w !! TEMPORARY_LOG_FILE)
             by (destruct (files w !! log_path); [done|by rewrite lookup_insert_ne])
       end.
  all: destruct (files w !! TEMPORARY_LOG_FILE) as [T|]; [|reflexivity].
  all: match goal with
       | |- context [copy_lines ?n ?t ?l ?w0] =>
           pose proof (copy_lines_pos n t l w0) as Hp;
           destruct (copy_lines n t l w0) as [[tmplog' lg'] w']
       end.
  all: simpl in Hp; rewrite <- Hp by (rewrite length_drop; lia).
  all: unfold modify, check_and_fclose, when, log, emit, modify, ret; simpl.
  all: by destruct (f_err tmplog'), (f_err lg').
Qed.

(** What it does to the durable log when the cache volume takes the
    writes and the unflushed part of the runtime log holds no NUL. *)
Lemma copy_log_content w T :
  volume w "CACHE:" = VolOk ->
  files w !! TEMPORARY_LOG_FILE = Some T ->
  is_cstr (drop (tmplog_offset w) T) = true ->
  content log_path (snd (copy_log w))
  = content log_path w ++ drop (tmplog_offset w) T.
Proof.
  intros V HT Hc.
  unfold copy_log, bind at 1. rewrite fopen_root_path_log_run. cbn zeta.
  rewrite V.
  unfold bind at 1; unfold fopen at 1; unfold bind, gets, ret; simpl.
  match goal with
  | |- context [?fs !! TEMPORARY_LOG_FILE] =>
      replace (fs !! TEMPORARY_LOG_FILE) with (files w !! TEMPORARY_LOG_FILE)
        by (destruct (files w !! log_path); [done|by rewrite lookup_insert_ne])
  end.
  rewrite HT.
  match goal with
  | |- context [copy_lines ?n ?t ?l ?w0] =>
      pose proof (copy_lines_content n t l w0) as Hp;
      destruct (copy_lines n t l w0) as [[tmplog' lg'] w']
  end.
  simpl in Hp. unfold modify, check_and_fclose, when, log, emit, modify, ret.
  simpl.
  assert (content log_path w' = content log_path w ++ drop (tmplog_offset w) T)
    as Hw'.
  { rewrite Hp; [|by rewrite volume_of_log|done|rewrite length_drop; lia].
    f_equal. unfold content. simpl.
    destruct (files w !! log_path) eqn:E; simpl; [by rewrite E|].
    by rewrite lookup_insert_eq. }
  by destruct (f_err tmplog'), (f_err lg').
Qed.

Lemma tmp_intent : TEMPORARY_LOG_FILE <> intent_path.
Proof. done. Qed.
Lemma tmp_log : TEMPORARY_LOG_FILE <> log_path.
Proof. done. Qed.
Lemma tmp_command : TEMPORARY_LOG_FILE <> command_path.
Proof. done. Qed.
Lemma log_intent : log_path <> intent_path.
Proof. done. Qed.
Lemma log_command : log_path <> command_path.
Proof. done. Qed.

Lemma finish_recovery_tmplog intent w :
  files (snd (finish_recovery intent w)) !! TEMPORARY_LOG_FILE
  = files w !! TEMPORARY_LOG_FILE.
Proof.
  rewrite finish_recovery_steps.
  rewrite (keeps_emit (fun w => files w !! TEMPORARY_LOG_FILE)) by done.
  rewrite (file_remove_command_file _ tmp_command).
  rewrite (frame_reset_bootloader_message (fun w => files w !! TEMPORARY_LOG_FILE))
    by done.
  rewrite (file_copy_log _ tmp_log). apply (file_write_intent _ _ tmp_intent).
Qed.

Lemma finish_recovery_offset intent w :
  tmplog_offset (snd (finish_recovery intent w))
  = match cache_opens w, files w !! TEMPORARY_LOG_FILE with
    | true, Some T => tmplog_offset w + length (drop (tmplog_offset w) T)
    | _, _ => tmplog_offset w
    end.
Proof.
  rewrite finish_recovery_steps.
  rewrite (keeps_emit tmplog_offset) by done.
  rewrite (frame_remove_command_file tmplog_offset) by done.
  rewrite (frame_reset_bootloader_message tmplog_offset) by done.
  rewrite copy_log_offset. unfold cache_opens.
  rewrite (frame_write_intent volume) by done.
  rewrite (file_write_intent _ _ tmp_intent).
  by rewrite !(frame_write_intent tmplog_offset).
Qed.

Lemma finish_recovery_content intent w T :
  volume w "CACHE:" = VolOk ->
  files w !! TEMPORARY_LOG_FILE = Some T ->
  is_cstr (drop (tmplog_offset w) T) = true ->
  content log_path (snd (finish_recovery intent w))
  = content log_path w ++ drop (tmplog_offset w) T.
Proof.
  intros V HT Hc. rewrite finish_recovery_steps. unfold content at 1.
  rewrite (keeps_emit (fun w => files w !! log_path)) by done.
  rewrite (file_remove_command_file _ log_command).
  rewrite (frame_reset_bootloader_message (fun w => files w !! log_path))
    by done.
  change (content log_path (snd (copy_log (snd (write_intent intent w))))
          = content log_path w ++ drop (tmplog_offset w) T).
  rewrite (copy_log_content _ T).
  - rewrite (frame_write_intent tmplog_offset) by done.
    unfold content. by rewrite (file_write_intent _ _ log_intent).
  - by rewrite (frame_write_intent volume).
  - by rewrite (file_write_intent _ _ tmp_intent).
  - by rewrite (frame_write_intent tmplog_offset).
Qed.

Lemma tmplog_grows_file bs w :
  files (tmplog_grows bs w) !! TEMPORARY_LOG_FILE
  = Some (content TEMPORARY_LOG_FILE w ++ bs).
Proof. unfold tmplog_grows. simpl. by rewrite lookup_insert_eq. Qed.

Lemma tmplog_grows_log bs w :
  content log_path (tmplog_grows bs w) = content log_path w.
Proof.
  unfold tmplog_grows, content. simpl. by rewrite lookup_insert_ne.
Qed.

(** On a full volume [fputs] stores nothing. *)
Lemma fputs_full s fp w :
  volume_of w (f_path fp) = VolFull ->
  (fputs s fp w).2 = w /\ f_path (fputs s fp w).1 = f_path fp.
Proof.
  intros Hv. unfold fputs, bind, gets, ret. cbn [fst snd id].
  destruct s; [done|]. by rewrite Hv.
Qed.

Lemma copy_lines_full fuel tmplog lg w :
  volume_of w (f_path lg) = VolFull ->
  (copy_lines fuel tmplog lg w).2 = w.
Proof.
  revert tmplog lg. induction fuel as [|fuel IH]; intros tmplog lg Hv; [done|].
  unfold copy_lines. fold copy_lines.
  destruct (fgets _ _) as [[line rest]|]; [|done].
  unfold bind.
  destruct (fputs_full (cstr_at (line ++ [NUL]) 0) lg w Hv) as [Hw Hp].
  destruct (fputs _ lg w) as [lg' w']. cbn [fst snd] in *. subst w'.
  apply IH. by rewrite Hp.
Qed.

(** On a full cache volume the log copy adds nothing to the durable log. *)
Lemma copy_log_full w :
  volume w "CACHE:" = VolFull ->
  content log_path (copy_log w).2 = content log_path w.
Proof.
  intros V. unfold copy_log, bind at 1. rewrite fopen_root_path_log_run.
  cbn zeta. rewrite V.
  set (w0 := set_files _ _).
  assert (Hc0 : content log_path w0 = content log_path w).
  { unfold w0, content. cbn [files set_files set_trace].
    destruct (files w !! log_path) eqn:E; [by rewrite E|].
    by rewrite lookup_insert_eq. }
  assert (Hv0 : volume_of w0 log_path = VolFull) by (by rewrite volume_of_log).
  unfold bind at 1; unfold fopen at 1; unfold bind, gets, ret. cbn [fst snd id].
  change (Ascii.eqb (mode0 "r") "r") with true. cbn iota.
  destruct (files w0 !! TEMPORARY_LOG_FILE) as [T|]; cbn [fst snd].
  - match goal with
    | |- context [copy_lines ?n ?t ?l w0] =>
        pose proof (copy_lines_full n t l w0 Hv0) as Hp;
        destruct (copy_lines n t l w0) as [[tmplog' lg'] w']
    end.
    cbn [fst snd] in *. subst w'.
    unfold modify, check_and_fclose, when, log, emit, modify, ret.
    cbn [fst snd].
    by destruct (f_err tmplog'), (f_err lg').
  - unfold log, emit, modify, check_and_fclose, when, ret. cbn [fst snd].
    done.
Qed.

Lemma finish_recovery_full w :
  volume w "CACHE:" = VolFull ->
  content log_path (finish_recovery None w).2 = content log_path w.
Proof.
  intros V. rewrite finish_recovery_steps. unfold content at 1.
  rewrite (keeps_emit (fun w => files w !! log_path)) by done.
  rewrite (file_remove_command_file _ log_command).
  rewrite (frame_reset_bootloader_message (fun w => files w !! log_path))
    by done.
  change (content log_path (copy_log (write_intent None w).2).2
          = content log_path w).
  by apply copy_log_full.
Qed.

(** X9: two completions in a row, the runtime log growing by [n] before
    the first and by [m] before the second.  When the cache volume takes
    the writes, the offset lies within the runtime log and the log text
    holds no NUL, the durable log receives the bytes not yet flushed, then
    [n], then [m], each once, and the offset ends at the end of the runtime
    log.  The offset stays put whenever the durable log or the runtime log
    cannot be opened.  On a full cache volume, a completion without intent
    moves the offset to the end of the runtime log although the durable log
    gained nothing: those bytes are not copied later. *)
Theorem log_copied_once (w : world) (n m : list ascii) (i1 i2 : option cstr) :
  let unflushed := drop (tmplog_offset w) (content TEMPORARY_LOG_FILE w) in
  let w1 := snd (finish_recovery i1 (tmplog_grows n w)) in
  let w2 := snd (finish_recovery i2 (tmplog_grows m w1)) in
  (volume w "CACHE:" = VolOk ->
   tmplog_offset w <= length (content TEMPORARY_LOG_FILE w) ->
   is_cstr (unflushed ++ n ++ m) = true ->
   content log_path w1 = content log_path w ++ unflushed ++ n
   /\ content log_path w2 = content log_path w ++ unflushed ++ n ++ m
   /\ tmplog_offset w2 = length (content TEMPORARY_LOG_FILE w ++ n ++ m))
  /\ (forall i w',
        cache_opens w' = false \/ files w' !! TEMPORARY_LOG_FILE = None ->
        tmplog_offset (snd (finish_recovery i w')) = tmplog_offset w')
  /\ (forall w' T,
        volume w' "CACHE:" = VolFull ->
        files w' !! TEMPORARY_LOG_FILE = Some T ->
        tmplog_offset w' <= length T ->
        tmplog_offset (snd (finish_recovery None w')) = length T
        /\ content log_path (snd (finish_recovery None w'))
           = content log_path w').
Proof.
  intros unflushed w1 w2. split_and!.
  2:{ intros i w' H. rewrite finish_recovery_offset.
      destruct H as [-> | ->]; [done|]. by destruct (cache_opens w'). }
  2:{ intros w' T V HT Ho. split; [|by apply finish_recovery_full].
      rewrite finish_recovery_offset, HT. unfold cache_opens. rewrite V.
      rewrite length_drop. lia. }
  intros V Hoff Hc.
  set (T := content TEMPORARY_LOG_FILE w) in *.
  rewrite !is_cstr_app in Hc.
  apply andb_true_iff in Hc as [Hu [Hn Hm]%andb_true_iff].
  assert (Hd : drop (tmplog_offset w) (T ++ n) = unflushed ++ n)
    by (by rewrite drop_app_le).
  assert (H1 : content log_path w1 = content log_path w ++ unflushed ++ n).
  { subst w1. rewrite (finish_recovery_content _ _ (T ++ n)).
    - by rewrite tmplog_grows_log, <- Hd.
    - done.
    - apply tmplog_grows_file.
    - change (tmplog_offset (tmplog_grows n w)) with (tmplog_offset w).
      by rewrite Hd, is_cstr_app, Hu, Hn. }
  assert (Ho1 : tmplog_offset w1 = length (T ++ n)).
  { subst w1. rewrite finish_recovery_offset, tmplog_grows_file.
    unfold cache_opens. change (volume (tmplog_grows n w)) with (volume w).
    rewrite V. change (tmplog_offset (tmplog_grows n w)) with (tmplog_offset w).
    rewrite length_drop, !length_app. fold T. lia. }
  assert (HT1 : content TEMPORARY_LOG_FILE w1 = T ++ n).
  { subst w1. unfold content at 1.
    by rewrite finish_recovery_tmplog, tmplog_grows_file. }
  assert (V1 : volume w1 = volume w)
    by (subst w1; by rewrite (frame_finish_recovery volume)).
  assert (Hd2 : drop (tmplog_offset w1) ((T ++ n) ++ m) = m)
    by (by rewrite Ho1, drop_app_length).
  split_and!; [done| |].
  - subst w2. rewrite (finish_recovery_content _ _ ((T ++ n) ++ m)).
    + change (tmplog_offset (tmplog_grows m w1)) with (tmplog_offset w1).
      rewrite tmplog_grows_log, H1, Hd2. by rewrite <- !app_assoc.
    + change (volume (tmplog_grows m w1)) with (volume w1). by rewrite V1.
    + by rewrite tmplog_grows_file, HT1.
    + change (tmplog_offset (tmplog_grows m w1)) with (tmplog_offset w1).
      by rewrite Hd2.
  - subst w2. rewrite finish_recovery_offset, tmplog_grows_file, HT1.
    unfold cache_opens. change (volume (tmplog_grows m w1)) with (volume w1).
    rewrite V1, V.
    change (tmplog_offset (tmplog_grows m w1)) with (tmplog_offset w1).
    rewrite Hd2, Ho1, !length_app. lia.
Qed.

(** ** Strings in memory *)

(** The memory [m] holds the C string [s] at [p]: its bytes, then NUL. *)
Definition holds (m : mem) (p : nat) (s : cstr) : Prop :=
  is_cstr s = true /\ exists tail, drop p m = s ++ NUL :: tail.

Lemma holds_cstr_at m p s : holds m p s -> cstr_at m p = s.
Proof.
  intros (Hs & tail & Hd). unfold cstr_at, strlen_at. rewrite Hd.
  rewrite span_stop by done. by rewrite take_app_length.
Qed.

Lemma holds_bound m p s : holds m p s -> p + length s < length m.
Proof.
  intros (_ & tail & Hd).
  assert (H : length (drop p m) = length (s ++ NUL :: tail)) by by rewrite Hd.
  rewrite length_drop, length_app in H. simpl in H. lia.
Qed.

Lemma cstr_at_is_cstr m p : is_cstr (cstr_at m p) = true.
Proof. apply span_take. Qed.

(** Bytes that agree on the string and its terminator hold the same
    string. *)
Lemma holds_agree m m' p s :
  holds m p s ->
  (forall j, p <= j <= p + length s -> m' !! j = m !! j) ->
  holds m' p s.
Proof.
  intros (Hs & tail & Hd) Hj. split; [done|].
  exists (drop (p + length s + 1) m').
  rewrite <- (take_drop (length s + 1) (drop p m')) at 1.
  rewrite drop_drop.
  replace (s ++ NUL :: drop (p + length s + 1) m')
    with ((s ++ [NUL]) ++ drop (p + length s + 1) m')
    by (by rewrite <- app_assoc).
  replace (p + (length s + 1)) with (p + length s + 1) by lia.
  f_equal.
  apply list_eq. intros i.
  destruct (decide (i < length s + 1)) as [Hi|Hi].
  - rewrite lookup_take_lt, lookup_drop by done. rewrite Hj by lia.
    rewrite <- lookup_drop, Hd.
    replace (s ++ NUL :: tail) with ((s ++ [NUL]) ++ tail)
      by (by rewrite <- app_assoc).
    rewrite lookup_app_l; [done|]. rewrite length_app. simpl. lia.
  - rewrite lookup_take_ge by lia. symmetry. apply lookup_ge_None.
    rewrite length_app. simpl. lia.
Qed.

(** *** Stores *)

Lemma length_store_bytes m p bs : length (store_bytes m p bs) = length m.
Proof.
  revert m p. induction bs as [|b bs IH]; intros m p; simpl; [done|].
  by rewrite IH, length_insert.
Qed.

Lemma store_bytes_outside m p bs j :
  j < p \/ p + length bs <= j -> store_bytes m p bs !! j = m !! j.
Proof.
  revert m p. induction bs as [|b bs IH]; intros m p Hj; simpl; [done|].
  rewrite IH by (simpl in Hj; lia).
  apply list_lookup_insert_ne. simpl in Hj. lia.
Qed.

Lemma store_bytes_inside m p bs :
  p + length bs <= length m ->
  drop p (store_bytes m p bs) = bs ++ drop (p + length bs) m.
Proof.
  revert m p. induction bs as [|b bs IH]; intros m p Hlen; simpl.
  - by rewrite Nat.add_0_r.
  - simpl in Hlen.
    assert (Hp : p < length (store_bytes (<[p:=b]> m) (S p) bs))
      by (rewrite length_store_bytes, length_insert; lia).
    apply lookup_lt_is_Some_2 in Hp as [x Hx].
    rewrite (drop_S _ x) by done.
    rewrite store_bytes_outside in Hx by lia.
    rewrite list_lookup_insert_eq in Hx by lia. injection Hx as <-.
    rewrite IH by (rewrite length_insert; lia).
    rewrite drop_insert_lt by lia.
    by replace (S p + length bs) with (p + S (length bs)) by lia.
Qed.

Lemma length_strlcpy m dst src siz : length (strlcpy m dst src siz) = length m.
Proof. destruct siz; simpl; [done|apply length_store_bytes]. Qed.

Lemma length_strlcat m dst src siz : length (strlcat m dst src siz) = length m.
Proof.
  unfold strlcat. destruct (siz - _); [done|apply length_store_bytes].
Qed.

(** [strlcpy] writes inside [dst, dst + siz) only. *)
Lemma strlcpy_outside m dst src siz j :
  j < dst \/ dst + siz <= j -> strlcpy m dst src siz !! j = m !! j.
Proof.
  intros Hj. destruct siz as [|n]; simpl; [done|].
  apply store_bytes_outside. rewrite length_app, length_take. simpl. lia.
Qed.

Lemma strnlen_at_le m p n : strnlen_at m p n <= n.
Proof.
  unfold strnlen_at.
  etrans; [apply span_le|]. rewrite length_take. lia.
Qed.

(** [strlcat] writes inside [dst, dst + siz) only. *)
Lemma strlcat_outside m dst src siz j :
  j < dst \/ dst + siz <= j -> strlcat m dst src siz !! j = m !! j.
Proof.
  intros Hj. unfold strlcat.
  destruct (siz - strnlen_at m dst siz) as [|n] eqn:E; [done|].
  apply store_bytes_outside. rewrite length_app, length_take. simpl. lia.
Qed.

Lemma strlcpy_holds m dst src siz :
  0 < siz -> dst + siz <= length m -> is_cstr src = true ->
  holds (strlcpy m dst src siz) dst (take (siz - 1) src).
Proof.
  intros Hsiz Hlen Hs. destruct siz as [|n]; [lia|]. simpl.
  rewrite Nat.sub_0_r. split; [by apply forallb_take|].
  eexists. rewrite store_bytes_inside.
  - by rewrite <- app_assoc.
  - rewrite length_app, length_take. simpl. lia.
Qed.

Lemma strlcat_holds m dst d src siz :
  holds m dst d -> length d < siz -> dst + siz <= length m ->
  is_cstr src = true ->
  holds (strlcat m dst src siz) dst (take (siz - 1) (d ++ src)).
Proof.
  intros (Hd & tail & Hm) Hlen Hsiz Hs. unfold strlcat.
  assert (Hn : strnlen_at m dst siz = length d).
  { unfold strnlen_at. rewrite Hm.
    rewrite take_app_ge by lia.
    destruct (siz - length d) as [|k] eqn:E; [lia|]. simpl.
    by rewrite span_stop. }
  rewrite Hn. destruct (siz - length d) as [|n] eqn:E; [lia|].
  assert (Ht : take (siz - 1) (d ++ src) = d ++ take n src).
  { rewrite take_app_ge by lia. f_equal. f_equal. lia. }
  rewrite Ht. split.
  - rewrite is_cstr_app, Hd. simpl. by apply forallb_take.
  - exists (drop (dst + length d + length (take n src ++ [NUL])) m).
    rewrite <- (take_drop (length d) (drop dst _)).
    rewrite <- app_assoc. f_equal.
    + apply list_eq. intros i.
      destruct (decide (i < length d)) as [Hi|Hi].
      * rewrite lookup_take_lt, lookup_drop by done.
        rewrite store_bytes_outside by lia.
        rewrite <- lookup_drop, Hm. by rewrite lookup_app_l.
      * rewrite lookup_take_ge by lia. symmetry. by apply lookup_ge_None; lia.
    + rewrite drop_drop. rewrite store_bytes_inside.
      * by rewrite <- app_assoc.
      * rewrite length_app, length_take. simpl. lia.
Qed.

(** *** The text built in the recovery field *)

(** The canonical text: the token, a newline, then each argument and a
    newline. *)
Definition canonical (args : list cstr) : list ascii :=
  lit "recovery" ++ [LF] ++ concat (map (fun a => a ++ [LF]) args).

(** The control block that [get_args] writes back, from the block [boot]
    it holds and the resolved vector. *)
Definition arm (boot : mem) (argv : list cstr) : mem :=
  write_recovery (strlcpy boot command_off (lit "boot-recovery") COMMAND_SIZE)
                 argv.

Lemma take_take_app (l1 l2 : list ascii) n :
  take n (take n l1 ++ l2) = take n (l1 ++ l2).
Proof.
  destruct (decide (length l1 <= n)) as [H|H].
  - by rewrite (take_ge l1) by done.
  - rewrite !take_app_le; [by rewrite take_take, Nat.min_id| lia |].
    rewrite length_take. lia.
Qed.

Section Append.

Variables off siz : nat.

Let step (b : mem) (a : cstr) : mem :=
  strlcat (strlcat b off a siz) off [LF] siz.

Lemma append_length args b : length (fold_left step args b) = length b.
Proof.
  revert b. induction args as [|a args IH]; intros b; simpl; [done|].
  rewrite IH. unfold step. by rewrite !length_strlcat.
Qed.

Lemma append_outside args b j :
  j < off \/ off + siz <= j -> fold_left step args b !! j = b !! j.
Proof.
  intros Hj. revert b. induction args as [|a args IH]; intros b; simpl; [done|].
  rewrite IH. unfold step. by rewrite !strlcat_outside.
Qed.

Lemma append_holds args b pre :
  0 < siz -> off + siz <= length b ->
  holds b off (take (siz - 1) pre) ->
  forallb is_cstr args = true ->
  holds (fold_left step args b) off
        (take (siz - 1) (pre ++ concat (map (fun a => a ++ [LF]) args))).
Proof.
  intros Hsiz. revert b pre.
  induction args as [|a args IH]; intros b pre Hlen Hb Ha; simpl.
  - by rewrite app_nil_r.
  - apply andb_true_iff in Ha as [Ha Hargs].
    replace (pre ++ (a ++ [LF]) ++ concat (map (fun a => a ++ [LF]) args))
      with ((pre ++ a ++ [LF]) ++ concat (map (fun a => a ++ [LF]) args))
      by (by rewrite <- !app_assoc).
    apply IH; [|clear IH|done].
    + unfold step. by rewrite !length_strlcat.
    + unfold step.
      assert (H1 : holds (strlcat b off a siz) off (take (siz - 1) (pre ++ a))).
      { rewrite <- take_take_app. apply strlcat_holds; try done.
        rewrite length_take. lia. }
      replace (pre ++ a ++ [LF]) with ((pre ++ a) ++ [LF])
        by (by rewrite <- app_assoc).
      rewrite <- take_take_app. apply strlcat_holds; try done.
      * rewrite length_take. lia.
      * by rewrite length_strlcat.
Qed.

End Append.

Lemma is_cstr_recovery : is_cstr (lit "recovery" ++ [LF]) = true.
Proof. reflexivity. Qed.

Lemma length_arm boot argv : length (arm boot argv) = length boot.
Proof.
  unfold arm, write_recovery.
  by rewrite append_length, !length_strlcpy.
Qed.

(** The recovery field of the written block reads as the canonical text,
    cut to the capacity of the field. *)
Lemma arm_recovery boot argv :
  length boot = sizeof_boot ->
  forallb is_cstr (drop 1 argv) = true ->
  holds (arm boot argv) recovery_off
        (take (RECOVERY_SIZE - 1) (canonical (drop 1 argv))).
Proof.
  intros Hlen Hargs. unfold arm, write_recovery, canonical.
  rewrite (app_assoc (lit "recovery") [LF]).
  apply append_holds; try done.
  - unfold RECOVERY_SIZE. lia.
  - rewrite !length_strlcpy, Hlen. reflexivity.
  - apply strlcpy_holds.
    + unfold RECOVERY_SIZE. lia.
    + rewrite length_strlcpy, Hlen. reflexivity.
    + done.
Qed.

(** The command field of the written block reads [boot-recovery]. *)
Lemma arm_command boot argv :
  length boot = sizeof_boot ->
  holds (arm boot argv) command_off (lit "boot-recovery").
Proof.
  intros Hlen. unfold arm, write_recovery.
  eapply holds_agree.
  - apply (strlcpy_holds boot command_off (lit "boot-recovery") COMMAND_SIZE).
    + unfold COMMAND_SIZE. lia.
    + rewrite Hlen. unfold command_off, COMMAND_SIZE, sizeof_boot. lia.
    + done.
  - intros j Hj. change (take (COMMAND_SIZE - 1) (lit "boot-recovery"))
      with (lit "boot-recovery") in Hj.
    change (length (lit "boot-recovery")) with 13 in Hj.
    rewrite append_outside, strlcpy_outside; [done| |].
    all: unfold recovery_off, command_off in *; lia.
Qed.

(** Outside the command field and the recovery field, no byte of the
    memory changes, wherever the memory ends. *)
Lemma arm_outside boot argv j :
  command_off + COMMAND_SIZE <= j < recovery_off
  \/ recovery_off + RECOVERY_SIZE <= j ->
  arm boot argv !! j = boot !! j.
Proof.
  intros Hj. unfold arm, write_recovery.
  rewrite append_outside, !strlcpy_outside; [done| | |].
  all: unfold command_off, COMMAND_SIZE, recovery_off, RECOVERY_SIZE in *; lia.
Qed.

(** ** Tokens *)

(** What [strtok] finds in the string [s]: the next token and, when a
    delimiter ended it, the rest of the string after that delimiter. *)
Definition next_token (delim : cstr) (s : cstr)
  : option (cstr * option cstr) :=
  let s1 := drop (span (inside delim) s) s in
  match s1 with
  | [] => None
  | _ =>
      let k := span (outside delim) s1 in
      Some (take k s1, match drop k s1 with [] => None | _ :: r => Some r end)
  end.

(** The first [n] tokens of [s]. *)
Fixpoint tokens (n : nat) (delim : cstr) (s : option cstr) : list cstr :=
  match n, s with
  | S n', Some s =>
      match next_token delim s with
      | None => []
      | Some (t, rest) => t :: tokens n' delim rest
      end
  | _, _ => []
  end.

Lemma span_terminated P s tail :
  P NUL = false -> span P (s ++ NUL :: tail) = span P s.
Proof.
  intros HP. induction s as [|c s IH]; simpl; [by rewrite HP|].
  destruct (P c); [by rewrite IH|done].
Qed.

Lemma inside_NUL delim : inside delim NUL = false.
Proof. done. Qed.

Lemma outside_NUL delim : outside delim NUL = false.
Proof. done. Qed.

Lemma is_cstr_lookup s i c : is_cstr s = true -> s !! i = Some c -> is_nul c = false.
Proof.
  intros Hs Hi. unfold is_cstr in Hs. rewrite forallb_forall in Hs.
  apply negb_true_iff, Hs. apply list_elem_of_In. by eapply list_elem_of_lookup_2.
Qed.

Lemma length_strtok m s delim : length (strtok m s delim).2 = length m.
Proof.
  unfold strtok. destruct s as [p|]; [|done].
  destruct (m !! _) as [c|]; [|done]. destruct (is_nul c); [done|].
  destruct (m !! _) as [d|]; [|done]. destruct (is_nul d); [done|].
  simpl. apply length_insert.
Qed.

(** [strtok] on a memory that holds [s] at [p]. *)
Lemma strtok_holds m p delim s :
  holds m p s ->
  match next_token delim s with
  | None => strtok m (Some p) delim = (None, None, m)
  | Some (t, rest) =>
      exists tok m',
        holds m' tok t
        /\ match rest with
           | None => strtok m (Some p) delim = (Some tok, None, m')
           | Some r =>
               exists q, strtok m (Some p) delim = (Some tok, Some q, m')
                         /\ holds m' q r
           end
  end.
Proof.
  intros (Hs & tail & Hd). unfold next_token, strtok.
  unfold strspn_at. rewrite Hd, span_terminated by done.
  set (k1 := span (inside delim) s).
  assert (Hk1 : k1 <= length s) by apply span_le.
  assert (Hd1 : drop (p + k1) m = drop k1 s ++ NUL :: tail).
  { rewrite <- drop_drop, Hd. by rewrite drop_app_le. }
  assert (Hl1 : m !! (p + k1) = (drop k1 s ++ NUL :: tail) !! 0).
  { rewrite <- Hd1, lookup_drop. f_equal. lia. }
  rewrite Hl1.
  destruct (drop k1 s) as [|c s1] eqn:Es1; simpl; [done|].
  assert (Hs1 : is_cstr (c :: s1) = true).
  { rewrite <- Es1. by apply forallb_drop. }
  assert (Hc : is_nul c = false).
  { apply andb_true_iff in Hs1 as [Hc _]. by apply negb_true_iff. }
  rewrite Hc. unfold strcspn_at. rewrite Hd1.
  change (c :: s1 ++ NUL :: tail) with ((c :: s1) ++ NUL :: tail).
  rewrite span_terminated by done.
  set (k2 := span (outside delim) (c :: s1)).
  change (if outside delim c then S (span (outside delim) s1) else 0) with k2.
  assert (Hk2 : k2 <= length (c :: s1)) by apply span_le.
  assert (Hd2 : drop (p + k1 + k2) m = drop k2 (c :: s1) ++ NUL :: tail).
  { rewrite <- drop_drop, Hd1.
    change (c :: s1 ++ NUL :: tail) with ((c :: s1) ++ NUL :: tail).
    by rewrite drop_app_le. }
  assert (Hl2 : m !! (p + k1 + k2) = (drop k2 (c :: s1) ++ NUL :: tail) !! 0).
  { rewrite <- Hd2, lookup_drop. f_equal. lia. }
  rewrite Hl2.
  assert (Ht : is_cstr (take k2 (c :: s1)) = true) by by apply forallb_take.
  exists (p + k1).
  destruct (drop k2 (c :: s1)) as [|d r] eqn:Er.
  - exists m. split; [|done]. split; [done|]. exists tail.
    rewrite Hd1. change (c :: s1 ++ NUL :: tail) with ((c :: s1) ++ NUL :: tail).
    f_equal. rewrite take_ge; [done|].
    apply (f_equal length) in Er. rewrite length_drop in Er. simpl in *. lia.
  - assert (Hr : is_cstr (d :: r) = true).
    { rewrite <- Er. by apply forallb_drop. }
    assert (Hdn : is_nul d = false).
    { apply andb_true_iff in Hr as [Hdn _]. by apply negb_true_iff. }
    simpl. rewrite Hdn.
    assert (Hk2' : k2 < length (c :: s1)).
    { destruct (decide (k2 < length (c :: s1))); [done|].
      rewrite drop_ge in Er by lia. done. }
    exists (<[p + k1 + k2 := NUL]> m). split.
    + split; [done|]. exists (r ++ NUL :: tail).
      rewrite drop_insert_ge by lia.
      replace (p + k1 + k2 - (p + k1)) with k2 by lia.
      rewrite Hd1.
      change (c :: s1 ++ NUL :: tail) with ((c :: s1) ++ NUL :: tail).
      rewrite <- (take_drop k2 (c :: s1)) at 1. rewrite Er.
      rewrite <- app_assoc.
      rewrite insert_app_r_alt by (rewrite length_take; lia).
      rewrite length_take.
      replace (k2 - k2 `min` length (c :: s1)) with 0 by lia.
      done.
    + exists (S (p + k1 + k2)). split; [done|]. split.
      * apply andb_true_iff in Hr as [_ Hr]. done.
      * exists tail. rewrite drop_insert_lt by lia.
        replace (S (p + k1 + k2)) with (p + k1 + k2 + 1) by lia.
        rewrite <- drop_drop, Hd2. simpl. by rewrite drop_0.
Qed.

Lemma strtok_null m delim : strtok m None delim = (None, None, m).
Proof. reflexivity. Qed.

Lemma bcb_args_null n m : bcb_args n m None = ([], m).
Proof. destruct n; reflexivity. Qed.

Lemma length_bcb_args n m save : length (bcb_args n m save).2 = length m.
Proof.
  revert m save. induction n as [|n IH]; intros m save; simpl; [done|].
  pose proof (length_strtok m save [LF]) as Hl.
  destruct (strtok m save [LF]) as [[arg save'] m']. simpl in Hl.
  destruct arg; [|done].
  specialize (IH m' save'). destruct (bcb_args n m' save') as [rest m''].
  simpl in *. congruence.
Qed.

Lemma bcb_args_S n m save :
  bcb_args (S n) m save =
  let '(arg, save', m') := strtok m save [LF] in
  match arg with
  | None => ([], m')
  | Some a =>
      let '(rest, m'') := bcb_args n m' save' in (cstr_at m' a :: rest, m'')
  end.
Proof. reflexivity. Qed.

(** The loop over the control block collects the tokens of the string it
    starts on. *)
Lemma bcb_args_tokens n m p s :
  holds m p s -> (bcb_args n m (Some p)).1 = tokens n [LF] (Some s).
Proof.
  revert m p s. induction n as [|n IH]; intros m p s Hm; [done|].
  rewrite bcb_args_S. cbn [tokens].
  pose proof (strtok_holds m p [LF] s Hm) as H.
  destruct (next_token [LF] s) as [[t rest]|].
  - destruct H as (tok & m' & Ht & H). destruct rest as [r|].
    + destruct H as (q & -> & Hq).
      specialize (IH m' q r Hq).
      destruct (bcb_args n m' (Some q)) as [rest m'']. simpl in *.
      by rewrite (holds_cstr_at _ _ _ Ht), IH.
    + rewrite H, bcb_args_null. simpl.
      rewrite (holds_cstr_at _ _ _ Ht). by destruct n.
  - by rewrite H.
Qed.

Lemma span_drop_head P l c r : drop (span P l) l = c :: r -> P c = false.
Proof.
  intros H. apply (span_lookup P l).
  rewrite <- (Nat.add_0_r (span P l)), <- lookup_drop, H. done.
Qed.

(** A token is never empty. *)
Lemma next_token_nonempty delim s t rest :
  is_cstr s = true -> next_token delim s = Some (t, rest) -> 1 <= length t.
Proof.
  intros Hs. unfold next_token.
  destruct (drop (span (inside delim) s) s) as [|c s1] eqn:E; [done|].
  intros [= <- _].
  assert (Hc : inside delim c = false) by (by eapply span_drop_head).
  assert (Hs1 : is_cstr (c :: s1) = true).
  { rewrite <- E. by apply forallb_drop. }
  assert (Ho : outside delim c = true).
  { apply andb_true_iff in Hs1 as [Hn _]. unfold inside, outside in *.
    rewrite Hn in *. simpl in *. by rewrite Hc. }
  cbn [span]. rewrite Ho. simpl. lia.
Qed.

(** Where a string's tokens lie: [strtok] never writes before the end of
    the token it returns. *)
Lemma strtok_first m p delim s c :
  holds m p s -> s !! 0 = Some c ->
  (strtok m (Some p) delim).2 !! p = Some c.
Proof.
  intros Hm Hc.
  assert (Hp : m !! p = Some c).
  { destruct Hm as (_ & tail & Hd).
    rewrite <- (Nat.add_0_r p), <- lookup_drop, Hd.
    rewrite lookup_app_l; [done|]. by eapply lookup_lt_Some. }
  destruct Hm as (Hs & tail & Hd). unfold strtok.
  unfold strspn_at. rewrite Hd, span_terminated by done.
  set (k1 := span (inside delim) s).
  destruct (m !! (p + k1)) as [c1|] eqn:E1; [|done].
  destruct (is_nul c1) eqn:N1; [done|].
  unfold strcspn_at.
  assert (Hk1 : k1 <= length s) by apply span_le.
  assert (Hd1 : drop (p + k1) m = drop k1 s ++ NUL :: tail).
  { rewrite <- drop_drop, Hd. by rewrite drop_app_le. }
  rewrite Hd1.
  destruct (drop k1 s) as [|c2 s1] eqn:Es1.
  { (* the byte at the token start would be NUL *)
    rewrite <- (Nat.add_0_r (p + k1)), <- lookup_drop, Hd1 in E1.
    injection E1 as <-. done. }
  assert (Hin : inside delim c2 = false) by (by eapply span_drop_head).
  assert (Hs1 : is_cstr (c2 :: s1) = true).
  { rewrite <- Es1. by apply forallb_drop. }
  assert (Hout : outside delim c2 = true).
  { apply andb_true_iff in Hs1 as [Hn _]. unfold inside, outside in *.
    rewrite Hn in *. simpl in *. by rewrite Hin. }
  change ((c2 :: s1) ++ NUL :: tail) with (c2 :: (s1 ++ NUL :: tail)).
  cbn [span]. rewrite Hout.
  destruct (m !! (p + k1 + _)) as [d|]; [|done]. destruct (is_nul d); [done|].
  cbn [snd]. rewrite list_lookup_insert_ne by lia. done.
Qed.

(** The text of the recovery field once [get_args] has put a terminator in
    its last byte: the bytes before the first NUL, 1023 at most. *)
Definition recovery_text (boot : mem) : cstr :=
  let field := take (RECOVERY_SIZE - 1) (drop recovery_off boot) in
  take (span (fun c => negb (is_nul c)) field) field.

Definition terminated (boot : mem) : mem :=
  <[recovery_off + (RECOVERY_SIZE - 1) := NUL]> boot.

Lemma terminate_text (f : list ascii) :
  exists tail,
    f ++ [NUL] = take (span (fun c => negb (is_nul c)) f) f ++ NUL :: tail.
Proof.
  induction f as [|c f [tail IH]]; simpl; [by exists []|].
  destruct (is_nul c) eqn:E; simpl.
  - exists (f ++ [NUL]). f_equal.
    unfold is_nul in E. by apply Ascii.eqb_eq in E as ->.
  - exists tail. by rewrite IH.
Qed.

Lemma terminated_holds boot :
  length boot = sizeof_boot ->
  holds (terminated boot) recovery_off (recovery_text boot).
Proof.
  intros Hlen. split; [apply span_take|].
  unfold terminated, recovery_text.
  rewrite drop_insert_ge by lia.
  replace (recovery_off + (RECOVERY_SIZE - 1) - recovery_off)
    with (RECOVERY_SIZE - 1) by lia.
  set (field := drop recovery_off boot).
  assert (Hf : length field = RECOVERY_SIZE).
  { unfold field. rewrite length_drop, Hlen. reflexivity. }
  destruct (terminate_text (take (RECOVERY_SIZE - 1) field)) as [tail Ht].
  exists tail. rewrite <- Ht.
  rewrite <- (take_drop (RECOVERY_SIZE - 1) field) at 1.
  rewrite insert_app_r_alt by (rewrite length_take; lia).
  rewrite length_take, Hf.
  replace (RECOVERY_SIZE - 1 - (RECOVERY_SIZE - 1) `min` RECOVERY_SIZE)
    with 0 by lia.
  f_equal.
  destruct (drop (RECOVERY_SIZE - 1) field) as [|x [|y r]] eqn:E; try done.
  - apply (f_equal length) in E. rewrite length_drop, Hf in E.
    unfold RECOVERY_SIZE in E. simpl in E. lia.
  - apply (f_equal length) in E. rewrite length_drop, Hf in E.
    unfold RECOVERY_SIZE in E. simpl in E. lia.
Qed.

Lemma length_terminated boot : length (terminated boot) = length boot.
Proof. apply length_insert. Qed.

(** ** get_args, stage by stage *)

(** The block [get_args] starts from: the stored record when it can be
    read, a zeroed structure otherwise. *)
Definition read_boot (w : world) : mem :=
  if misc_ok w then resize sizeof_boot NUL (bcb w)
  else replicate sizeof_boot NUL.

(** The lines logged about the command and status fields. *)
Definition boot_logs (boot : mem) : list event :=
  (if first_byte_set boot command_off
   then [Log LOGI "Boot command: %.*s\n"
             [take COMMAND_SIZE (cstr_at boot command_off)]]
   else [])
  ++ (if first_byte_set boot status_off
      then [Log LOGI "Boot status: %.*s\n"
                [take STATUS_SIZE (cstr_at boot status_off)]]
      else []).

(** The world once the block is read and those lines are logged. *)
Definition entered (w : world) : world :=
  set_trace (trace w ++ Call "get_bootloader_message" []
                        :: boot_logs (read_boot w)) w.

Lemma length_read_boot w : length (read_boot w) = sizeof_boot.
Proof.
  unfold read_boot. destruct (misc_ok w);
    [apply length_resize|apply length_replicate].
Qed.

Lemma set_trace_id w : set_trace (trace w) w = w.
Proof. by destruct w. Qed.

Lemma get_args_unfold argv w :
  get_args argv w =
  let boot0 := read_boot w in
  let r1 := (if length argv <=? 1 then args_from_bcb argv boot0
             else ret (argv, boot0)) (entered w) in
  let r2 := (if length r1.1.1 <=? 1 then args_from_file r1.1.1
             else ret (Some r1.1.1)) r1.2 in
  match r2.1 with
  | None => (None, r2.2)
  | Some a => (Some a, (set_bootloader_message (arm r1.1.2 a) r2.2).2)
  end.
Proof.
  cbn zeta. unfold get_args, bind at 1.
  assert (Hg : get_bootloader_message (replicate sizeof_boot NUL) w
               = (read_boot w,
                  set_trace (trace w ++ [Call "get_bootloader_message" []]) w)).
  { unfold get_bootloader_message, read_boot, bind, emit, modify, gets, ret.
    simpl. by destruct (misc_ok w). }
  rewrite Hg.
  set (boot0 := read_boot w).
  assert (He : forall {A} (k : M A),
             (when (first_byte_set boot0 command_off)
                (log LOGI "Boot command: %.*s\n"
                   [take COMMAND_SIZE (cstr_at boot0 command_off)]) ;;
              when (first_byte_set boot0 status_off)
                (log LOGI "Boot status: %.*s\n"
                   [take STATUS_SIZE (cstr_at boot0 status_off)]) ;;
              k)
               (set_trace (trace w ++ [Call "get_bootloader_message" []]) w)
             = k (entered w)).
  { intros A k. unfold entered, boot_logs. fold boot0.
    unfold bind, when, log, emit, modify, ret.
    destruct (first_byte_set boot0 command_off),
      (first_byte_set boot0 status_off); cbn [fst snd];
      f_equal; unfold set_trace; cbn [trace misc_ok bcb volume files
        install_result format_result firmware_pending operator_reboot
        tmplog_offset do_reboot]; f_equal;
      rewrite <- ?app_assoc; reflexivity. }
  rewrite He. unfold bind at 1.
  match goal with
  | |- context [(if length argv <=? 1 then ?a else ?b) (entered w)] =>
      destruct ((if length argv <=? 1 then a else b) (entered w))
        as [[v boot1] w1]
  end.
  cbn [fst snd]. unfold bind at 1.
  match goal with
  | |- context [(if length v <=? 1 then ?a else ?b) w1] =>
      destruct ((if length v <=? 1 then a else b) w1) as [[a'|] w2]
  end; cbn [fst snd].
  - unfold arm, bind, ret.
    by destruct (set_bootloader_message _ w2) as [[] w3].
  - reflexivity.
Qed.

Lemma set_bootloader_message_run boot w :
  (set_bootloader_message boot w).2
  = let w' := set_trace (trace w ++ [Call "set_bootloader_message" [boot]]) w in
    if misc_ok w then set_bcb boot w' else w'.
Proof.
  unfold set_bootloader_message, bind, emit, modify. cbn [fst snd].
  change (misc_ok (set_trace _ w)) with (misc_ok w). done.
Qed.

(** *** The control block as a source of arguments *)

(** The block is armed: the first token of its recovery text is the
    identifying word. *)
Definition bcb_armed (boot : mem) : bool :=
  match next_token [LF] (recovery_text boot) with
  | Some (t, _) => bool_decide (t = lit "recovery")
  | None => false
  end.

(** The vector the control block yields in place of [argv]. *)
Definition bcb_vector (argv : list cstr) (boot : mem) : list cstr :=
  match next_token [LF] (recovery_text boot) with
  | Some (t, rest) =>
      if bool_decide (t = lit "recovery")
      then t :: tokens (MAX_ARGS - 1) [LF] rest
      else argv
  | None => argv
  end.

Lemma first_byte_set_agree m m' p :
  m' !! p = m !! p -> first_byte_set m' p = first_byte_set m p.
Proof. unfold first_byte_set. by intros ->. Qed.

Lemma holds_first_byte m p s :
  holds m p s -> m !! p = Some (default NUL (s !! 0)).
Proof.
  intros (_ & tail & Hd).
  rewrite <- (Nat.add_0_r p), <- lookup_drop, Hd. by destruct s.
Qed.

Lemma next_token_nil delim : next_token delim [] = None.
Proof. reflexivity. Qed.

(** What the first block of [get_args] returns and logs. *)
Lemma args_from_bcb_run argv boot w :
  length boot = sizeof_boot ->
  exists boot' t,
    args_from_bcb argv boot w
    = ((bcb_vector argv boot, boot'), set_trace (trace w ++ t) w)
    /\ length boot' = sizeof_boot
    /\ (if bcb_armed boot
        then t = [Log LOGI "Got arguments from boot message\n" []]
        else if first_byte_set boot recovery_off
             then exists msg, t = [Log LOGE BAD_BOOT_MESSAGE [msg]]
             else t = []).
Proof.
  intros Hlen. unfold args_from_bcb, bcb_vector, bcb_armed.
  change (<[recovery_off + (RECOVERY_SIZE - 1):=NUL]> boot)
    with (terminated boot).
  pose proof (terminated_holds boot Hlen) as Hh.
  set (s := recovery_text boot) in *.
  pose proof (strtok_holds _ _ [LF] _ Hh) as Ht.
  pose proof (length_strtok (terminated boot) (Some recovery_off) [LF]) as Hl.
  rewrite length_terminated, Hlen in Hl.
  assert (Hfb : first_byte_set
                  (strtok (terminated boot) (Some recovery_off) [LF]).2
                  recovery_off
                = first_byte_set boot recovery_off).
  { apply first_byte_set_agree.
    transitivity (terminated boot !! recovery_off);
      [|apply list_lookup_insert_ne; unfold RECOVERY_SIZE; lia].
    destruct (s !! 0) as [c|] eqn:Ec.
    - rewrite (strtok_first _ _ _ s c Hh Ec).
      rewrite (holds_first_byte _ _ _ Hh). by rewrite Ec.
    - destruct s; [|done]. by rewrite Ht. }
  assert (Hbad : forall b,
    length b = sizeof_boot ->
    first_byte_set b recovery_off = first_byte_set boot recovery_off ->
    exists boot' t,
      (when (first_byte_set b recovery_off)
         (log LOGE BAD_BOOT_MESSAGE [take 20 (cstr_at b recovery_off)]) ;;
       ret (argv, b)) w
      = ((argv, boot'), set_trace (trace w ++ t) w)
      /\ length boot' = sizeof_boot
      /\ (if first_byte_set boot recovery_off
          then exists msg, t = [Log LOGE BAD_BOOT_MESSAGE [msg]]
          else t = [])).
  { intros b Hb Hfb'. rewrite Hfb'.
    destruct (first_byte_set boot recovery_off).
    - exists b, [Log LOGE BAD_BOOT_MESSAGE [take 20 (cstr_at b recovery_off)]].
      split_and!; [done|done|by eexists].
    - exists b, []. split_and!; [|done|done].
      unfold when, bind, ret. by rewrite app_nil_r, set_trace_id. }
  destruct (next_token [LF] s) as [[t rest]|].
  - destruct Ht as (tok & m' & Htok & Ht).
    assert (Hst : exists save, strtok (terminated boot) (Some recovery_off) [LF]
                               = (Some tok, save, m')
                               /\ (bcb_args (MAX_ARGS - 1) m' save).1
                                  = tokens (MAX_ARGS - 1) [LF] rest).
    { destruct rest as [r|].
      - destruct Ht as (q & Ht & Hq). exists (Some q). split; [done|].
        by apply bcb_args_tokens.
      - exists None. split; [done|]. rewrite bcb_args_null. by destruct (MAX_ARGS - 1). }
    destruct Hst as (save & Hst & Hargs). rewrite Hst in *. cbn [snd] in *.
    rewrite (holds_cstr_at _ _ _ Htok).
    destruct (bool_decide (t = lit "recovery")).
    + pose proof (length_bcb_args (MAX_ARGS - 1) m' save) as Hl'.
      destruct (bcb_args (MAX_ARGS - 1) m' save) as [args boot'].
      cbn [fst snd] in *. subst args.
      exists boot', [Log LOGI "Got arguments from boot message\n" []].
      split_and!; [done|congruence|done].
    + by apply Hbad.
  - rewrite Ht in *. cbn [snd] in *. by apply Hbad.
Qed.

Lemma next_token_is_cstr delim s t rest :
  is_cstr s = true -> next_token delim s = Some (t, rest) ->
  is_cstr t = true /\ from_option (fun r => is_cstr r = true) True rest.
Proof.
  intros Hs. unfold next_token.
  destruct (drop (span (inside delim) s) s) as [|c s1] eqn:E; [done|].
  assert (Hs1 : is_cstr (c :: s1) = true).
  { rewrite <- E. by apply forallb_drop. }
  intros [= <- <-]. split; [by apply forallb_take|].
  destruct (drop _ (c :: s1)) as [|d r] eqn:Er; [done|]. simpl.
  assert (Hr : is_cstr (d :: r) = true).
  { rewrite <- Er. by apply forallb_drop. }
  by apply andb_true_iff in Hr as [_ Hr].
Qed.

Lemma tokens_is_cstr n delim s :
  from_option (fun r => is_cstr r = true) True s ->
  forallb is_cstr (tokens n delim s) = true.
Proof.
  revert s. induction n as [|n IH]; intros [s|] Hs; simpl; try done.
  destruct (next_token delim s) as [[t rest]|] eqn:E; [|done].
  destruct (next_token_is_cstr _ _ _ _ Hs E) as [Ht Hr].
  simpl. rewrite Ht. by apply IH.
Qed.

Lemma length_tokens n delim s : length (tokens n delim s) <= n.
Proof.
  revert s. induction n as [|n IH]; intros [s|]; simpl; try lia.
  destruct (next_token delim s) as [[t rest]|]; simpl; [|lia].
  specialize (IH rest). lia.
Qed.

Lemma read_command_lines_S n rest :
  read_command_lines (S n) rest =
  match fgets MAX_ARG_LENGTH rest with
  | None => Some []
  | Some (line, rest') =>
      let '(tok, _, buf) := strtok (line ++ [NUL]) (Some 0) [CR; LF] in
      match tok with
      | None => None
      | Some t =>
          match read_command_lines n rest' with
          | Some more => Some (cstr_at buf t :: more)
          | None => None
          end
      end
  end.
Proof. reflexivity. Qed.

Lemma read_command_lines_is_cstr n rest lines :
  read_command_lines n rest = Some lines -> forallb is_cstr lines = true.
Proof.
  revert rest lines. induction n as [|n IH]; intros rest lines.
  - by intros [= <-].
  - rewrite read_command_lines_S.
    destruct (fgets _ _) as [[line rest']|]; [|by intros [= <-]].
    destruct (strtok _ _ _) as [[[t|] save] buf]; [|done].
    destruct (read_command_lines n rest') as [more|] eqn:E; [|done].
    intros [= <-]. simpl. rewrite cstr_at_is_cstr. by eapply IH.
Qed.

Lemma length_read_command_lines n rest lines :
  read_command_lines n rest = Some lines -> length lines <= n.
Proof.
  revert rest lines. induction n as [|n IH]; intros rest lines.
  - by intros [= <-].
  - rewrite read_command_lines_S.
    destruct (fgets _ _) as [[line rest']|]; [|intros [= <-]; simpl; lia].
    destruct (strtok _ _ _) as [[[t|] save] buf]; [|done].
    destruct (read_command_lines n rest') as [more|] eqn:E; [|done].
    intros [= <-]. simpl. specialize (IH _ _ E). lia.
Qed.

(** *** The command file as a source of arguments *)

(** What [fopen_root_path(COMMAND_FILE, "r")] finds. *)
Definition command_file (w : world) : option (list ascii) :=
  match volume w "CACHE:" with
  | VolUnmountable => None
  | _ => files w !! command_path
  end.

Definition mount_command : event :=
  Call "ensure_root_path_mounted" [lit COMMAND_FILE].

Arguments read_command_lines : simpl never.

(** What the second block of [get_args] logs. *)
Definition command_logs (w : world) : list event :=
  match volume w "CACHE:" with
  | VolUnmountable => [Log LOGE "Can't mount %s\n" [lit COMMAND_FILE]]
  | _ =>
      match files w !! command_path with
      | Some d =>
          match read_command_lines (MAX_ARGS - 1) d with
          | Some _ => [Log LOGI "Got arguments from %s\n" [lit COMMAND_FILE]]
          | None => []
          end
      | None => []
      end
  end.

(** What the second block of [get_args] returns and adds to the trace. *)
Lemma args_from_file_run v w :
  args_from_file v w
  = (match command_file w with
     | Some d =>
         match read_command_lines (MAX_ARGS - 1) d with
         | Some lines => Some (hd [] v :: lines)
         | None => None
         end
     | None => Some v
     end,
     set_trace (trace w ++ mount_command :: command_logs w) w).
Proof.
  unfold args_from_file, fopen_root_path, ensure_root_path_mounted,
    command_file, command_logs.
  change (translate_root_path COMMAND_FILE) with (Some command_path).
  change (root_entry COMMAND_FILE) with (Some ("CACHE:", "/cache/")%string).
  destruct (volume w "CACHE:") eqn:V.
  2:{ unfold bind, log, emit, modify, gets, ret. cbn [fst snd].
      change (volume (set_trace _ w)) with (volume w). rewrite V. cbn [negb].
      unfold set_trace. cbn. by rewrite <- app_assoc. }
  all: unfold bind, emit, modify, gets, ret, fopen, when; cbn [fst snd];
    change (volume (set_trace _ w)) with (volume w); rewrite V; cbn [negb];
    cbn [in_set existsb mode0 lit]; simpl;
    change (MAX_ARGS - 1) with 99;
    destruct (files w !! command_path) as [d|];
    [cbn [f_pos f_data]; change (drop 0 d) with d;
     destruct (read_command_lines 99 d) as [lines|]|];
    first [ done
          | unfold check_and_fclose, when, ret, set_trace; cbn;
            by rewrite <- app_assoc ].
Qed.

(** ** get_args as a whole *)

(** The vector after the first block. *)
Definition after_bcb (argv : list cstr) (boot : mem) : list cstr :=
  if length argv <=? 1 then bcb_vector argv boot else argv.

(** The vector [get_args] resolves, [None] when the process dies. *)
Definition resolve (argv : list cstr) (w : world) : option (list cstr) :=
  let v := after_bcb argv (read_boot w) in
  if length v <=? 1 then
    match command_file w with
    | Some d =>
        match read_command_lines (MAX_ARGS - 1) d with
        | Some lines => Some (hd [] v :: lines)
        | None => None
        end
    | None => Some v
    end
  else Some v.

(** What [get_args] adds to the trace before it writes the block back. *)
Definition resolve_trace (argv : list cstr) (w : world) (tb : list event)
  : list event :=
  Call "get_bootloader_message" [] :: boot_logs (read_boot w)
  ++ tb
  ++ (if length (after_bcb argv (read_boot w)) <=? 1
      then mount_command :: command_logs w else []).

(** What the first block logs, up to the text shown after a bad message. *)
Definition bcb_logged (argv : list cstr) (boot : mem) (tb : list event) : Prop :=
  if length argv <=? 1 then
    if bcb_armed boot
    then tb = [Log LOGI "Got arguments from boot message\n" []]
    else if first_byte_set boot recovery_off
         then exists msg, tb = [Log LOGE BAD_BOOT_MESSAGE [msg]]
         else tb = []
  else tb = [].

Lemma set_trace_set_trace t t' w : set_trace t (set_trace t' w) = set_trace t w.
Proof. reflexivity. Qed.

Lemma set_trace_eq t t' w : t = t' -> set_trace t w = set_trace t' w.
Proof. by intros ->. Qed.

Ltac same_trace :=
  rewrite ?set_trace_set_trace;
  try apply (f_equal (set_bcb _));
  apply set_trace_eq; rewrite <- ?app_assoc; cbn [app];
  rewrite <- ?app_assoc; done.

Lemma get_args_run argv w :
  exists boot' tb,
    length boot' = sizeof_boot
    /\ bcb_logged argv (read_boot w) tb
    /\ ((length argv <=? 1) = false -> boot' = read_boot w)
    /\ get_args argv w
       = match resolve argv w with
         | Some a =>
             (Some a,
              let w' := set_trace (trace w ++ resolve_trace argv w tb
                                   ++ [Call "set_bootloader_message" [arm boot' a]]) w in
              if misc_ok w then set_bcb (arm boot' a) w' else w')
         | None => (None, set_trace (trace w ++ resolve_trace argv w tb) w)
         end.
Proof.
  rewrite get_args_unfold. cbn zeta.
  unfold resolve, resolve_trace, after_bcb, bcb_logged.
  set (boot0 := read_boot w).
  assert (Hb0 : length boot0 = sizeof_boot) by apply length_read_boot.
  assert (H1 : exists boot' tb,
    (if length argv <=? 1 then args_from_bcb argv boot0 else ret (argv, boot0))
      (entered w)
    = ((if length argv <=? 1 then bcb_vector argv boot0 else argv, boot'),
       set_trace (trace w ++ Call "get_bootloader_message" []
                             :: boot_logs boot0 ++ tb) w)
    /\ length boot' = sizeof_boot
    /\ (if length argv <=? 1 then
          if bcb_armed boot0
          then tb = [Log LOGI "Got arguments from boot message\n" []]
          else if first_byte_set boot0 recovery_off
               then exists msg, tb = [Log LOGE BAD_BOOT_MESSAGE [msg]]
               else tb = []
        else tb = [])
    /\ ((length argv <=? 1) = false -> boot' = boot0)).
  { destruct (length argv <=? 1).
    - destruct (args_from_bcb_run argv boot0 (entered w) Hb0)
        as (boot' & t & E & Hl & Ht).
      exists boot', t. split_and!; [|done|done|done].
      rewrite E. unfold entered. fold boot0.
      rewrite set_trace_set_trace. cbn [trace set_trace].
      by rewrite <- app_assoc.
    - exists boot0, []. split_and!; [|done|done|done].
      unfold ret, entered. fold boot0. by rewrite app_nil_r. }
  destruct H1 as (boot' & tb & E1 & Hl & Htb & Hex). rewrite E1. cbn [fst snd].
  exists boot', tb. split_and!; [done|done|done|].
  set (v := if length argv <=? 1 then bcb_vector argv boot0 else argv).
  set (w1 := set_trace _ w).
  assert (Hm : misc_ok w1 = misc_ok w) by done.
  assert (Hc : command_file w1 = command_file w) by done.
  assert (Hcl : command_logs w1 = command_logs w) by done.
  assert (Ht : forall x, trace w1 ++ x
              = trace w ++ Call "get_bootloader_message" []
                  :: boot_logs boot0 ++ tb ++ x).
  { intros x. unfold w1. cbn [trace set_trace].
    rewrite <- !app_assoc. cbn [app]. by rewrite <- !app_assoc. }
  assert (Hw : forall t, set_trace t w1 = set_trace t w) by done.
  destruct (length v <=? 1).
  - rewrite args_from_file_run. cbn [fst snd]. rewrite Hc, Hcl.
    destruct (command_file w) as [d|];
      [destruct (read_command_lines (MAX_ARGS - 1) d) as [lines|]|].
    all: rewrite ?set_bootloader_message_run; cbn zeta;
      rewrite ?Hw; change (misc_ok (set_trace _ w)) with (misc_ok w);
      cbn [trace set_trace]; rewrite <- ?app_assoc, ?Ht;
      destruct (misc_ok w); f_equal; rewrite ?Hw; same_trace.
  - unfold ret. cbn [fst snd]. rewrite set_bootloader_message_run. cbn zeta.
    rewrite Hm, ?Hw. cbn [trace set_trace]. rewrite Ht, app_nil_r.
    destruct (misc_ok w); f_equal; rewrite ?Hw;
      repeat f_equal; rewrite <- ?app_assoc; cbn [app];
      rewrite <- ?app_assoc; done.
Qed.

Lemma called_app t1 t2 : called (t1 ++ t2) = called t1 ++ called t2.
Proof. unfold called. apply omap_app. Qed.

Lemma called_boot_logs boot : called (boot_logs boot) = [].
Proof.
  unfold boot_logs.
  by destruct (first_byte_set boot command_off), (first_byte_set boot status_off).
Qed.

Lemma called_command_logs w : called (command_logs w) = [].
Proof.
  unfold command_logs. destruct (volume w "CACHE:"); try done.
  all: destruct (files w !! command_path) as [d|]; [|done].
  all: by destruct (read_command_lines _ d).
Qed.

Lemma called_bcb_logged argv boot tb : bcb_logged argv boot tb -> called tb = [].
Proof.
  unfold bcb_logged. destruct (length argv <=? 1); [|by intros ->].
  destruct (bcb_armed boot); [by intros ->|].
  destruct (first_byte_set boot recovery_off); [by intros [msg ->]|by intros ->].
Qed.

(** The routines called before the block is written back. *)
Lemma called_resolve_trace argv w tb :
  bcb_logged argv (read_boot w) tb ->
  called (resolve_trace argv w tb)
  = "get_bootloader_message"%string
    :: (if length (after_bcb argv (read_boot w)) <=? 1
        then ["ensure_root_path_mounted"%string] else []).
Proof.
  intros Htb. unfold resolve_trace.
  change (called (?e :: ?t)) with ("get_bootloader_message"%string :: called t).
  rewrite !called_app, called_boot_logs, (called_bcb_logged _ _ _ Htb).
  f_equal. cbn [app].
  destruct (length _ <=? 1); [|done].
  change (called (mount_command :: ?t))
    with ("ensure_root_path_mounted"%string :: called t).
  by rewrite called_command_logs.
Qed.

Lemma calls_called fn t : ~ In fn (called t) -> calls fn t = [].
Proof.
  induction t as [|[lv fmt a|f a] t IH]; [done|apply IH|].
  intros H. unfold calls in *. simpl.
  destruct (String.eqb_spec f fn) as [->|Hn].
  - exfalso. apply H. by left.
  - apply IH. intros Hin. apply H. by right.
Qed.

(** What [get_args] returns, adds to the trace and leaves in the device. *)
Lemma get_args_effect argv w :
  exists boot' tb,
    length boot' = sizeof_boot
    /\ bcb_logged argv (read_boot w) tb
    /\ ((length argv <=? 1) = false -> boot' = read_boot w)
    /\ (get_args argv w).1 = resolve argv w
    /\ events (get_args argv) w
       = resolve_trace argv w tb
         ++ match resolve argv w with
            | Some a => [Call "set_bootloader_message" [arm boot' a]]
            | None => []
            end
    /\ files (get_args argv w).2 = files w
    /\ bcb (get_args argv w).2
       = match resolve argv w with
         | Some a => if misc_ok w then arm boot' a else bcb w
         | None => bcb w
         end.
Proof.
  destruct (get_args_run argv w) as (boot' & tb & Hl & Htb & Hex & E).
  exists boot', tb. split_and!; try done.
  - rewrite E. by destruct (resolve argv w).
  - apply events_unique. rewrite E.
    destruct (resolve argv w) as [a|]; cbn [fst snd].
    + by destruct (misc_ok w).
    + by rewrite app_nil_r.
  - rewrite E. destruct (resolve argv w) as [a|]; cbn [fst snd]; [|done].
    by destruct (misc_ok w).
  - rewrite E. destruct (resolve argv w) as [a|]; cbn [fst snd]; [|done].
    by destruct (misc_ok w).
Qed.

Lemma is_cstr_recovery_text boot : is_cstr (recovery_text boot) = true.
Proof. apply span_take. Qed.

Lemma bcb_vector_is_cstr argv boot :
  forallb is_cstr (drop 1 argv) = true ->
  forallb is_cstr (drop 1 (bcb_vector argv boot)) = true.
Proof.
  intros Ha. unfold bcb_vector.
  destruct (next_token [LF] (recovery_text boot)) as [[t rest]|] eqn:E; [|done].
  destruct (bool_decide _); [|done].
  cbn [drop]. apply tokens_is_cstr.
  by destruct (next_token_is_cstr _ _ _ _ (is_cstr_recovery_text boot) E).
Qed.

Lemma resolve_is_cstr argv w a :
  forallb is_cstr (drop 1 argv) = true ->
  resolve argv w = Some a -> forallb is_cstr (drop 1 a) = true.
Proof.
  intros Ha. unfold resolve.
  assert (Hv : forallb is_cstr (drop 1 (after_bcb argv (read_boot w))) = true).
  { unfold after_bcb. destruct (length argv <=? 1); [|done].
    by apply bcb_vector_is_cstr. }
  destruct (length _ <=? 1); [|by intros [= <-]].
  destruct (command_file w) as [d|]; [|by intros [= <-]].
  destruct (read_command_lines _ d) as [lines|] eqn:E; [|done].
  intros [= <-]. cbn [drop]. by eapply read_command_lines_is_cstr.
Qed.

(** A device whose control block is blank and whose volumes are empty. *)
Definition blank_device : world :=
  World true (replicate sizeof_boot NUL) (fun _ => VolOk) ∅
        (fun _ => 0%Z) (fun _ => 0%Z) false 0%Z 0 0%Z [].

(** X1: arguments given on the command line win.  With two or more entries
    in [argv], [get_args] returns that vector as it is, reads the control
    block and writes it back armed with those arguments, mounts no volume,
    and touches no file other than the runtime log that its log lines go
    to. *)
Theorem explicit_arguments_win (argv : list cstr) (w : world) :
  1 < length argv ->
  (get_args argv w).1 = Some argv
  /\ events (get_args argv) w
     = Call "get_bootloader_message" [] :: boot_logs (read_boot w)
       ++ [Call "set_bootloader_message" [arm (read_boot w) argv]]
  /\ forall q, q <> TEMPORARY_LOG_FILE ->
       files (get_args argv w).2 !! q = files w !! q.
Proof.
  intros Hn.
  destruct (get_args_effect argv w)
    as (boot' & tb & _ & Htb & Hex & Hr & He & Hf & _).
  assert (El : (length argv <=? 1) = false) by (apply Nat.leb_gt; lia).
  assert (R : resolve argv w = Some argv).
  { unfold resolve, after_bcb. by rewrite !El. }
  rewrite Hr, He, R, Hf. split_and!; try done.
  unfold resolve_trace, after_bcb, bcb_logged in *. rewrite El in Htb.
  rewrite !El, (Hex El), Htb. cbn [app]. by rewrite app_nil_r.
Qed.

(** A device whose control block is armed for a cache wipe and whose cache
    volume holds a command file. *)
Definition rival_device : world :=
  World true (arm (replicate sizeof_boot NUL) [lit "recovery"; lit "--wipe_cache"])
        (fun _ => VolOk)
        {[ command_path := lit "--update_package=SDCARD:update.zip" ++ [LF] ]}
        (fun _ => 0%Z) (fun _ => 0%Z) false 0%Z 0 0%Z [].

Lemma explicit_arguments_win_witness :
  1 < length [lit "recovery"; lit "--wipe_data"]
  /\ (get_args [lit "recovery"; lit "--wipe_data"] rival_device).1
     = Some [lit "recovery"; lit "--wipe_data"]
  /\ events (get_args [lit "recovery"; lit "--wipe_data"]) rival_device
     = Call "get_bootloader_message" [] :: boot_logs (read_boot rival_device)
       ++ [Call "set_bootloader_message"
             [arm (read_boot rival_device)
                  [lit "recovery"; lit "--wipe_data"]]]
  /\ forall q, q <> TEMPORARY_LOG_FILE ->
       files (get_args [lit "recovery"; lit "--wipe_data"] rival_device).2 !! q
       = files rival_device !! q.
Proof.
  split; [simpl; lia|].
  apply (explicit_arguments_win [lit "recovery"; lit "--wipe_data"] rival_device).
  simpl. lia.
Defined.

(** X2: whenever [get_args] returns, the last thing it did was to write
    the control block back, once, with the command field reading
    [boot-recovery] and the recovery field reading the word [recovery] and
    the arguments it returns, one per line, cut to the 1023 bytes the field
    can hold; when the loop over the command file kills the process, the
    block is not written at all. *)
Theorem get_args_rearms (argv : list cstr) (w : world) :
  forallb is_cstr (drop 1 argv) = true ->
  match (get_args argv w).1 with
  | Some a =>
      exists t b,
        events (get_args argv) w = t ++ [Call "set_bootloader_message" [b]]
        /\ calls "set_bootloader_message" t = []
        /\ length b = sizeof_boot
        /\ cstr_at b command_off = lit "boot-recovery"
        /\ cstr_at b recovery_off
           = take (RECOVERY_SIZE - 1) (canonical (drop 1 a))
        /\ (misc_ok w = true -> bcb (get_args argv w).2 = b)
  | None =>
      calls "set_bootloader_message" (events (get_args argv) w) = []
      /\ bcb (get_args argv w).2 = bcb w
  end.
Proof.
  intros Ha.
  destruct (get_args_effect argv w)
    as (boot' & tb & Hl & Htb & _ & Hr & He & _ & Hb).
  assert (Hc : calls "set_bootloader_message" (resolve_trace argv w tb) = []).
  { apply calls_called. rewrite (called_resolve_trace _ _ _ Htb).
    destruct (length _ <=? 1); simpl; intros H;
      repeat destruct H as [H|H]; done. }
  rewrite Hr, He, Hb. destruct (resolve argv w) as [a|] eqn:R.
  - exists (resolve_trace argv w tb), (arm boot' a). split_and!; try done.
    + by rewrite length_arm.
    + apply holds_cstr_at. by apply arm_command.
    + apply holds_cstr_at. apply arm_recovery; [done|].
      by eapply resolve_is_cstr.
    + by intros ->.
  - by rewrite app_nil_r.
Qed.

Lemma get_args_rearms_witness :
  forallb is_cstr (drop 1 [lit "recovery"; lit "--wipe_data"]) = true
  /\ match (get_args [lit "recovery"; lit "--wipe_data"] blank_device).1 with
     | Some a =>
         exists t b,
           events (get_args [lit "recovery"; lit "--wipe_data"]) blank_device
           = t ++ [Call "set_bootloader_message" [b]]
           /\ calls "set_bootloader_message" t = []
           /\ length b = sizeof_boot
           /\ cstr_at b command_off = lit "boot-recovery"
           /\ cstr_at b recovery_off
              = take (RECOVERY_SIZE - 1) (canonical (drop 1 a))
           /\ (misc_ok blank_device = true
               -> bcb (get_args [lit "recovery"; lit "--wipe_data"]
                                blank_device).2 = b)
     | None =>
         calls "set_bootloader_message"
               (events (get_args [lit "recovery"; lit "--wipe_data"])
                       blank_device) = []
         /\ bcb (get_args [lit "recovery"; lit "--wipe_data"] blank_device).2
            = bcb blank_device
     end.
Proof.
  split; [reflexivity|].
  exact (get_args_rearms [lit "recovery"; lit "--wipe_data"] blank_device
           eq_refl).
Defined.

(** X3: the write-back stays inside the two fields it is meant for.
    Whatever the arguments and however long they are, arming the block
    keeps its size and changes no byte outside the command field and the
    recovery field: the status field and whatever follows the structure
    are left as they were. *)
Theorem arm_in_bounds (boot : mem) (argv : list cstr) :
  length (arm boot argv) = length boot
  /\ forall j,
       command_off + COMMAND_SIZE <= j < recovery_off
       \/ recovery_off + RECOVERY_SIZE <= j ->
       arm boot argv !! j = boot !! j.
Proof. split; [apply length_arm|apply arm_outside]. Qed.

(** *** Words and lines *)

(** A word: a non-empty string without a NUL or a byte of [delim]. *)
Definition word (delim : cstr) (a : cstr) : bool :=
  negb (length a =? 0) && forallb (outside delim) a.

Lemma outside_not_inside delim c : outside delim c = true -> inside delim c = false.
Proof.
  unfold inside, outside. destruct (is_nul c); [done|]. simpl.
  by destruct (in_set delim c).
Qed.

Lemma inside_not_outside delim c : inside delim c = true -> outside delim c = false.
Proof.
  unfold inside, outside. destruct (is_nul c); [done|]. simpl.
  by destruct (in_set delim c).
Qed.

Lemma word_is_cstr delim a : word delim a = true -> is_cstr a = true.
Proof.
  intros [_ H]%andb_true_iff. unfold is_cstr.
  induction a as [|c a IH]; [done|]. simpl in *.
  apply andb_true_iff in H as [Hc H]. rewrite IH by done.
  unfold outside in Hc. by destruct (is_nul c).
Qed.

(** [strtok] finds a word that a delimiter follows. *)
Lemma next_token_word delim a d r :
  word delim a = true -> outside delim d = false ->
  next_token delim (a ++ d :: r) = Some (a, Some r).
Proof.
  intros [Hn Ha]%andb_true_iff Hd. unfold next_token.
  destruct a as [|c a]; [done|].
  assert (Hc : inside delim c = false).
  { apply outside_not_inside. simpl in Ha. by apply andb_true_iff in Ha as [-> _]. }
  assert (Hs : span (inside delim) ((c :: a) ++ d :: r) = 0)
    by (simpl; by rewrite Hc).
  rewrite Hs, drop_0. cbn [app].
  change (c :: (a ++ d :: r)) with ((c :: a) ++ d :: r).
  rewrite span_stop by done.
  by rewrite take_app_length, drop_app_length.
Qed.

(** A text of words, each followed by one delimiter, splits into them. *)
Lemma tokens_lines n delim d args :
  outside delim d = false ->
  forallb (word delim) args = true ->
  tokens n delim (Some (concat (map (fun a => a ++ [d]) args))) = take n args.
Proof.
  intros Hd. revert n. induction args as [|a args IH]; intros n Ha.
  - by destruct n.
  - destruct n as [|n]; [done|].
    simpl in Ha. apply andb_true_iff in Ha as [Hw Ha].
    cbn [map concat tokens]. rewrite <- app_assoc. cbn [app].
    rewrite (next_token_word _ _ _ _ Hw Hd). cbn [take]. f_equal. by apply IH.
Qed.

Lemma recovery_text_holds boot s :
  holds boot recovery_off s -> length s < RECOVERY_SIZE ->
  recovery_text boot = s.
Proof.
  intros (Hs & tail & Hd) Hl. unfold recovery_text. rewrite Hd.
  rewrite take_app_ge by lia.
  destruct (RECOVERY_SIZE - 1 - length s) as [|k].
  - cbn [take]. rewrite app_nil_r, span_all by done. apply firstn_all.
  - cbn [take]. rewrite span_stop by done. apply take_app_length.
Qed.

Lemma read_boot_stored w :
  misc_ok w = true -> length (bcb w) = sizeof_boot -> read_boot w = bcb w.
Proof.
  intros Hm Hl. unfold read_boot. rewrite Hm, <- Hl. apply resize_all.
Qed.

Lemma word_recovery : word [LF] (lit "recovery") = true.
Proof. reflexivity. Qed.

(** The control block armed with [args] yields [args] again. *)
Lemma bcb_vector_arm boot v args argv :
  length boot = sizeof_boot ->
  forallb (word [LF]) args = true ->
  length args < MAX_ARGS -> length (canonical args) < RECOVERY_SIZE ->
  bcb_vector argv (arm boot (v :: args)) = lit "recovery" :: args.
Proof.
  intros Hl Ha Hn Hc. unfold bcb_vector.
  rewrite (recovery_text_holds _ (canonical args)).
  - unfold canonical. cbn [app].
    rewrite (next_token_word [LF] (lit "recovery") LF _ word_recovery eq_refl).
    rewrite bool_decide_true by done. f_equal.
    rewrite tokens_lines by done. apply take_ge. unfold MAX_ARGS in *. lia.
  - pose proof (arm_recovery boot (v :: args) Hl) as H.
    change (drop 1 (v :: args)) with args in H.
    rewrite take_ge in H by lia. apply H.
    clear -Ha. induction args as [|a args IH]; [done|]. simpl in *.
    apply andb_true_iff in Ha as [Hw Ha].
    by rewrite (word_is_cstr _ _ Hw), IH.
  - done.
Qed.

(** X4: the arguments survive a restart.  When the stored control block is
    the one [get_args] writes for the arguments [args] (non-empty strings
    without a newline, fewer than 100, whose text fits the recovery field),
    a run started without arguments gets exactly these arguments back
    behind the word [recovery], without looking at the command file, and
    writes the same recovery text again. *)
Theorem armed_block_round_trip
    (boot : mem) (v : cstr) (args argv : list cstr) (w : world) :
  length boot = sizeof_boot ->
  forallb (word [LF]) args = true -> args <> [] ->
  length args < MAX_ARGS -> length (canonical args) < RECOVERY_SIZE ->
  misc_ok w = true -> bcb w = arm boot (v :: args) ->
  length argv <= 1 ->
  (get_args argv w).1 = Some (lit "recovery" :: args)
  /\ calls "ensure_root_path_mounted" (events (get_args argv) w) = []
  /\ cstr_at (bcb (get_args argv w).2) recovery_off = canonical args.
Proof.
  intros Hl Ha Hne Hn Hc Hm Hb Hargv.
  destruct (get_args_effect argv w)
    as (boot' & tb & Hl' & Htb & _ & Hr & He & _ & Hbcb).
  assert (Hrb : read_boot w = arm boot (v :: args)).
  { rewrite read_boot_stored; [done|done|]. by rewrite Hb, length_arm. }
  assert (El : (length argv <=? 1) = true) by (by apply Nat.leb_le).
  assert (Hv : after_bcb argv (read_boot w) = lit "recovery" :: args).
  { unfold after_bcb. rewrite El, Hrb. by apply bcb_vector_arm. }
  assert (El2 : (length (lit "recovery" :: args) <=? 1) = false).
  { apply Nat.leb_gt. destruct args; [done|]. simpl. lia. }
  assert (R : resolve argv w = Some (lit "recovery" :: args)).
  { unfold resolve. by rewrite Hv, El2. }
  rewrite Hr, He, Hbcb, R, Hm. split_and!; [done| |].
  - apply calls_called. rewrite called_app, (called_resolve_trace _ _ _ Htb).
    rewrite Hv, El2. simpl. intros H. repeat destruct H as [H|H]; done.
  - apply holds_cstr_at.
    pose proof (arm_recovery boot' (lit "recovery" :: args) Hl') as H.
    change (drop 1 (lit "recovery" :: args)) with args in H. rewrite take_ge in H by lia. apply H.
    clear -Ha. induction args as [|a args IH]; [done|]. simpl in *.
    apply andb_true_iff in Ha as [Hw Ha].
    by rewrite (word_is_cstr _ _ Hw), IH.
Qed.

(** A device restarted after [get_args] armed it for a data wipe. *)
Definition armed_device : world :=
  World true (arm (replicate sizeof_boot NUL) [lit "recovery"; lit "--wipe_data"])
        (fun _ => VolOk) ∅ (fun _ => 0%Z) (fun _ => 0%Z) false 0%Z 0 0%Z [].

Lemma armed_block_round_trip_witness :
  (get_args [lit "/sbin/recovery"] armed_device).1
  = Some [lit "recovery"; lit "--wipe_data"]
  /\ calls "ensure_root_path_mounted"
           (events (get_args [lit "/sbin/recovery"]) armed_device) = []
  /\ cstr_at (bcb (get_args [lit "/sbin/recovery"] armed_device).2) recovery_off
     = canonical [lit "--wipe_data"].
Proof.
  apply (armed_block_round_trip (replicate sizeof_boot NUL) (lit "recovery")
           [lit "--wipe_data"] [lit "/sbin/recovery"] armed_device).
  - apply length_replicate.
  - reflexivity.
  - discriminate.
  - unfold MAX_ARGS. simpl. lia.
  - unfold RECOVERY_SIZE. vm_compute. lia.
  - reflexivity.
  - reflexivity.
  - simpl. lia.
Defined.

(** *** The control block in general *)

(** The arguments that follow the first token of the recovery field. *)
Definition bcb_tokens (boot : mem) : list cstr :=
  match next_token [LF] (recovery_text boot) with
  | Some (_, rest) => tokens (MAX_ARGS - 1) [LF] rest
  | None => []
  end.

(** What the command file yields, with [v] the vector so far. *)
Definition from_command_file (v : list cstr) (w : world)
  : option (list cstr) :=
  match command_file w with
  | Some d =>
      match read_command_lines (MAX_ARGS - 1) d with
      | Some lines => Some (hd [] v :: lines)
      | None => None
      end
  | None => Some v
  end.

Lemma next_token_is_word delim s t rest :
  is_cstr s = true -> next_token delim s = Some (t, rest) ->
  word delim t = true.
Proof.
  intros Hs E. pose proof (next_token_nonempty _ _ _ _ Hs E) as Hn.
  unfold word. apply andb_true_iff. split.
  - destruct t; [simpl in Hn; lia|done].
  - revert E. unfold next_token.
    destruct (drop (span (inside delim) s) s) as [|c s1]; [done|].
    intros [= <- _]. apply (span_take (outside delim) (c :: s1)).
Qed.

Lemma tokens_are_words n delim s :
  from_option (fun r => is_cstr r = true) True s ->
  forallb (word delim) (tokens n delim s) = true.
Proof.
  revert s. induction n as [|n IH]; intros [s|] Hs; simpl; try done.
  destruct (next_token delim s) as [[t rest]|] eqn:E; [|done].
  destruct (next_token_is_cstr _ _ _ _ Hs E) as [_ Hr].
  simpl. rewrite (next_token_is_word _ _ _ _ Hs E). by apply IH.
Qed.

Lemma bcb_tokens_words boot : forallb (word [LF]) (bcb_tokens boot) = true.
Proof.
  unfold bcb_tokens.
  destruct (next_token [LF] (recovery_text boot)) as [[t rest]|] eqn:E; [|done].
  apply tokens_are_words.
  by destruct (next_token_is_cstr _ _ _ _ (is_cstr_recovery_text boot) E).
Qed.

Lemma bcb_vector_armed argv boot :
  bcb_armed boot = true -> bcb_vector argv boot = lit "recovery" :: bcb_tokens boot.
Proof.
  unfold bcb_armed, bcb_vector, bcb_tokens.
  destruct (next_token [LF] (recovery_text boot)) as [[t rest]|]; [|done].
  destruct (bool_decide_reflect (t = lit "recovery")) as [->|]; done.
Qed.

Lemma bcb_vector_unarmed argv boot :
  bcb_armed boot = false -> bcb_vector argv boot = argv.
Proof.
  unfold bcb_armed, bcb_vector.
  destruct (next_token [LF] (recovery_text boot)) as [[t rest]|]; [|done].
  by intros ->.
Qed.

Lemma resolve_few argv w :
  length argv <= 1 ->
  resolve argv w
  = if bcb_armed (read_boot w) then
      match bcb_tokens (read_boot w) with
      | [] => from_command_file [lit "recovery"] w
      | args => Some (lit "recovery" :: args)
      end
    else from_command_file argv w.
Proof.
  intros Hn. apply Nat.leb_le in Hn as El. unfold resolve, after_bcb.
  rewrite El. destruct (bcb_armed (read_boot w)) eqn:A.
  - rewrite bcb_vector_armed by done.
    destruct (bcb_tokens (read_boot w)) as [|a args]; [done|].
    by destruct args.
  - rewrite bcb_vector_unarmed by done. by rewrite El.
Qed.

(** X5: without arguments on the command line, an armed control block
    decides.  The vector is then the word [recovery], which takes the place
    of the program name in slot 0, followed by the lines of the recovery
    field: at most 99 of them, none empty, none with a newline.  The
    command file is consulted only when the block holds no line after the
    word, and its lines then follow the word in the same way. *)
Theorem arguments_from_block (argv : list cstr) (w : world) :
  length argv <= 1 -> bcb_armed (read_boot w) = true ->
  (get_args argv w).1
  = match bcb_tokens (read_boot w) with
    | [] => from_command_file [lit "recovery"] w
    | args => Some (lit "recovery" :: args)
    end
  /\ length (bcb_tokens (read_boot w)) <= MAX_ARGS - 1
  /\ forallb (word [LF]) (bcb_tokens (read_boot w)) = true
  /\ (bcb_tokens (read_boot w) <> [] ->
      calls "ensure_root_path_mounted" (events (get_args argv) w) = []).
Proof.
  intros Hn A.
  destruct (get_args_effect argv w)
    as (boot' & tb & _ & Htb & _ & Hr & He & _ & _).
  rewrite Hr, resolve_few, A by done. split_and!; [done| | |].
  - unfold bcb_tokens. destruct (next_token _ _) as [[t rest]|]; [|simpl; lia].
    apply length_tokens.
  - apply bcb_tokens_words.
  - intros Hne. rewrite He. apply calls_called.
    rewrite called_app, (called_resolve_trace _ _ _ Htb).
    apply Nat.leb_le in Hn as El. unfold after_bcb. rewrite El.
    rewrite bcb_vector_armed by done.
    assert (El2 : (length (lit "recovery" :: bcb_tokens (read_boot w)) <=? 1)
                  = false).
    { apply Nat.leb_gt. destruct (bcb_tokens (read_boot w)); [done|]. simpl. lia. }
    rewrite El2. destruct (resolve argv w); simpl; intros H;
      repeat destruct H as [H|H]; done.
Qed.

Lemma arguments_from_block_witness :
  (get_args [] armed_device).1
  = match bcb_tokens (read_boot armed_device) with
    | [] => from_command_file [lit "recovery"] armed_device
    | args => Some (lit "recovery" :: args)
    end
  /\ length (bcb_tokens (read_boot armed_device)) <= MAX_ARGS - 1
  /\ forallb (word [LF]) (bcb_tokens (read_boot armed_device)) = true
  /\ (bcb_tokens (read_boot armed_device) <> [] ->
      calls "ensure_root_path_mounted" (events (get_args []) armed_device) = []).
Proof.
  apply (arguments_from_block [] armed_device).
  - simpl. lia.
  - vm_compute. reflexivity.
Defined.

(** The line logged for a recovery field that is neither armed nor blank. *)
Definition is_bad_boot_message (e : event) : bool :=
  match e with
  | Log LOGE fmt _ => String.eqb fmt BAD_BOOT_MESSAGE
  | _ => false
  end.

Lemma existsb_app' {A} (f : A -> bool) l1 l2 :
  existsb f (l1 ++ l2) = existsb f l1 || existsb f l2.
Proof. apply existsb_app. Qed.

Lemma bad_boot_logs boot : existsb is_bad_boot_message (boot_logs boot) = false.
Proof.
  unfold boot_logs.
  by destruct (first_byte_set boot command_off), (first_byte_set boot status_off).
Qed.

Lemma bad_command_logs w : existsb is_bad_boot_message (command_logs w) = false.
Proof.
  unfold command_logs. destruct (volume w "CACHE:"); try done.
  all: destruct (files w !! command_path) as [d|]; [|done].
  all: by destruct (read_command_lines _ d).
Qed.

(** X6: a control block that is not armed is passed over.  Without
    arguments on the command line and with a recovery field whose first
    line is not the word [recovery], the result is what the command file
    gives ([argv] itself when there is none), and the field is reported as
    a bad message exactly when its first byte is neither 0 nor 255: a blank
    or erased block is skipped in silence. *)
Theorem unarmed_block_skipped (argv : list cstr) (w : world) :
  length argv <= 1 -> bcb_armed (read_boot w) = false ->
  (get_args argv w).1 = from_command_file argv w
  /\ existsb is_bad_boot_message (events (get_args argv) w)
     = first_byte_set (read_boot w) recovery_off.
Proof.
  intros Hn A.
  destruct (get_args_effect argv w)
    as (boot' & tb & _ & Htb & _ & Hr & He & _ & _).
  rewrite Hr, resolve_few, A by done. split; [done|].
  rewrite He. unfold resolve_trace.
  rewrite existsb_app'. cbn [existsb is_bad_boot_message].
  rewrite !existsb_app', bad_boot_logs.
  assert (Hf : existsb is_bad_boot_message
                 (if length (after_bcb argv (read_boot w)) <=? 1
                  then mount_command :: command_logs w else []) = false).
  { destruct (length _ <=? 1); [|done]. cbn [existsb is_bad_boot_message mount_command].
    apply bad_command_logs. }
  rewrite Hf.
  assert (Hs : existsb is_bad_boot_message
                 match resolve argv w with
                 | Some a => [Call "set_bootloader_message" [arm boot' a]]
                 | None => []
                 end = false) by (by destruct (resolve argv w)).
  rewrite Hs, !orb_false_r. cbn [orb].
  unfold bcb_logged in Htb. apply Nat.leb_le in Hn as El.
  rewrite El, A in Htb.
  destruct (first_byte_set (read_boot w) recovery_off).
  - by destruct Htb as [msg ->].
  - by rewrite Htb.
Qed.

(** A device whose control block holds a text that is no recovery command
    and whose command file asks for a cache wipe. *)
Definition garbled_device : world :=
  World true
        (replicate recovery_off NUL ++ lit "bogus"
         ++ replicate (RECOVERY_SIZE - 5) NUL)
        (fun _ => VolOk)
        {[ command_path := lit "--wipe_cache" ++ [LF] ]}
        (fun _ => 0%Z) (fun _ => 0%Z) false 0%Z 0 0%Z [].

Lemma unarmed_block_skipped_witness :
  first_byte_set (read_boot garbled_device) recovery_off = true
  /\ from_command_file [lit "/sbin/recovery"] garbled_device
     = Some [lit "/sbin/recovery"; lit "--wipe_cache"]
  /\ (get_args [lit "/sbin/recovery"] garbled_device).1
     = from_command_file [lit "/sbin/recovery"] garbled_device
  /\ existsb is_bad_boot_message
             (events (get_args [lit "/sbin/recovery"]) garbled_device)
     = first_byte_set (read_boot garbled_device) recovery_off.
Proof.
  split; [vm_compute; reflexivity|]. split; [vm_compute; reflexivity|].
  apply (unarmed_block_skipped [lit "/sbin/recovery"] garbled_device).
  - simpl. lia.
  - vm_compute. reflexivity.
Defined.

(** *** The command file, line by line *)

(** A line terminator: LF, or CR LF. *)
Definition eol (e : cstr) : bool :=
  bool_decide (e = [LF]) || bool_decide (e = [CR; LF]).

(** A line of the command file that fits the buffer of [get_args]: an
    argument and its terminator. *)
Definition fits (p : cstr * cstr) : bool :=
  word [CR; LF] p.1 && eol p.2 && (length p.1 + length p.2 <? MAX_ARG_LENGTH).

(** The text of a file made of such lines. *)
Definition text (lines : list (cstr * cstr)) : list ascii :=
  concat (map (fun p => p.1 ++ p.2) lines).

Lemma eol_cases e : eol e = true -> e = [LF] \/ e = [CR; LF].
Proof.
  unfold eol. intros [H|H]%orb_true_iff; apply bool_decide_eq_true in H; auto.
Qed.

Lemma word_no_LF l : word [CR; LF] l = true ->
  forallb (fun c => negb (Ascii.eqb c LF)) l = true.
Proof.
  intros [_ H]%andb_true_iff. induction l as [|c l IH]; [done|].
  simpl in *. apply andb_true_iff in H as [Hc H]. rewrite IH by done.
  rewrite andb_true_r. unfold outside, in_set in Hc. cbn [existsb] in Hc.
  destruct (Ascii.eqb c LF); [|done].
  by destruct (is_nul c), (Ascii.eqb c CR).
Qed.

Lemma line_len_line l e rest :
  forallb (fun c => negb (Ascii.eqb c LF)) l = true -> eol e = true ->
  line_len (l ++ e ++ rest) = length l + length e.
Proof.
  intros Hl [-> | ->]%eol_cases.
  - induction l as [|c l IH]; [done|]. simpl in *.
    apply andb_true_iff in Hl as [Hc Hl].
    destruct (Ascii.eqb c LF); [done|]. by rewrite IH.
  - induction l as [|c l IH]; [done|]. simpl in *.
    apply andb_true_iff in Hl as [Hc Hl].
    destruct (Ascii.eqb c LF); [done|]. by rewrite IH.
Qed.

(** [fgets] reads a line that fits, terminator included. *)
Lemma fgets_line l e rest :
  forallb (fun c => negb (Ascii.eqb c LF)) l = true -> eol e = true ->
  length l + length e < MAX_ARG_LENGTH ->
  fgets MAX_ARG_LENGTH (l ++ e ++ rest) = Some (l ++ e, rest).
Proof.
  intros Hl He Hn. unfold fgets.
  rewrite line_len_line by done.
  replace (Nat.min (MAX_ARG_LENGTH - 1) (length l + length e))
    with (length (l ++ e)) by (rewrite length_app; lia).
  rewrite app_assoc, take_app_length, drop_app_length.
  destruct ((l ++ e) ++ rest) eqn:E; [|done].
  apply eol_cases in He as [-> | ->]; by destruct l.
Qed.

Lemma eol_is_cstr e : eol e = true -> is_cstr e = true.
Proof. by intros [-> | ->]%eol_cases. Qed.

Lemma next_token_eol e : eol e = true -> next_token [CR; LF] e = None.
Proof. by intros [-> | ->]%eol_cases. Qed.

Lemma next_token_line l e :
  word [CR; LF] l = true -> eol e = true ->
  exists r, next_token [CR; LF] (l ++ e) = Some (l, Some r).
Proof.
  intros Hl [-> | ->]%eol_cases.
  - exists []. by apply next_token_word.
  - exists [LF]. by apply next_token_word.
Qed.

(** One round of the loop over a line that fits. *)
Lemma read_command_lines_line n l e rest :
  fits (l, e) = true ->
  read_command_lines (S n) (l ++ e ++ rest)
  = match read_command_lines n rest with
    | Some more => Some (l :: more)
    | None => None
    end.
Proof.
  unfold fits. cbn [fst snd].
  intros [[Hl He]%andb_true_iff Hn%Nat.ltb_lt]%andb_true_iff.
  rewrite read_command_lines_S, fgets_line by (done || by apply word_no_LF).
  assert (Hh : holds ((l ++ e) ++ [NUL]) 0 (l ++ e)).
  { split; [|by exists []].
    by rewrite is_cstr_app, (word_is_cstr _ _ Hl), (eol_is_cstr _ He). }
  pose proof (strtok_holds _ _ [CR; LF] _ Hh) as H.
  destruct (next_token_line l e Hl He) as [r E]. rewrite E in H.
  destruct H as (tok & m' & Ht & q & -> & _).
  by rewrite (holds_cstr_at _ _ _ Ht).
Qed.

(** One round of the loop over a line without an argument. *)
Lemma read_command_lines_blank n e rest :
  eol e = true -> read_command_lines (S n) (e ++ rest) = None.
Proof.
  intros He. rewrite read_command_lines_S.
  assert (Hg : fgets MAX_ARG_LENGTH (e ++ rest) = Some (e, rest)).
  { apply (fgets_line [] e rest eq_refl He).
    apply eol_cases in He as [-> | ->]; unfold MAX_ARG_LENGTH; simpl; lia. }
  rewrite Hg.
  assert (Hh : holds (e ++ [NUL]) 0 e).
  { split; [by apply eol_is_cstr|by exists []]. }
  pose proof (strtok_holds _ _ [CR; LF] _ Hh) as H.
  rewrite next_token_eol in H by done. by rewrite H.
Qed.

Lemma read_command_lines_nil n : read_command_lines n [] = Some [].
Proof. by destruct n. Qed.

Lemma read_command_lines_text n lines rest :
  forallb fits lines = true ->
  read_command_lines n (text lines ++ rest)
  = if n <=? length lines then Some (take n (map fst lines))
    else match read_command_lines (n - length lines) rest with
         | Some more => Some (map fst lines ++ more)
         | None => None
         end.
Proof.
  revert n. induction lines as [|[l e] lines IH]; intros n Hf.
  - cbn [text map concat app length take]. rewrite Nat.sub_0_r.
    destruct n as [|n]; [done|]. cbn [Nat.leb].
    by destruct (read_command_lines (S n) rest).
  - destruct n as [|n]; [done|].
    simpl in Hf. apply andb_true_iff in Hf as [Hp Hf].
    unfold text. cbn [map concat fst snd]. fold (text lines).
    rewrite <- !app_assoc, read_command_lines_line by done.
    rewrite IH by done. cbn [length Nat.leb Nat.sub take map fst].
    destruct (n <=? length lines); [done|].
    by destruct (read_command_lines _ rest).
Qed.

(** X7: the command file gives one argument per line.  A file of lines
    that fit the 4096-byte buffer, each a non-empty argument ended by LF or
    by CR LF, yields these arguments in order with the terminators
    stripped; only the first 99 lines are used. *)
Theorem command_file_lines (lines : list (cstr * cstr)) :
  forallb fits lines = true ->
  read_command_lines (MAX_ARGS - 1) (text lines)
  = Some (take (MAX_ARGS - 1) (map fst lines)).
Proof.
  intros Hf. rewrite <- (app_nil_r (text lines)).
  rewrite read_command_lines_text by done.
  destruct (MAX_ARGS - 1 <=? length lines) eqn:E; [done|].
  apply Nat.leb_gt in E.
  rewrite read_command_lines_nil, app_nil_r, take_ge; [done|].
  rewrite length_map. lia.
Qed.

Lemma command_file_lines_witness :
  read_command_lines (MAX_ARGS - 1)
    (text [(lit "--wipe_data", [LF]); (lit "--send_intent=done", [CR; LF])])
  = Some (take (MAX_ARGS - 1)
            (map fst [(lit "--wipe_data", [LF]);
                      (lit "--send_intent=done", [CR; LF])])).
Proof.
  apply (command_file_lines
           [(lit "--wipe_data", [LF]); (lit "--send_intent=done", [CR; LF])]).
  vm_compute. reflexivity.
Defined.

(** X8: a line without an argument in the command file is fatal.  When the
    arguments come from the command file, the control block being not
    armed or armed with the word [recovery] alone, and one of the first 99
    lines of the file is empty, [get_args] does not return, and the control
    block is neither written nor changed: the interrupted run leaves no
    trace in it. *)
Theorem blank_line_is_fatal
    (argv : list cstr) (w : world)
    (pre : list (cstr * cstr)) (e post : list ascii) :
  length argv <= 1 ->
  bcb_armed (read_boot w) = false \/ bcb_tokens (read_boot w) = [] ->
  command_file w = Some (text pre ++ e ++ post) ->
  forallb fits pre = true -> eol e = true -> length pre < MAX_ARGS - 1 ->
  (get_args argv w).1 = None
  /\ calls "set_bootloader_message" (events (get_args argv) w) = []
  /\ bcb (get_args argv w).2 = bcb w.
Proof.
  intros Hn A Hc Hf He Hl.
  destruct (get_args_effect argv w)
    as (boot' & tb & _ & Htb & _ & Hr & Hev & _ & Hb).
  assert (F : forall v, from_command_file v w = None).
  { intros v. unfold from_command_file. rewrite Hc.
    rewrite read_command_lines_text by done.
    rewrite (proj2 (Nat.leb_gt _ _) Hl).
    destruct (MAX_ARGS - 1 - length pre) as [|k] eqn:E; [lia|].
    by rewrite read_command_lines_blank. }
  assert (R : resolve argv w = None).
  { rewrite resolve_few by done.
    destruct (bcb_armed (read_boot w)); [|apply F].
    destruct A as [A|A]; [done|]. rewrite A. apply F. }
  rewrite Hr, Hev, Hb, R, app_nil_r. split_and!; [done| |done].
  apply calls_called. rewrite (called_resolve_trace _ _ _ Htb).
  destruct (length _ <=? 1); simpl; intros H;
    repeat destruct H as [H|H]; done.
Qed.

(** A device whose control block is armed with the word alone and whose
    command file has an empty second line. *)
Definition blank_line_device : world :=
  World true (arm (replicate sizeof_boot NUL) [lit "recovery"]) (fun _ => VolOk)
        {[ command_path := text [(lit "--wipe_data", [LF])] ++ [LF] ++ [] ]}
        (fun _ => 0%Z) (fun _ => 0%Z) false 0%Z 0 0%Z [].

Lemma blank_line_is_fatal_witness :
  bcb_armed (read_boot blank_line_device) = true
  /\ (get_args [lit "/sbin/recovery"] blank_line_device).1 = None
  /\ calls "set_bootloader_message"
           (events (get_args [lit "/sbin/recovery"]) blank_line_device) = []
  /\ bcb (get_args [lit "/sbin/recovery"] blank_line_device).2
     = bcb blank_line_device.
Proof.
  split; [vm_compute; reflexivity|].
  apply (blank_line_is_fatal [lit "/sbin/recovery"] blank_line_device
           [(lit "--wipe_data", [LF])] [LF] []).
  - simpl. lia.
  - right. vm_compute. reflexivity.
  - unfold command_file, blank_line_device. cbn [volume files].
    apply lookup_singleton_eq.
  - vm_compute. reflexivity.
  - reflexivity.
  - unfold MAX_ARGS. simpl. lia.
Defined.

(** ** finish_recovery: the intent, the other files, the reset *)

Lemma intent_log : intent_path <> log_path.
Proof. done. Qed.

Lemma intent_command : intent_path <> command_path.
Proof. done. Qed.

Lemma write_intent_file s w :
  files (write_intent (Some s) w).2 !! intent_path
  = match volume w "CACHE:" with
    | VolOk => Some s
    | VolFull => Some []
    | _ => files w !! intent_path
    end.
Proof.
  unfold write_intent, fopen_root_path, ensure_root_path_mounted, fopen, fputs,
    check_and_fclose.
  change (translate_root_path INTENT_FILE) with (Some intent_path).
  change (root_entry INTENT_FILE) with (Some ("CACHE:", "/cache/")%string).
  unfold bind, emit, modify, gets, ret, log, when, emit, modify. simpl.
  destruct (volume w "CACHE:") eqn:V; simpl; try reflexivity.
  all: unfold volume_of; simpl; rewrite V; simpl; try reflexivity.
  all: destruct s; simpl; unfold volume_of; simpl; rewrite ?V; simpl;
    rewrite ?lookup_insert_eq; simpl; rewrite ?lookup_insert_eq; reflexivity.
Qed.

(** X10: the intent file.  When an intent is given and the cache volume
    takes writes, the file holds exactly that text afterwards, whatever it
    held before; on a full volume the file is left empty, the old text
    lost; on a volume that is read-only or does not mount, and when no
    intent is given, the file is what it was. *)
Theorem intent_file_written (intent : option cstr) (w : world) :
  files (finish_recovery intent w).2 !! intent_path
  = match intent, volume w "CACHE:" with
    | Some s, VolOk => Some s
    | Some _, VolFull => Some []
    | _, _ => files w !! intent_path
    end.
Proof.
  rewrite finish_recovery_steps.
  rewrite (keeps_emit (fun w => files w !! intent_path)) by done.
  rewrite (file_remove_command_file _ intent_command).
  rewrite (frame_reset_bootloader_message (fun w => files w !! intent_path))
    by done.
  rewrite (file_copy_log _ intent_log).
  destruct intent as [s|]; [|by destruct (volume w "CACHE:")].
  rewrite write_intent_file. by destruct (volume w "CACHE:").
Qed.

(** X11: completion touches four files and no other.  Every file other
    than the intent file, the durable log, the command file and the
    runtime log, which takes the log lines, is after [finish_recovery]
    what it was before. *)
Theorem completion_leaves_other_files
    (intent : option cstr) (w : world) (q : string) :
  q <> intent_path -> q <> log_path -> q <> command_path ->
  q <> TEMPORARY_LOG_FILE ->
  files (finish_recovery intent w).2 !! q = files w !! q.
Proof.
  intros Hi Hl Hc _. rewrite finish_recovery_steps.
  rewrite (keeps_emit (fun w => files w !! q)) by done.
  rewrite (file_remove_command_file _ Hc).
  rewrite (frame_reset_bootloader_message (fun w => files w !! q)) by done.
  rewrite (file_copy_log _ Hl). apply (file_write_intent _ _ Hi).
Qed.

(** A device with a package on its card, a command file and a runtime
    log. *)
Definition stocked_device : world :=
  World true (replicate sizeof_boot NUL) (fun _ => VolOk)
        {[ "/sdcard/update.zip"%string := lit "PK";
           command_path := lit "--wipe_cache" ++ [LF];
           TEMPORARY_LOG_FILE := lit "Starting recovery" ++ [LF] ]}
        (fun _ => 0%Z) (fun _ => 0%Z) false 0%Z 0 0%Z [].

Lemma completion_leaves_other_files_witness :
  files (finish_recovery (Some (lit "done")) stocked_device).2
    !! "/sdcard/update.zip"%string = Some (lit "PK")
  /\ files (finish_recovery (Some (lit "done")) stocked_device).2
       !! "/sdcard/update.zip"%string
     = files stocked_device !! "/sdcard/update.zip"%string.
Proof.
  assert (H : files (finish_recovery (Some (lit "done")) stocked_device).2
                !! "/sdcard/update.zip"%string
              = files stocked_device !! "/sdcard/update.zip"%string)
    by (by apply (completion_leaves_other_files
                    (Some (lit "done")) stocked_device "/sdcard/update.zip")).
  split; [|exact H]. rewrite H. vm_compute. reflexivity.
Defined.

(** The routines the file blocks of [finish_recovery] call. *)
Definition mount_fns : list string :=
  ["ensure_root_path_mounted"; "dirCreateHierarchy"]%string.

Lemma mounts_fopen_root_path root_path mode :
  emits (among mount_fns) (fopen_root_path root_path mode).
Proof.
  unfold fopen_root_path, ensure_root_path_mounted. emits_auto.
Qed.

Lemma mounts_check_and_fclose fp name :
  emits (among mount_fns) (check_and_fclose fp name).
Proof. unfold check_and_fclose. emits_auto. Qed.

Lemma mounts_write_intent intent : emits (among mount_fns) (write_intent intent).
Proof.
  unfold write_intent. destruct intent; [|apply emits_ret].
  apply emits_bind; [apply mounts_fopen_root_path|]. intros [fp|].
  - apply emits_bind; [apply emits_fputs|]. intros. apply mounts_check_and_fclose.
  - emits_auto.
Qed.

Lemma mounts_copy_log : emits (among mount_fns) copy_log.
Proof.
  unfold copy_log.
  apply emits_bind; [apply mounts_fopen_root_path|]. intros [lg|].
  - apply emits_bind; [apply emits_fopen|]. intros [tmplog|].
    + apply emits_bind; [|intros; apply mounts_check_and_fclose].
      apply emits_bind; [apply emits_gets|]. intros.
      apply emits_bind; [apply emits_copy_lines|]. intros.
      apply emits_bind; [emits_auto|]. intros.
      apply emits_bind; [apply mounts_check_and_fclose|]. intros. apply emits_ret.
    + apply emits_bind; [|intros; apply mounts_check_and_fclose].
      emits_auto.
  - emits_auto.
Qed.

Lemma mounts_remove_command_file : emits (among mount_fns) remove_command_file.
Proof.
  unfold remove_command_file, ensure_root_path_mounted. emits_auto.
Qed.

Lemma not_mount_fn fn : fn <> "ensure_root_path_mounted"%string ->
  fn <> "dirCreateHierarchy"%string -> ~ In fn mount_fns.
Proof. intros H1 H2 [H|[H|[]]]; by subst. Qed.

(** X12: completion resets the control block whatever happens before.
    Every call of [finish_recovery] hands one all-zero block to
    [set_bootloader_message], exactly once, also when the cache volume does
    not mount or a file cannot be opened, and the last thing it does is the
    one call of [sync]. *)
Theorem completion_resets_block (intent : option cstr) (w : world) :
  calls "set_bootloader_message" (events (finish_recovery intent) w)
  = [[zeroed]]
  /\ calls "sync" (events (finish_recovery intent) w) = [[]]
  /\ last (events (finish_recovery intent) w) = Some (Call "sync" []).
Proof.
  rewrite events_finish_recovery. cbn zeta.
  set (w1 := (write_intent intent w).2).
  set (w2 := (copy_log w1).2).
  set (w3 := (reset_bootloader_message w2).2).
  assert (Hr : events reset_bootloader_message w2
               = [Call "set_bootloader_message" [zeroed]]).
  { apply events_unique. unfold reset_bootloader_message.
    rewrite set_bootloader_message_run. cbn zeta. by destruct (misc_ok w2). }
  assert (H : forall fn, fn <> "ensure_root_path_mounted"%string ->
                         fn <> "dirCreateHierarchy"%string ->
                calls fn (events (write_intent intent) w) = []
                /\ calls fn (events copy_log w1) = []
                /\ calls fn (events remove_command_file w3) = []).
  { intros fn H1 H2. pose proof (not_mount_fn fn H1 H2) as Hn. split_and!.
    - eapply calls_among; [exact Hn|]. apply mounts_write_intent.
    - eapply calls_among; [exact Hn|]. apply mounts_copy_log.
    - eapply calls_among; [exact Hn|]. apply mounts_remove_command_file. }
  split_and!.
  - destruct (H "set_bootloader_message"%string) as (E1 & E2 & E3); [done|done|].
    by rewrite !calls_app, E1, E2, E3, Hr.
  - destruct (H "sync"%string) as (E1 & E2 & E3); [done|done|].
    by rewrite !calls_app, E1, E2, E3, Hr.
  - rewrite !app_assoc. apply last_snoc.
Qed.

(** ** main: the options *)

(** The values [getopt_long] can return over [OPTIONS]. *)
Definition option_value (r : ascii * option cstr) : bool :=
  in_set (lit "suwc?") r.1.

Lemma Forall_kept {A} (P Q : A -> Prop) `{forall x, Decision (Q x)} (l : list A) :
  Forall P l -> Forall P (filter Q l).
Proof.
  rewrite !Forall_forall. intros Hl x [_ Hx]%list_elem_of_filter. auto.
Qed.

Lemma match_long_value name o :
  match_long name = Some o -> in_set (lit "suwc") (o_val o) = true.
Proof.
  unfold match_long.
  assert (H : Forall (fun o => in_set (lit "suwc") (o_val o) = true) OPTIONS)
    by (repeat constructor).
  set (l1 := filter _ OPTIONS). set (l2 := filter _ OPTIONS).
  assert (H1 : Forall (fun o => in_set (lit "suwc") (o_val o) = true) l1)
    by (by apply Forall_kept).
  assert (H2 : Forall (fun o => in_set (lit "suwc") (o_val o) = true) l2)
    by (by apply Forall_kept).
  destruct l1 as [|o1 l1].
  - destruct l2 as [|o2 [|? ?]]; try done. intros [= <-].
    by apply Forall_cons in H2 as [? _].
  - intros [= <-]. by apply Forall_cons in H1 as [? _].
Qed.

Lemma option_value_wider c :
  in_set (lit "suwc") c = true -> in_set (lit "suwc?") c = true.
Proof.
  unfold in_set, lit. simpl. intros H.
  repeat (apply orb_true_iff in H as [H|H]; [rewrite H; by rewrite ?orb_true_r|]).
  done.
Qed.

Lemma getopt_long_values args : forallb option_value (getopt_long args) = true.
Proof.
  remember (length args) as n eqn:Hn.
  revert args Hn. induction n as [n IH] using lt_wf_ind. intros args ->.
  destruct args as [|a rest]; [done|].
  assert (Hrest : forallb option_value (getopt_long rest) = true)
    by (apply (IH (length rest)); simpl; [lia|done]).
  cbn [getopt_long].
  destruct (is_prefix (lit "--") a).
  - destruct (drop 2 a) as [|c body]; [done|].
    set (name := take _ _). set (value := match drop _ _ with [] => None | _ :: v => Some v end).
    destruct (match_long name) as [o|] eqn:E; [|by simpl; rewrite Hrest].
    pose proof (option_value_wider _ (match_long_value _ _ E)) as Ho.
    destruct (o_has_arg o), value as [v|].
    + by simpl; rewrite Hrest.
    + simpl. unfold option_value at 1. cbn [fst]. by rewrite Ho, Hrest.
    + simpl. unfold option_value at 1. cbn [fst]. by rewrite Ho, Hrest.
    + destruct rest as [|v rest']; [done|].
      simpl. unfold option_value at 1. cbn [fst]. rewrite Ho.
      apply (IH (length rest')); simpl; [lia|done].
  - destruct (_ && _); [|done].
    rewrite forallb_app, Hrest, andb_true_r.
    by induction (length a - 1).
Qed.

(** What the option loop keeps true. *)
Definition options_ok (o : options) : bool :=
  bool_decide (previous_runs o = None) && implb (wipe_data o) (wipe_cache o).

Lemma option_case_ok o r w :
  options_ok o = true -> option_value r = true ->
  options_ok (option_case o r w).1 = true
  /\ exists t, (option_case o r w).2 = set_trace (trace w ++ t) w
               /\ called t = [].
Proof.
  intros Ho Hr. destruct r as [arg optarg]. unfold option_case.
  unfold option_value, in_set, lit in Hr. cbn [fst existsb list_ascii_of_string] in Hr.
  assert (Hid : exists t, w = set_trace (trace w ++ t) w /\ called t = []).
  { exists []. by rewrite app_nil_r, set_trace_id. }
  unfold options_ok in *. apply andb_true_iff in Ho as [Hp Hw].
  destruct (Ascii.eqb arg "p") eqn:Ep.
  { apply Ascii.eqb_eq in Ep as ->. vm_compute in Hr. discriminate Hr. }
  destruct (Ascii.eqb arg "s");
    [unfold ret; cbn [fst snd previous_runs wipe_data wipe_cache];
     by rewrite Hp, Hw|].
  destruct (Ascii.eqb arg "u");
    [unfold ret; cbn [fst snd previous_runs wipe_data wipe_cache];
     by rewrite Hp, Hw|].
  destruct (Ascii.eqb arg "w");
    [unfold ret; cbn [fst snd previous_runs wipe_data wipe_cache];
     by rewrite Hp|].
  destruct (Ascii.eqb arg "c").
  { unfold ret; cbn [fst snd previous_runs wipe_data wipe_cache]. rewrite Hp.
    split; [by destruct (wipe_data o)|done]. }
  destruct (Ascii.eqb arg BADCH);
    [|unfold ret; cbn [fst snd]; by rewrite Hp, Hw].
  unfold bind, log, emit, modify, ret. cbn [fst snd].
  split; [by rewrite Hp, Hw|].
  by exists [Log LOGE "Invalid command argument\n" []].
Qed.

Lemma option_loop_ok rs o w :
  options_ok o = true -> forallb option_value rs = true ->
  options_ok (option_loop o rs w).1 = true
  /\ exists t, (option_loop o rs w).2 = set_trace (trace w ++ t) w
               /\ called t = [].
Proof.
  revert o w. induction rs as [|r rs IH]; intros o w Ho Hrs.
  - split; [done|]. exists []. by rewrite app_nil_r, set_trace_id.
  - simpl in Hrs. apply andb_true_iff in Hrs as [Hr Hrs].
    cbn [option_loop]. unfold bind.
    destruct (option_case_ok o r w Ho Hr) as (Ho1 & t1 & E1 & C1).
    destruct (option_case o r w) as [o1 w1]. cbn [fst snd] in *.
    destruct (IH o1 w1 Ho1 Hrs) as (Ho2 & t2 & E2 & C2).
    split; [done|]. exists (t1 ++ t2). rewrite E2, E1.
    split; [|by rewrite called_app, C1, C2].
    cbn [trace set_trace]. rewrite set_trace_set_trace. by rewrite app_assoc.
Qed.

Lemma parse_options_ok argv w :
  options_ok (parse_options argv w).1 = true
  /\ exists t, (parse_options argv w).2 = set_trace (trace w ++ t) w
               /\ called t = [].
Proof.
  unfold parse_options. apply option_loop_ok; [done|apply getopt_long_values].
Qed.

Section OptionLoop.

Variables INSTALL_SUCCESS INSTALL_ERROR : Z.

(** X14: the data partition is never erased alone.  Whatever the
    arguments, the options that come out of the loop request the cache
    erase whenever they request the data erase, so that the dispatcher
    never formats the data partition without formatting the cache
    partition after it. *)
Theorem data_wipe_includes_cache (argv : list cstr) (w w' : world) :
  let o := (parse_options argv w).1 in
  implb (wipe_data o) (wipe_cache o) = true
  /\ In (calls "format_root_device"
               (events (dispatch INSTALL_SUCCESS INSTALL_ERROR o) w'))
        [[]; [[lit "CACHE:"]]; [[lit "DATA:"]; [lit "CACHE:"]]].
Proof.
  cbn zeta. destruct (parse_options_ok argv w) as [Ho _].
  apply andb_true_iff in Ho as [_ Ho]. split; [done|].
  pose proof (dispatch_run INSTALL_SUCCESS INSTALL_ERROR
                (parse_options argv w).1 w') as H. cbn zeta in H.
  destruct (update_package _).
  - destruct H as (_ & _ & ->). by left.
  - destruct H as (_ & -> & _).
    destruct (wipe_data _), (wipe_cache _); simpl in *; auto; done.
Qed.

End OptionLoop.

(** X15: the option loop only parses.  It calls no external routine and
    changes nothing but the log, and since the table has no entry for it,
    [previous_runs] is never set, whatever the arguments. *)
Theorem parse_options_only_parses (argv : list cstr) (w : world) :
  previous_runs (parse_options argv w).1 = None
  /\ called (events (parse_options argv) w) = []
  /\ exists t, (parse_options argv w).2 = set_trace (trace w ++ t) w.
Proof.
  destruct (parse_options_ok argv w) as (Ho & t & E & C).
  apply andb_true_iff in Ho as [Hp _]. apply bool_decide_eq_true in Hp.
  split_and!; [done| |by exists t].
  erewrite events_unique; [exact C|]. by rewrite E.
Qed.

(** ** main: the way out after a success *)

(** What the routines on the way out leave alone: whether the MISC
    partition works, whether firmware waits to be flashed, the state of
    the volumes, and [do_reboot]. *)
Definition device (w : world)
  : bool * bool * (string -> volume_state) * Z :=
  (misc_ok w, firmware_pending w, volume w, do_reboot w).

(** How [main] ends for a value of [do_reboot]. *)
Definition way_out (r : Z) : ending :=
  if (r =? 0)%Z then Exit "EXIT_SUCCESS"
  else if (r =? 2)%Z then Reboot "RB_POWER_OFF"
  else Reboot "RB_AUTOBOOT".

(** [c] ends as [do_reboot] says, on a device with a working MISC
    partition and no firmware to flash, with the control block zeroed and,
    where the cache volume allows it, the command file removed. *)
Definition clears (c : M ending) : Prop :=
  forall w, misc_ok w = true -> firmware_pending w = false ->
    (c w).1 = way_out (do_reboot w)
    /\ bcb (c w).2 = zeroed
    /\ (cache_usable w = true -> files (c w).2 !! command_path = None).

Lemma cache_usable_device w w' :
  device w' = device w -> cache_usable w' = cache_usable w.
Proof. unfold device, cache_usable. by intros [= _ _ -> _]. Qed.

Lemma clears_bind {A} (c : M A) (k : A -> M ending) :
  keeps device c -> (forall a, clears (k a)) -> clears (bind c k).
Proof.
  intros Hc Hk w Hm Hf. unfold bind. specialize (Hc w).
  destruct (c w) as [a w1]. cbn [snd] in Hc.
  pose proof (cache_usable_device _ _ Hc) as Hu.
  injection Hc as Hm1 Hf1 _ Hr.
  destruct (Hk a w1) as (H1 & H2 & H3); [congruence|congruence|].
  split_and!; [by rewrite <- Hr|done|]. intros H. apply H3. by rewrite Hu.
Qed.

Lemma clears_pending (k : M ending) :
  clears k ->
  clears (pending <- gets firmware_pending ;;
          if pending then ret FirmwareReboot else k).
Proof.
  intros Hk w Hm Hf.
  assert (E : (pending <- gets firmware_pending ;;
               if pending then ret FirmwareReboot else k) w = k w).
  { unfold bind, gets. cbn [fst snd]. by rewrite Hf. }
  rewrite E. by apply Hk.
Qed.

(** The end of [main], from [finish_recovery] on. *)
Lemma clears_way_out intent :
  clears (finish_recovery intent ;;
          emit (Call "sync" []) ;;
          r <- gets do_reboot ;;
          if (r =? 0)%Z then
            emit (Call "tcflush" []) ;;
            emit (Call "tcflow" []) ;;
            ret (Exit "EXIT_SUCCESS")
          else
            emit (Call "ui_print" [lit "Rebooting...\n"]) ;;
            emit (Call "sync" []) ;;
            if (r =? 2)%Z then
              emit (Call "reboot" [lit "RB_POWER_OFF"]) ;;
              ret (Reboot "RB_POWER_OFF")
            else
              emit (Call "reboot" [lit "RB_AUTOBOOT"]) ;;
              ret (Reboot "RB_AUTOBOOT")).
Proof.
  intros w Hm Hf.
  assert (E : forall k : M ending,
             (finish_recovery intent ;; k) w = k (finish_recovery intent w).2).
  { intros k. unfold bind. by destruct (finish_recovery intent w) as [[] ?]. }
  rewrite E.
  pose proof (finish_recovery_bcb intent w) as Hb. rewrite Hm in Hb.
  pose proof (finish_recovery_command_file intent w) as Hc.
  pose proof (frame_finish_recovery do_reboot
                ltac:(done) ltac:(done) ltac:(done) ltac:(done) intent w) as Hr.
  set (w1 := (finish_recovery intent w).2) in *. clearbody w1.
  unfold bind, emit, modify, gets, ret, way_out. cbn [fst snd].
  change (do_reboot (set_trace _ w1)) with (do_reboot w1). rewrite Hr.
  destruct (do_reboot w =? 0)%Z; [|destruct (do_reboot w =? 2)%Z];
    cbn [fst snd]; (split_and!; [done|done|]);
    intros Hu; rewrite Hu in Hc; exact Hc.
Qed.

Section WayOut.

Variable INSTALL_SUCCESS : Z.

Lemma clears_leave_success intent :
  clears (leave INSTALL_SUCCESS INSTALL_SUCCESS intent).
Proof.
  unfold leave, failed, when. rewrite Z.eqb_refl. cbn [negb].
  apply clears_bind; [keeps_auto|intros _].
  apply clears_bind; [keeps_auto|intros _].
  do 3 (apply clears_bind; [unfold ensure_root_path_mounted; keeps_auto|intros _]).
  apply clears_bind; [keeps_auto|intros _].
  apply clears_bind; [keeps_auto|intros _].
  apply clears_pending, clears_way_out.
Qed.

(** X16: after a success, the way out of [main] clears the control block.
    When the status is the success code, the MISC partition works and
    [maybe_install_firmware_update] finds nothing to flash, the rest of
    [main] does not enter the menu, ends as [do_reboot] says (0 returns, 2
    powers off, any other value reboots), and leaves the stored control
    block all zeroes and, when the cache volume mounts and lets files be
    removed, no command file. *)
Theorem success_clears_block (intent : option cstr) (w : world) :
  misc_ok w = true -> firmware_pending w = false ->
  let r := leave INSTALL_SUCCESS INSTALL_SUCCESS intent w in
  r.1 = way_out (do_reboot w)
  /\ calls "prompt_and_wait"
           (events (leave INSTALL_SUCCESS INSTALL_SUCCESS intent) w) = []
  /\ bcb r.2 = zeroed
  /\ (cache_usable w = true -> files r.2 !! command_path = None).
Proof.
  intros Hm Hf. cbn zeta.
  destruct (clears_leave_success intent w Hm Hf) as (H1 & H2 & H3).
  split_and!; [done| |done|done].
  destruct (emits_leave_success INSTALL_SUCCESS intent w) as [_ H].
  eapply calls_among; [|exact H].
  unfold quiet_fns, io_fns. simpl. intuition discriminate.
Qed.

End WayOut.

(** A device in the middle of a cache wipe asked for by a command file:
    the control block is armed and the file is still there. *)
Definition commanded_device : world :=
  World true
        (arm (replicate sizeof_boot NUL) [lit "recovery"; lit "--wipe_cache"])
        (fun _ => VolOk)
        {[ command_path := lit "--wipe_cache" ++ [LF] ]}
        (fun _ => 0%Z) (fun _ => 0%Z) false 0%Z 0 1%Z [].

Lemma success_clears_block_witness :
  bcb_armed (read_boot commanded_device) = true
  /\ misc_ok commanded_device = true
  /\ firmware_pending commanded_device = false
  /\ (leave 0 0 None commanded_device).1 = way_out (do_reboot commanded_device)
  /\ calls "prompt_and_wait" (events (leave 0 0 None) commanded_device) = []
  /\ bcb (leave 0 0 None commanded_device).2 = zeroed
  /\ (cache_usable commanded_device = true ->
      files (leave 0 0 None commanded_device).2 !! command_path = None).
Proof.
  split; [vm_compute; reflexivity|]. split; [reflexivity|].
  split; [reflexivity|].
  apply (success_clears_block 0 None commanded_device); reflexivity.
Defined.

(** A device whose data partition cannot be formatted. *)
Definition stuck_data_device : world :=
  World true (replicate sizeof_boot NUL) (fun _ => VolOk) ∅ (fun _ => 0%Z)
        (fun root => if String.eqb root "DATA:" then 1%Z else 0%Z)
        false 0%Z 0 0%Z [].

Lemma erase_no_short_circuit_witness :
  (dispatch 0 1 (mkOptions None None None true true) stuck_data_device).1 = 1%Z
  /\ calls "format_root_device"
           (events (dispatch 0 1 (mkOptions None None None true true))
                   stuck_data_device)
     = [[lit "DATA:"]; [lit "CACHE:"]].
Proof.
  apply (erase_no_short_circuit 0 1 (mkOptions None None None true true)
           stuck_data_device); reflexivity.
Defined.

(** * The file browser *)

(** ** strn, strnr, starts_with, ends_with

    The routines take C strings; a call that hands NULL to [strcmp] does
    not return, and its result is [None]. *)

(** [strn(string, n)]: NULL when [n] is 0, else [strndup(string, n)]. *)
Definition strn (string : cstr) (n : nat) : option cstr :=
  if n =? 0 then None else Some (take n string).

(** [strnr(string, n)]: NULL when [n] is 0, else
    [strndup(string + n, strlen(string))].  The callers pass no [n] beyond
    the length of [string]. *)
Definition strnr (string : cstr) (n : nat) : option cstr :=
  if n =? 0 then None else Some (take (length string) (drop n string)).

(** [!strcmp(s, key)], with [s] possibly NULL. *)
Definition equals (s : option cstr) (key : cstr) : option bool :=
  match s with
  | Some s => Some (bool_decide (s = key))
  | None => None
  end.

Definition ends_with (string key : cstr) : option bool :=
  if length key =? 0 then Some true
  else if length string <? length key then Some false
  else equals (strnr string (length string - length key)) key.

Definition starts_with (string key : cstr) : option bool :=
  if length key =? 0 then Some true
  else if length string <? length key then Some false
  else equals (strn string (length key)) key.

(** ** file_option_text *)

(** [if (c) yes else no], where the test [c] may not return. *)
Definition branch {A} (c : option bool) (yes no : option A) : option A :=
  match c with
  | Some true => yes
  | Some false => no
  | None => None
  end.

(** [a && b] of two tests, [b] being evaluated only when [a] holds. *)
Definition and_also (a b : option bool) : option bool :=
  branch a b (Some false).

Definition file_option_text (file : cstr) : option string :=
  branch (ends_with file (lit "/")) (Some "No associated action"%string)
  (branch (ends_with file (lit ".zip")) (Some "Apply zip"%string)
  (branch (ends_with file (lit ".tar"))
     (branch (starts_with file (lit "system")) (Some "Restore system backup"%string)
     (branch (starts_with file (lit "data")) (Some "Restore data backup"%string)
     (branch (starts_with file (lit "full")) (Some "Restore full backup"%string)
     (Some "No associated action"%string))))
  (branch (ends_with file (lit ".rfs")) (Some "Flash recovery kernel"%string)
  (branch (ends_with file (lit ".png")) (Some "Flash boot logo"%string)
  (branch (and_also (ends_with file (lit "zImage")) (Some (length file =? 6)))
     (Some "Flash kernel image"%string)
     (Some "No associated action"%string)))))).

(** ** The filter of choose_file_menu *)

(** The test both loops over the directory apply to a name:
    [d_name[0] != '.' && strlen(d_name) > extension_length
     && starts_with(d_name, prefix) && ends_with(d_name, extension)]. *)
Definition listed (d_name prefix extension : cstr) : option bool :=
  and_also (Some (negb (bool_decide (head d_name = Some "."%char))))
  (and_also (Some (length extension <? length d_name))
  (and_also (starts_with d_name prefix) (ends_with d_name extension))).

(** ** Properties *)

Lemma is_prefix_take (key string : cstr) :
  is_prefix key string = bool_decide (take (length key) string = key)
                         && (length key <=? length string).
Proof.
  revert string. induction key as [|a key IH]; intros string.
  { cbn [length take]. rewrite take_0, bool_decide_true by done.
    by destruct string. }
  destruct string as [|b string].
  - cbn [is_prefix length take Nat.leb]. by rewrite andb_false_r.
  - cbn [is_prefix length take Nat.leb]. rewrite IH.
    destruct (Ascii.eqb_spec a b) as [->|Hn]; simpl.
    + destruct (length key <=? length string); [|by rewrite !andb_false_r].
      rewrite !andb_true_r. apply bool_decide_ext. split; [by intros ->|].
      by intros [= ->].
    + symmetry. apply andb_false_iff. left. apply bool_decide_eq_false.
      by intros [= ->].
Qed.

(** X17: [starts_with] is the prefix test, and always returns.  Its result
    is 1 exactly when [key] is a prefix of [string], the empty key
    included. *)
Theorem starts_with_is_prefix (string key : cstr) :
  starts_with string key = Some (is_prefix key string).
Proof.
  unfold starts_with, strn, equals. rewrite is_prefix_take.
  destruct (length key =? 0) eqn:E0.
  - apply Nat.eqb_eq in E0. destruct key; [|done]. by destruct string.
  - destruct (length string <? length key) eqn:El.
    + apply Nat.ltb_lt in El.
      replace (length key <=? length string) with false
        by (symmetry; apply Nat.leb_gt; lia).
      by rewrite andb_false_r.
    + apply Nat.ltb_ge in El.
      replace (length key <=? length string) with true
        by (symmetry; apply Nat.leb_le; lia).
      by rewrite andb_true_r.
Qed.

Lemma suffix_drop (key string : cstr) :
  length key <= length string ->
  key `suffix_of` string <-> drop (length string - length key) string = key.
Proof.
  intros Hl. split.
  - intros [k ->]. rewrite length_app.
    replace (length k + length key - length key) with (length k) by lia.
    apply drop_app_length.
  - intros <-. apply suffix_drop.
Qed.

Lemma ends_with_spec (string key : cstr) :
  ends_with string key
  = if bool_decide (key <> [] /\ length key = length string) then None
    else Some (bool_decide (key `suffix_of` string)).
Proof.
  unfold ends_with, strnr, equals.
  destruct (length key =? 0) eqn:E0.
  - apply Nat.eqb_eq in E0. destruct key; [|done].
    rewrite bool_decide_false by (by intros [? _]).
    by rewrite bool_decide_true by apply suffix_nil.
  - apply Nat.eqb_neq in E0.
    destruct (length string <? length key) eqn:El.
    + apply Nat.ltb_lt in El.
      rewrite bool_decide_false by (intros [_ ?]; lia).
      rewrite bool_decide_false; [done|].
      intros H%suffix_length. lia.
    + apply Nat.ltb_ge in El.
      destruct (length string - length key =? 0) eqn:Ed.
      * apply Nat.eqb_eq in Ed. rewrite bool_decide_true; [done|].
        split; [by destruct key|lia].
      * apply Nat.eqb_neq in Ed.
        rewrite (bool_decide_false (key <> [] /\ _)) by (intros [_ ?]; lia).
        f_equal. apply bool_decide_ext.
        rewrite suffix_drop by done.
        rewrite take_ge; [done|]. rewrite length_drop. lia.
Qed.

(** X18: [ends_with] is the suffix test except where it matters most.
    When [key] is not empty and exactly as long as [string], the routine
    hands the NULL that [strnr] returns for offset 0 to [strcmp] and does
    not return, so a string is never found to end with itself; in every
    other case the result is 1 exactly when [key] is a suffix of
    [string]. *)
Theorem ends_with_suffix_or_dies (string key : cstr) :
  ends_with string key
  = if bool_decide (key <> [] /\ length key = length string) then None
    else Some (bool_decide (key `suffix_of` string)).
Proof. apply ends_with_spec. Qed.

Lemma starts_with_spec (string key : cstr) :
  starts_with string key = Some (is_prefix key string).
Proof.
  unfold starts_with, strn, equals. rewrite is_prefix_take.
  destruct (length key =? 0) eqn:E0.
  - apply Nat.eqb_eq in E0. destruct key; [|done]. by destruct string.
  - destruct (length string <? length key) eqn:El.
    + apply Nat.ltb_lt in El.
      replace (length key <=? length string) with false
        by (symmetry; apply Nat.leb_gt; lia).
      by rewrite andb_false_r.
    + apply Nat.ltb_ge in El.
      replace (length key <=? length string) with true
        by (symmetry; apply Nat.leb_le; lia).
      by rewrite andb_true_r.
Qed.

Lemma ends_with_dies (string key : cstr) :
  key <> [] -> length key = length string -> ends_with string key = None.
Proof. intros H1 H2. rewrite ends_with_spec. by rewrite bool_decide_true. Qed.

Lemma ends_with_returns (string key : cstr) :
  length key <> length string ->
  ends_with string key = Some (bool_decide (key `suffix_of` string)).
Proof.
  intros H. rewrite ends_with_spec.
  by rewrite bool_decide_false by (intros [_ ?]; done).
Qed.

Lemma ends_with_zImage file b :
  ends_with file (lit "zImage") = Some b -> (length file =? 6) = false.
Proof.
  rewrite ends_with_spec. case_bool_decide as H; [done|]. intros _.
  apply Nat.eqb_neq. intros E. apply H. split; [done|]. by rewrite E.
Qed.

(** X19: what the file browser offers for a file.  The label
    [Flash kernel image] is never returned: the test for the name [zImage]
    asks [ends_with] about a key as long as the name, which does not
    return.  For the same reason the routine does not return for any name
    of one character, for any name of four characters that does not end in
    a slash, and for any name of six characters with none of the other
    endings, [zImage] among them; for every other name it returns. *)
Theorem file_option_text_labels (file : cstr) :
  file_option_text file <> Some "Flash kernel image"%string
  /\ (length file = 1 -> file_option_text file = None)
  /\ (length file = 4 -> ~ lit "/" `suffix_of` file ->
      file_option_text file = None)
  /\ (length file = 6 ->
      Forall (fun key => ~ lit key `suffix_of` file)
             ["/"; ".zip"; ".tar"; ".rfs"; ".png"]%string ->
      file_option_text file = None)
  /\ (length file <> 1 -> length file <> 4 -> length file <> 6 ->
      file_option_text file <> None).
Proof.
  split_and!.
  - unfold file_option_text, branch, and_also, branch.
    rewrite !starts_with_spec.
    destruct (ends_with file (lit "zImage")) as [b|] eqn:Ez.
    + rewrite (ends_with_zImage _ _ Ez).
      repeat match goal with
             | |- context [ends_with ?f ?k] => destruct (ends_with f k) as [[]|]
             | |- context [is_prefix ?k ?f] => destruct (is_prefix k f)
             end; by destruct b.
    + repeat match goal with
             | |- context [ends_with ?f ?k] => destruct (ends_with f k) as [[]|]
             | |- context [is_prefix ?k ?f] => destruct (is_prefix k f)
             end; done.
  - intros Hl. unfold file_option_text.
    by rewrite (ends_with_dies file (lit "/")) by (solve [rewrite Hl; reflexivity | vm_compute; done]).
  - intros Hl Hs. unfold file_option_text.
    rewrite (ends_with_returns file (lit "/")) by (by rewrite Hl).
    rewrite bool_decide_false by done. cbn [branch].
    by rewrite (ends_with_dies file (lit ".zip")) by (solve [rewrite Hl; reflexivity | vm_compute; done]).
  - intros Hl Hs. unfold file_option_text.
    rewrite !Forall_cons in Hs. destruct Hs as (H1 & H2 & H3 & H4 & H5 & _).
    rewrite (ends_with_returns file (lit "/")) by (by rewrite Hl).
    rewrite (ends_with_returns file (lit ".zip")) by (by rewrite Hl).
    rewrite (ends_with_returns file (lit ".tar")) by (by rewrite Hl).
    rewrite (ends_with_returns file (lit ".rfs")) by (by rewrite Hl).
    rewrite (ends_with_returns file (lit ".png")) by (by rewrite Hl).
    rewrite !bool_decide_false by done. cbn [branch].
    by rewrite (ends_with_dies file (lit "zImage")) by (solve [rewrite Hl; reflexivity | vm_compute; done]).
  - intros H1 H4 H6. unfold file_option_text.
    rewrite !starts_with_spec.
    rewrite (ends_with_returns file (lit "/")) by (unfold lit; simpl; lia).
    rewrite (ends_with_returns file (lit ".zip")) by (unfold lit; simpl; lia).
    rewrite (ends_with_returns file (lit ".tar")) by (unfold lit; simpl; lia).
    rewrite (ends_with_returns file (lit ".rfs")) by (unfold lit; simpl; lia).
    rewrite (ends_with_returns file (lit ".png")) by (unfold lit; simpl; lia).
    rewrite (ends_with_returns file (lit "zImage")) by (unfold lit; simpl; lia).
    unfold branch, and_also, branch.
    repeat match goal with
           | |- context [bool_decide ?P] => destruct (bool_decide P)
           | |- context [is_prefix ?k ?f] => destruct (is_prefix k f)
           end; by destruct (length file =? 6).
Qed.

Lemma and_also_true (a b : bool) : and_also (Some a) (Some b) = Some (a && b).
Proof. by destruct a. Qed.

(** A name passes the filter. *)
Definition passes (prefix extension d_name : cstr) : bool :=
  negb (bool_decide (head d_name = Some "."%char))
  && (length extension <? length d_name)
  && is_prefix prefix d_name
  && bool_decide (extension `suffix_of` d_name).

Lemma listed_passes d_name prefix extension :
  listed d_name prefix extension = Some (passes prefix extension d_name).
Proof.
  unfold listed, passes. rewrite starts_with_spec.
  destruct (length extension <? length d_name) eqn:El.
  - apply Nat.ltb_lt in El.
    rewrite ends_with_returns by lia.
    rewrite !and_also_true. by rewrite !andb_assoc.
  - destruct (negb _); [|done]. cbn [and_also branch andb]. done.
Qed.

(** X20: the filter of the file menu always returns.  The comparison of
    the lengths that precedes the two string tests keeps [ends_with] away
    from a name as long as the extension, so that for every name the test
    is decided: a name is listed exactly when it does not start with a
    dot, is longer than the extension, starts with the prefix and ends
    with the extension. *)
Theorem listed_decides (d_name prefix extension : cstr) :
  listed d_name prefix extension = Some (passes prefix extension d_name).
Proof. apply listed_passes. Qed.

(** ** compare_elements, sorted, and the lists of choose_file_menu *)

(** The sign of [strcmp(a, b)], bytes compared as [unsigned char]. *)
Fixpoint strcmp (a b : cstr) : comparison :=
  match a, b with
  | [], [] => Eq
  | [], _ :: _ => Lt
  | _ :: _, [] => Gt
  | x :: a', y :: b' =>
      match Nat.compare (nat_of_ascii x) (nat_of_ascii y) with
      | Eq => strcmp a' b'
      | c => c
      end
  end.

Definition compare_elements (a b : cstr) : comparison := strcmp a b.

(** [a] may stand before [b] in an array sorted with [compare_elements]. *)
Definition in_order (a b : cstr) : Prop := compare_elements a b <> Gt.

#[local] Instance in_order_dec a b : Decision (in_order a b).
Proof. unfold in_order. apply _. Defined.

(** [sorted(array, size)]: [qsort] with [compare_elements], which leaves
    the strings in order; strings that compare equal are the same string,
    so the outcome does not depend on how [qsort] sorts, and it is
    computed here by a merge sort. *)
Definition sorted (array : list cstr) : list cstr :=
  merge_sort in_order array.

(** A directory entry: [d_name], and whether [d_type] is [DT_DIR]. *)
Definition dirent : Type := cstr * bool.

(** The second loop over the directory, which fills [dirlist] and
    [otherlist] (the first loop counts the same entries). *)
Fixpoint scan (prefix extension : cstr) (entries : list dirent)
  : option (list cstr * list cstr) :=
  match entries with
  | [] => Some ([], [])
  | (d_name, is_dir) :: rest =>
      match listed d_name prefix extension with
      | None => None
      | Some ok =>
          match scan prefix extension rest with
          | None => None
          | Some (dirlist, otherlist) =>
              if ok then
                if is_dir && (length extension =? 0)
                then Some ((d_name ++ lit "/") :: dirlist, otherlist)
                else if negb is_dir then Some (dirlist, d_name :: otherlist)
                     else Some (dirlist, otherlist)
              else Some (dirlist, otherlist)
          end
      end
  end.

(** The arrays [files] and [list] that [choose_file_menu] builds from the
    entries of [directory]. *)
Definition menu_lists (directory prefix extension : cstr)
    (entries : list dirent) : option (list cstr * list cstr) :=
  match scan prefix extension entries with
  | None => None
  | Some (dirlist, otherlist) =>
      if length dirlist + length otherlist =? 0
      then Some ([directory ++ []], [[]])
      else
        let list := sorted dirlist ++ sorted otherlist in
        Some (map (app directory) list, list)
  end.

(** The directories and the other entries that are to be shown. *)
Definition shown_dirs (prefix extension : cstr) (entries : list dirent)
  : list cstr :=
  omap (fun e : dirent =>
          if e.2 && passes prefix extension e.1 && (length extension =? 0)
          then Some (e.1 ++ lit "/") else None) entries.

Definition shown_others (prefix extension : cstr) (entries : list dirent)
  : list cstr :=
  omap (fun e : dirent =>
          if negb e.2 && passes prefix extension e.1 then Some e.1 else None)
       entries.

Lemma scan_shown prefix extension entries :
  scan prefix extension entries
  = Some (shown_dirs prefix extension entries,
          shown_others prefix extension entries).
Proof.
  induction entries as [|[d_name is_dir] rest IH]; [done|].
  cbn [scan]. rewrite listed_passes, IH.
  unfold shown_dirs, shown_others. cbn [omap list_omap fst snd].
  destruct (passes prefix extension d_name), is_dir,
    (length extension =? 0); done.
Qed.

Lemma strcmp_antisym a b : strcmp b a = CompOpp (strcmp a b).
Proof.
  revert b. induction a as [|x a IH]; intros [|y b]; try done.
  cbn [strcmp]. rewrite (Nat.compare_antisym (nat_of_ascii x)).
  destruct (nat_of_ascii x ?= nat_of_ascii y); simpl; auto.
Qed.

#[local] Instance in_order_total : Total in_order.
Proof.
  intros a b. unfold in_order, compare_elements.
  rewrite (strcmp_antisym a b). destruct (strcmp a b); simpl; auto.
Qed.

(** X21: the lists of the file menu.  Building them always succeeds.  The
    array of paths is the array of labels with the directory put in front
    of each; when no entry passes the filter the one label is the empty
    string; otherwise the labels are the directories that pass (a slash
    appended, and only when no extension was asked for) followed by the
    other entries that pass, each group in [strcmp] order, with no entry
    lost or added. *)
Theorem menu_lists_shown
    (directory prefix extension : cstr) (entries : list dirent) :
  exists ds os,
    menu_lists directory prefix extension entries
    = (let list := match ds ++ os with [] => [[]] | l => l end in
       Some (map (app directory) list, list))
    /\ ds ≡ₚ shown_dirs prefix extension entries
    /\ os ≡ₚ shown_others prefix extension entries
    /\ Sorted in_order ds /\ Sorted in_order os.
Proof.
  exists (sorted (shown_dirs prefix extension entries)),
         (sorted (shown_others prefix extension entries)).
  split_and!.
  - unfold menu_lists. rewrite scan_shown. cbn zeta.
    set (ds := shown_dirs _ _ _). set (os := shown_others _ _ _).
    pose proof (merge_sort_Permutation in_order ds) as Hd.
    pose proof (merge_sort_Permutation in_order os) as Ho.
    apply Permutation_length in Hd, Ho. fold (sorted ds) in Hd.
    fold (sorted os) in Ho.
    destruct (length ds + length os =? 0) eqn:E.
    + apply Nat.eqb_eq in E.
      destruct (sorted ds); [|simpl in *; lia].
      destruct (sorted os); [|simpl in *; lia]. done.
    + apply Nat.eqb_neq in E.
      destruct (sorted ds ++ sorted os) eqn:El; [|done].
      apply (f_equal length) in El. rewrite length_app in El. simpl in El. lia.
  - apply merge_sort_Permutation.
  - apply merge_sort_Permutation.
  - apply (Sorted_merge_sort in_order).
  - apply (Sorted_merge_sort in_order).
Qed.

(** ** browse_files: one round of the loop *)

(** [strrchr(s, c) - s], [None] when [c] does not occur. *)
Fixpoint strrchr (s : cstr) (c : ascii) : option nat :=
  match s with
  | [] => None
  | x :: s' =>
      match strrchr s' c with
      | Some i => Some (S i)
      | None => if Ascii.eqb x c then Some 0 else None
      end
  end.

(** The two [strcpy] that take [path] one directory up.  Without a slash
    left in the shortened path [pch] is NULL and the length handed to
    [strndup] is not defined: [None]. *)
Definition up (path : cstr) : option cstr :=
  let path := take (length path - 1) path in
  match strrchr path "/" with
  | Some pch => Some (take (pch + 1) path)
  | None => None
  end.

(** What a round of the loop does, given what [choose_file_menu] returned
    and the flag [deletion]. *)
Inductive browse_round :=
| Leave                                         (* break *)
| Goto (path : cstr)                            (* go on with this path *)
| FileOptions (path : cstr) (file : option cstr).   (* file_options(path, file) *)

Definition browse_step (path : cstr) (file : option cstr) (deletion : bool)
  : option browse_round :=
  match file with
  | None =>
      if length path =? 1 then Some Leave
      else match up path with
           | Some path' => Some (Goto path')
           | None => None
           end
  | Some file =>
      if bool_decide (drop (length file - length (lit "/")) file = lit "/")
         && negb deletion
      then Some (Goto file)
      else Some (FileOptions path (strnr file (length path)))
  end.

Lemma strrchr_last d c name :
  forallb (fun x => negb (Ascii.eqb x c)) name = true ->
  strrchr (d ++ c :: name) c = Some (length d).
Proof.
  intros Hn.
  assert (H0 : strrchr name c = None).
  { induction name as [|x name IH]; [done|]. simpl in *.
    apply andb_true_iff in Hn as [Hx Hn]. rewrite IH by done.
    by destruct (Ascii.eqb x c). }
  induction d as [|x d IH]; simpl.
  - by rewrite H0, Ascii.eqb_refl.
  - by rewrite IH.
Qed.

(** X22: in the file browser, Back undoes the entering of a directory.
    From a path that ends in a slash, choosing the entry of a directory
    (its name followed by a slash, the name itself without one) makes that
    entry's path the current one, and leaving the menu there with Back
    makes the current path the old one again. *)
Theorem browse_enter_then_back (d name : cstr) (deletion : bool) :
  forallb (fun x => negb (Ascii.eqb x "/")) name = true ->
  let path := d ++ lit "/" in
  let file := path ++ name ++ lit "/" in
  browse_step path (Some file) false = Some (Goto file)
  /\ browse_step file None deletion = Some (Goto path).
Proof.
  intros Hn path file. subst path file.
  change (lit "/") with ["/"%char].
  assert (Hf : (d ++ ["/"%char]) ++ name ++ ["/"%char]
               = (d ++ "/"%char :: name) ++ ["/"%char])
    by (by rewrite <- !app_assoc).
  rewrite Hf. split.
  - unfold browse_step. change (lit "/") with ["/"%char].
    rewrite length_app. cbn [length].
    replace (length (d ++ "/"%char :: name) + 1 - 1)
      with (length (d ++ "/"%char :: name)) by lia.
    by rewrite drop_app_length, bool_decide_true.
  - unfold browse_step, up.
    rewrite length_app. cbn [length].
    replace (length (d ++ "/"%char :: name) + 1 =? 1) with false
      by (symmetry; apply Nat.eqb_neq; rewrite length_app; simpl; lia).
    replace (length (d ++ "/"%char :: name) + 1 - 1)
      with (length (d ++ "/"%char :: name)) by lia.
    rewrite take_app_length, strrchr_last by done.
    replace (d ++ "/"%char :: name) with ((d ++ ["/"%char]) ++ name)
      by (by rewrite <- app_assoc).
    replace (length d + 1) with (length (d ++ ["/"%char]))
      by (rewrite length_app; simpl; lia).
    by rewrite take_app_length.
Qed.

Lemma browse_enter_then_back_witness :
  forallb (fun x => negb (Ascii.eqb x "/")) (lit "sdcard") = true
  /\ browse_step (lit "/") (Some (lit "/sdcard/")) false
     = Some (Goto (lit "/sdcard/"))
  /\ browse_step (lit "/sdcard/") None true = Some (Goto (lit "/")).
Proof.
  split; [reflexivity|].
  apply (browse_enter_then_back [] (lit "sdcard") true). reflexivity.
Defined.

(** ** make_part *)

(** [setenv(name, value, 1)]. *)
Definition setenv (name value : string) (env : gmap string string)
  : gmap string string :=
  <[name := value]> env.

(** The renumbering at the head of [make_part]. *)
Definition renumber (option : Z) : Z :=
  if (3 <? option)%Z
  then (if (6 <? option)%Z then option - 1 else option) - 1
  else option.

(** The environment [make_part] prepares for [sdparted]; the remainder of
    the division is that of C, which truncates. *)
Definition make_part_env (option : Z) (env : gmap string string)
  : gmap string string :=
  let option := renumber option in
  let env :=
    if (option <? 3)%Z then setenv "SWAP_SIZE" "96" env
    else if (option <? 6)%Z then setenv "SWAP_SIZE" "96" env
    else setenv "SWAP_SIZE" "96" env in
  let env :=
    if (option =? 9)%Z then setenv "EXT_SIZE" "0" env
    else if (Z.rem option 3 =? 0)%Z then setenv "EXT_SIZE" "128" env
    else if (Z.rem option 3 =? 1)%Z then setenv "EXT_SIZE" "256" env
    else if (Z.rem option 3 =? 2)%Z then setenv "EXT_SIZE" "512" env
    else env in
  if (option =? 9)%Z then setenv "ETYPE" "ext2" env
  else setenv "ETYPE" "ext3" env.

(** [make_part], given the answer to [confirm_key] and what [system]
    returns: the environment it leaves and what it calls. *)
Definition make_part (confirmed : bool) (status : Z) (option : Z)
    (env : gmap string string) : gmap string string * list event :=
  if confirmed then
    (make_part_env option env,
     [Call "ui_print" [lit "\n\nPartitioning SD card...\n     This will take a while!"];
      Call "system" [lit "sdparted -x -s"];
      Call "ui_print" [lit (if (status =? 0)%Z then "\nPartition successful!"
                            else "\nError partitioning!")]])
  else (env, [Call "ui_print" [lit "\nPartition aborted"]]).

(** The entries of the menu of [sd_part_options] that are handed to
    [make_part]: all but the three separators. *)
Definition partition_items : list Z := [0; 1; 2; 4; 5; 6; 8; 9; 10; 12]%Z.

(** X23: what the partition menu really asks for.  Whatever its argument,
    [make_part] sets the swap size to 96, and it chooses ext2 and an ext
    size of 0 only for the argument 11, which is a separator of the menu
    and never passed.  So each of the ten entries of the menu, the ones
    labelled with 32 MB of swap or none and the one labelled as all FAT
    included, asks for ext3, 96 MB of swap and an ext size of 128, 256 or
    512 by its place in its group; and without the confirmation the
    environment is left alone and nothing is run. *)
Theorem make_part_environment (option status : Z) (env : gmap string string) :
  make_part_env option env !! "SWAP_SIZE"%string = Some "96"%string
  /\ (make_part_env option env !! "ETYPE"%string
      = Some (if (option =? 11)%Z then "ext2" else "ext3")%string)
  /\ (In option partition_items ->
      make_part_env option env
      = setenv "ETYPE" "ext3"
          (setenv "EXT_SIZE"
             (nth (Z.to_nat (renumber option mod 3)) ["128"; "256"; "512"] "")%string
             (setenv "SWAP_SIZE" "96" env)))
  /\ make_part false status option env
     = (env, [Call "ui_print" [lit "\nPartition aborted"]]).
Proof.
  split_and!; [| | |done].
  - unfold make_part_env, setenv. cbn zeta.
    repeat match goal with
           | |- context [if ?b then _ else _] => destruct b
           end; by rewrite ?lookup_insert_ne, ?lookup_insert_eq by done.
  - unfold make_part_env, setenv. cbn zeta.
    destruct (option =? 11)%Z eqn:E.
    + apply Z.eqb_eq in E as ->.
      replace (renumber 11 =? 9)%Z with true by reflexivity.
      by rewrite lookup_insert_eq.
    + apply Z.eqb_neq in E.
      replace (renumber option =? 9)%Z with false.
      * by rewrite lookup_insert_eq.
      * symmetry. apply Z.eqb_neq. unfold renumber.
        destruct (3 <? option)%Z eqn:E3; [destruct (6 <? option)%Z eqn:E6|];
          lia.
  - unfold partition_items. intros H.
    repeat (destruct H as [<-|H]; [reflexivity|]). destruct H.
Qed.

(** ** choose_update_file: what can be installed *)

Lemma shown_dirs_extension prefix extension entries :
  extension <> [] -> shown_dirs prefix extension entries = [].
Proof.
  intros He. unfold shown_dirs.
  replace (length extension =? 0) with false
    by (symmetry; apply Nat.eqb_neq; by destruct extension).
  induction entries as [|e entries IH]; [done|].
  cbn [omap list_omap]. rewrite andb_false_r. exact IH.
Qed.

Lemma shown_others_elem prefix extension entries name :
  name ∈ shown_others prefix extension entries ->
  (name, false) ∈ entries /\ passes prefix extension name = true.
Proof.
  unfold shown_others. intros ([d is_dir] & Hin & He)%list_elem_of_omap.
  cbn [fst snd] in He. destruct is_dir; [done|]. cbn [negb andb] in He.
  destruct (passes prefix extension d) eqn:Hp; [|done].
  by injection He as <-.
Qed.

Lemma sorted_nil : sorted [] = [].
Proof. reflexivity. Qed.

Lemma suffix_last_byte (c d : ascii) (l k : cstr) :
  [c] `suffix_of` l ++ k ++ [d] -> c = d.
Proof.
  intros [pre H]. rewrite !app_assoc in H.
  by apply app_inj_tail in H as [_ ->].
Qed.

(** X24: what the update menu can hand to the installer.  Whatever the
    directory holds, the path that [choose_update_file] gets from the menu
    makes its test for a final slash return; when the test says no, the
    path is the update directory followed by the name of an entry that is
    not a directory, does not start with a dot and ends in [.zip]; when it
    says yes, the path is the directory itself, shown because no entry
    passed, and nothing is installed. *)
Theorem update_file_is_a_zip
    (entries : list dirent) (files list : list cstr) (k : nat) (file : cstr) :
  menu_lists (lit "/sdcard/sdx/zip/") [] (lit ".zip") entries
  = Some (files, list) ->
  files !! k = Some file ->
  match ends_with file (lit "/") with
  | Some true =>
      file = lit "/sdcard/sdx/zip/"
      /\ shown_others [] (lit ".zip") entries = []
  | Some false =>
      exists name,
        file = lit "/sdcard/sdx/zip/" ++ name
        /\ (name, false) ∈ entries
        /\ lit ".zip" `suffix_of` name
        /\ head name <> Some "."%char
  | None => False
  end.
Proof.
  remember (lit "/sdcard/sdx/zip/") as dir eqn:Hdir.
  unfold menu_lists. rewrite scan_shown.
  rewrite shown_dirs_extension by done. cbn [length Nat.add].
  set (os := shown_others [] (lit ".zip") entries).
  destruct (length os =? 0) eqn:E.
  - apply Nat.eqb_eq in E. intros [= <- <-] Hk.
    destruct k as [|k]; [|done]. injection Hk as <-.
    rewrite app_nil_r.
    replace (ends_with dir (lit "/")) with (Some true)
      by (subst dir; by vm_compute).
    split; [done|]. by destruct os.
  - cbn zeta. rewrite sorted_nil. cbn [app]. intros [= <- <-] Hk.
    apply list_lookup_fmap_Some in Hk as (name & -> & Hn).
    apply list_elem_of_lookup_2 in Hn.
    assert (Ho : name ∈ os).
    { unfold sorted in Hn. by rewrite merge_sort_Permutation in Hn. }
    apply shown_others_elem in Ho as [Hin Hp].
    unfold passes in Hp.
    apply andb_true_iff in Hp as [[[Hd _]%andb_true_iff _]%andb_true_iff Hs].
    apply bool_decide_eq_true in Hs.
    apply negb_true_iff, bool_decide_eq_false in Hd.
    rewrite ends_with_returns.
    2:{ rewrite length_app, Hdir. unfold lit. simpl. lia. }
    rewrite bool_decide_false; [by exists name|].
    destruct Hs as [pre ->]. intros Hsl.
    change (lit ".zip") with (lit ".zi" ++ ["p"%char]) in Hsl.
    rewrite app_assoc in Hsl.
    by apply suffix_last_byte in Hsl.
Qed.

Lemma update_file_is_a_zip_witness :
  [lit "/sdcard/sdx/zip/update.zip"] !! 0
  = Some (lit "/sdcard/sdx/zip/update.zip")
  /\ match ends_with (lit "/sdcard/sdx/zip/update.zip") (lit "/") with
     | Some true =>
         lit "/sdcard/sdx/zip/update.zip" = lit "/sdcard/sdx/zip/"
         /\ shown_others [] (lit ".zip") [(lit "update.zip", false)] = []
     | Some false =>
         exists name,
           lit "/sdcard/sdx/zip/update.zip" = lit "/sdcard/sdx/zip/" ++ name
           /\ (name, false) ∈ [(lit "update.zip", false)]
           /\ lit ".zip" `suffix_of` name
           /\ head name <> Some "."%char
     | None => False
     end.
Proof.
  split; [reflexivity|].
  apply (update_file_is_a_zip [(lit "update.zip", false)]
           [lit "/sdcard/sdx/zip/update.zip"] [lit "update.zip"] 0).
  - vm_compute. reflexivity.
  - reflexivity.
Defined.

(** ** backup, restore, flash, file_options: the texts and their buffers *)

(** The tables of [backup].  Their fourth entry is NULL in the source and
    there is none after it: the texts are those of the options 0, 1 and 2,
    the only ones [partition_options] passes. *)
Definition backup_partition (option : nat) : cstr :=
  lit (nth option ["/system"; "/data"; "/system and /data"]%string ""%string).

Definition backup_file (option : nat) : cstr :=
  lit (nth option ["system"; "data"; "full"]%string ""%string).

(** A text that [sprintf] writes, terminator included, and the size of the
    array it is written to. *)
Record buffer := mkBuffer {
  written : cstr;        (* the bytes [sprintf] stores, the final NUL included *)
  size : nat             (* the size the array was declared or allocated with *)
}.

(** [char message[strlen(partition[option])+9]] and
    [sprintf(message, "back up %s", partition[option])]. *)
Definition backup_message (option : nat) : buffer :=
  mkBuffer (lit "back up " ++ backup_partition option ++ [NUL])
           (length (backup_partition option) + 9).

(** [char location[strlen(file[option])+20]]. *)
Definition backup_location (option : nat) : buffer :=
  mkBuffer (lit "/sdcard/sdx/backup/" ++ backup_file option ++ [NUL])
           (length (backup_file option) + 20).

(** [char filename[strlen(location)+strlen(formattime)+7]] and
    [sprintf(filename, "%s_%s.tar", location, formattime)]. *)
Definition backup_filename (location formattime : cstr) : buffer :=
  mkBuffer (location ++ lit "_" ++ formattime ++ lit ".tar" ++ [NUL])
           (length location + length formattime + 7).

(** [char message[strlen(partition)+9]] of [restore]. *)
Definition restore_message (partition : cstr) : buffer :=
  mkBuffer (lit "restore " ++ partition ++ [NUL]) (length partition + 9).

(** [char message[strlen(partition)+21]] of [flash]. *)
Definition flash_message (partition : cstr) : buffer :=
  mkBuffer (lit "flash the " ++ partition ++ lit " partition" ++ [NUL])
           (length partition + 21).

(** [cmd "%s" "%s"], for [cmd] one of [mv] and [cp]. *)
Definition quoted (cmd : string) (a b : cstr) : cstr :=
  lit cmd ++ lit " " ++ [DQUOTE] ++ a ++ [DQUOTE] ++ lit " "
  ++ [DQUOTE] ++ b ++ [DQUOTE].

(** The inner [switch (paste_flag)] of [file_options]: what it leaves in
    [move], declared as [char move[strlen(path) + strlen(file_queue) + 5]],
    and in [act].  No case ends in [break]: case 1 runs into case 2.
    [None] stands for the arrays left as they were, not initialised. *)
Definition paste_command (paste_flag : Z) (file_queue path : cstr)
  : option (buffer * cstr) :=
  let move_size := length path + length file_queue + 5 in
  let after_1 :=
    if (paste_flag =? 1)%Z
    then Some (mkBuffer (quoted "mv" file_queue path ++ [NUL]) move_size,
               lit "move")
    else None in
  if (paste_flag =? 1)%Z || (paste_flag =? 2)%Z
  then Some (mkBuffer (quoted "cp" file_queue path ++ [NUL]) move_size,
             lit "copy")
  else after_1.

(** [malloc(strlen(path)+strlen(file)+strlen("rm -r")+1)] and
    [sprintf(remove, "rm -r %s%s", path, file)]. *)
Definition remove_command (path file : cstr) : buffer :=
  mkBuffer (lit "rm -r " ++ path ++ file ++ [NUL])
           (length path + length file + length (lit "rm -r") + 1).

(** X25: the messages of backup, restore and flash fit their arrays.
    For the three options that the tables of [backup] hold a text for,
    what [sprintf] writes for the confirmation message and for the
    location of the backup fills the array to the last byte; the name of
    the backup file leaves one byte unused, and the messages of restore
    and flash fill theirs, whatever the partition and the time stamp. *)
Theorem messages_fit (option : nat) (partition location formattime : cstr) :
  option < 3 ->
  In (backup_partition option, backup_file option)
     [(lit "/system", lit "system"); (lit "/data", lit "data");
      (lit "/system and /data", lit "full")]
  /\ length (written (backup_message option)) = size (backup_message option)
  /\ length (written (backup_location option))
     = size (backup_location option)
  /\ length (written (backup_filename location formattime)) + 1
     = size (backup_filename location formattime)
  /\ length (written (restore_message partition))
     = size (restore_message partition)
  /\ length (written (flash_message partition))
     = size (flash_message partition).
Proof.
  intros Ho. split.
  { destruct option as [|[|[|?]]]; [by left|by right; left|by right; right; left|lia]. }
  unfold backup_message, backup_location, backup_filename, restore_message,
    flash_message. cbn [written size].
  rewrite !length_app. unfold lit. simpl. lia.
Qed.

Lemma messages_fit_witness :
  2 < 3
  /\ In (backup_partition 2, backup_file 2)
        [(lit "/system", lit "system"); (lit "/data", lit "data");
         (lit "/system and /data", lit "full")]
  /\ length (written (backup_message 2)) = size (backup_message 2)
  /\ length (written (backup_location 2)) = size (backup_location 2)
  /\ length (written (backup_filename (lit "/sdcard/sdx/backup/full")
                                      (lit "10302026120000"))) + 1
     = size (backup_filename (lit "/sdcard/sdx/backup/full")
                             (lit "10302026120000"))
  /\ length (written (restore_message (lit "/system")))
     = size (restore_message (lit "/system"))
  /\ length (written (flash_message (lit "/system")))
     = size (flash_message (lit "/system")).
Proof.
  split; [lia|].
  apply (messages_fit 2 (lit "/system")
           (lit "/sdcard/sdx/backup/full") (lit "10302026120000")).
  lia.
Defined.

(** X26: the commands of the file menu do not fit their arrays, and Cut
    is Copy.  For both marks that [file_options] can have set, the paste
    runs [cp], never [mv], and reports a copy: the case for a cut file runs
    into the one for a copied file.  The command is four bytes longer than
    the array [move] it is written to, and the [rm -r] command one byte
    longer than the block allocated for it, whatever the path and the
    file. *)
Theorem file_commands_overflow (paste_flag : Z) (file_queue path file : cstr) :
  (paste_flag = 1%Z \/ paste_flag = 2%Z ->
   exists move,
     paste_command paste_flag file_queue path = Some (move, lit "copy")
     /\ written move = quoted "cp" file_queue path ++ [NUL]
     /\ length (written move) = size move + 4)
  /\ length (written (remove_command path file))
     = size (remove_command path file) + 1.
Proof.
  split.
  - intros H.
    exists (mkBuffer (quoted "cp" file_queue path ++ [NUL])
                     (length path + length file_queue + 5)).
    split_and!.
    + unfold paste_command. by destruct H as [-> | ->].
    + done.
    + cbn [written size]. unfold quoted. rewrite !length_app.
      unfold lit. simpl. lia.
  - unfold remove_command. cbn [written size]. rewrite !length_app.
    unfold lit. simpl. lia.
Qed.

(** ** backup and the restore menus *)

(** The arguments that [partition_options] gives to [choose_file_menu] and
    to [restore] for the items 4, 5 and 6: the prefix, and the partition. *)
Definition restore_item (item : nat) : option (cstr * cstr) :=
  match item with
  | 4 => Some (lit "system", lit "/system")
  | 5 => Some (lit "data", lit "/data")
  | 6 => Some (lit "full", lit "/system and /data")
  | _ => None
  end.

(** The name, inside the backup directory, of the file [backup] writes. *)
Definition backup_name (option : nat) (formattime : cstr) : cstr :=
  backup_file option ++ lit "_" ++ formattime ++ lit ".tar".

Lemma is_prefix_app key rest : is_prefix key (key ++ rest) = true.
Proof.
  induction key as [|c key IH]; [by destruct rest|].
  simpl. by rewrite Ascii.eqb_refl, IH.
Qed.

Lemma suffix_last (key l : cstr) (c d : ascii) :
  key ++ [c] `suffix_of` l ++ [d] -> c = d.
Proof.
  intros [pre H]. rewrite app_assoc in H.
  by apply app_inj_tail in H as [_ ->].
Qed.

Lemma backup_name_passes option formattime :
  option < 3 ->
  passes (backup_file option) (lit ".tar") (backup_name option formattime)
  = true.
Proof.
  intros Ho. unfold passes, backup_name.
  rewrite is_prefix_app, andb_true_r.
  rewrite (bool_decide_true (_ `suffix_of` _)).
  2:{ exists (backup_file option ++ lit "_" ++ formattime).
      by rewrite <- !app_assoc. }
  rewrite andb_true_r. apply andb_true_iff. split.
  - apply negb_true_iff, bool_decide_eq_false.
    destruct option as [|[|[|?]]]; [done|done|done|lia].
  - apply Nat.ltb_lt. rewrite !length_app. unfold lit. simpl. lia.
Qed.

(** X27: a backup is found again.  The file that [backup] writes for an
    option lies in the directory that the restore menus list, under a name
    that the menu of the matching restore item shows, and only that one of
    the three, whatever the time stamp; that item restores the partition
    the backup was made of; and the file browser offers the matching
    restore action for the name. *)
Theorem backup_is_listed
    (option : nat) (formattime : cstr) (entries : list dirent) :
  option < 3 ->
  (backup_name option formattime, false) ∈ entries ->
  written (backup_filename (lit "/sdcard/sdx/backup/" ++ backup_file option)
                           formattime)
  = (lit "/sdcard/sdx/backup/" ++ backup_name option formattime) ++ [NUL]
  /\ restore_item (option + 4)
     = Some (backup_file option, backup_partition option)
  /\ (exists files list,
        menu_lists (lit "/sdcard/sdx/backup/") (backup_file option)
                   (lit ".tar") entries = Some (files, list)
        /\ backup_name option formattime ∈ list
        /\ lit "/sdcard/sdx/backup/" ++ backup_name option formattime ∈ files)
  /\ (forall other, other < 3 -> other <> option ->
        passes (backup_file other) (lit ".tar")
               (backup_name option formattime) = false)
  /\ file_option_text (backup_name option formattime)
     = Some (nth option ["Restore system backup"; "Restore data backup";
                         "Restore full backup"]%string ""%string).
Proof.
  intros Ho Hin. split_and!.
  - unfold backup_filename, backup_name. cbn [written].
    by rewrite <- !app_assoc.
  - by destruct option as [|[|[|?]]]; [| | |lia].
  - unfold menu_lists. rewrite scan_shown.
    rewrite shown_dirs_extension by done. cbn [length Nat.add].
    set (os := shown_others _ _ entries).
    assert (Hos : backup_name option formattime ∈ os).
    { unfold os, shown_others. apply list_elem_of_omap.
      exists (backup_name option formattime, false). split; [done|].
      cbn [fst snd negb andb]. by rewrite backup_name_passes. }
    destruct (length os =? 0) eqn:E.
    { apply Nat.eqb_eq in E. destruct os; [|done]. by apply elem_of_nil in Hos. }
    cbn zeta. rewrite sorted_nil. cbn [app].
    eexists _, _. split; [reflexivity|].
    assert (Hs : backup_name option formattime ∈ sorted os)
      by (unfold sorted; by rewrite merge_sort_Permutation).
    split; [done|]. by apply (list_elem_of_fmap_2 (app _)).
  - intros other Hother Hne. unfold passes, backup_name.
    assert (Hp : is_prefix (backup_file other)
                   (backup_file option ++ lit "_" ++ formattime ++ lit ".tar")
                 = false).
    { destruct option as [|[|[|?]]], other as [|[|[|?]]]; try lia; done. }
    by rewrite Hp, andb_false_r.
  - unfold file_option_text.
    set (name := backup_name option formattime).
    assert (Hl : 9 <= length name).
    { unfold name, backup_name. rewrite !length_app.
      destruct option as [|[|[|?]]]; unfold backup_file, lit; simpl; lia. }
    assert (Hr : forall key c,
               c <> "r"%char -> ~ lit key ++ [c] `suffix_of` name).
    { intros key c Hc Hs. unfold name, backup_name in Hs.
      change (lit ".tar") with (lit ".ta" ++ ["r"%char]) in Hs.
      rewrite !app_assoc in Hs. by apply suffix_last in Hs. }
    rewrite (ends_with_returns name (lit "/")) by (unfold lit; simpl; lia).
    rewrite (bool_decide_false (lit "/" `suffix_of` name))
      by (by apply (Hr "" "/"%char)).
    rewrite (ends_with_returns name (lit ".zip")) by (unfold lit; simpl; lia).
    rewrite (bool_decide_false (lit ".zip" `suffix_of` name))
      by (by apply (Hr ".zi" "p"%char)).
    rewrite (ends_with_returns name (lit ".tar")) by (unfold lit; simpl; lia).
    rewrite (bool_decide_true (lit ".tar" `suffix_of` name)).
    2:{ exists (backup_file option ++ lit "_" ++ formattime).
        unfold name, backup_name. by rewrite <- !app_assoc. }
    cbn [branch]. rewrite !starts_with_spec.
    unfold name, backup_name.
    destruct option as [|[|[|?]]]; [done|done|done|lia].
Qed.

Lemma backup_is_listed_witness :
  0 < 3
  /\ written (backup_filename (lit "/sdcard/sdx/backup/" ++ backup_file 0)
                             (lit "01312010120000"))
     = (lit "/sdcard/sdx/backup/" ++ backup_name 0 (lit "01312010120000"))
       ++ [NUL]
  /\ restore_item (0 + 4) = Some (backup_file 0, backup_partition 0)
  /\ (exists files list,
        menu_lists (lit "/sdcard/sdx/backup/") (backup_file 0) (lit ".tar")
                   [(backup_name 0 (lit "01312010120000"), false)]
        = Some (files, list)
        /\ backup_name 0 (lit "01312010120000") ∈ list
        /\ lit "/sdcard/sdx/backup/" ++ backup_name 0 (lit "01312010120000")
           ∈ files)
  /\ (forall other, other < 3 -> other <> 0 ->
        passes (backup_file other) (lit ".tar")
               (backup_name 0 (lit "01312010120000")) = false)
  /\ file_option_text (backup_name 0 (lit "01312010120000"))
     = Some (nth 0 ["Restore system backup"; "Restore data backup";
                    "Restore full backup"]%string ""%string).
Proof.
  split; [lia|].
  apply (backup_is_listed 0 (lit "01312010120000")
           [(backup_name 0 (lit "01312010120000"), false)]).
  - lia.
  - constructor.
Defined.

(** ** main: the options of a vector, and the dispatch *)

(** An option of the table, its name spelled out in full.  The argument
    of an option that takes one is joined to the name by an equals sign, or
    is the next word of the vector. *)
Inductive request :=
| Package (joined : bool) (path : cstr)   (* --update_package=path *)
| Intent (joined : bool) (text : cstr)    (* --send_intent=text *)
| WipeData                                (* --wipe_data *)
| WipeCache.                              (* --wipe_cache *)

(** The words of the vector. *)
Definition render (r : request) : list cstr :=
  match r with
  | Package true path => [lit "--update_package=" ++ path]
  | Package false path => [lit "--update_package"; path]
  | Intent true text => [lit "--send_intent=" ++ text]
  | Intent false text => [lit "--send_intent"; text]
  | WipeData => [lit "--wipe_data"]
  | WipeCache => [lit "--wipe_cache"]
  end.

Definition vector (prog : cstr) (rs : list request) : list cstr :=
  prog :: concat (map render rs).

(** The package path given last, if any was given. *)
Definition requested_package (rs : list request) : option cstr :=
  last (omap (fun r => match r with Package _ p => Some p | _ => None end) rs).

Definition requested_intent (rs : list request) : option cstr :=
  last (omap (fun r => match r with Intent _ s => Some s | _ => None end) rs).

(** The data wipe was asked for; the cache wipe was asked for by name. *)
Definition requests_data (rs : list request) : bool :=
  existsb (fun r => match r with WipeData => true | _ => false end) rs.

Definition requests_cache (rs : list request) : bool :=
  existsb (fun r => match r with WipeCache => true | _ => false end) rs.

(** What [getopt_long] returns for it. *)
Definition returned (r : request) : ascii * option cstr :=
  match r with
  | Package _ path => ("u"%char, Some path)
  | Intent _ text => ("s"%char, Some text)
  | WipeData => ("w"%char, None)
  | WipeCache => ("c"%char, None)
  end.

(** One call of [getopt_long] on a long option: a name without an equals
    sign, then nothing or an equals sign and the argument. *)
Lemma getopt_long_word name tail rest :
  name <> [] ->
  forallb (fun c => negb (Ascii.eqb c "=")) name = true ->
  match tail with [] => True | c :: _ => c = "="%char end ->
  getopt_long ((lit "--" ++ name ++ tail) :: rest)
  = let value := match tail with [] => None | _ :: v => Some v end in
    match match_long name with
    | None => (BADCH, None) :: getopt_long rest
    | Some o =>
        match o_has_arg o, value with
        | no_argument, None => (o_val o, None) :: getopt_long rest
        | no_argument, Some _ => (BADCH, None) :: getopt_long rest
        | required_argument, Some v => (o_val o, Some v) :: getopt_long rest
        | required_argument, None =>
            match rest with
            | v :: rest' => (o_val o, Some v) :: getopt_long rest'
            | [] => [(BADCH, None)]
            end
        end
    end.
Proof.
  intros Hne Hname Htail. cbn [getopt_long]. rewrite is_prefix_app.
  change (drop 2 (lit "--" ++ name ++ tail)) with (name ++ tail).
  destruct (name ++ tail) as [|c body] eqn:E; [by destruct name|].
  rewrite <- E. clear c body E.
  assert (Hs : span (fun c => negb (Ascii.eqb c "=")) (name ++ tail)
               = length name).
  { destruct tail as [|c v].
    - rewrite app_nil_r. by apply span_all.
    - subst c. by apply span_stop. }
  rewrite Hs, take_app_length, drop_app_length. done.
Qed.

Lemma getopt_long_render rs :
  getopt_long (concat (map render rs)) = map returned rs.
Proof.
  induction rs as [|r rs IH]; [done|].
  cbn [map concat]. destruct r as [[] path|[] text| |]; cbn [render returned app].
  - rewrite (getopt_long_word (lit "update_package") ("="%char :: path))
      by done.
    by rewrite IH.
  - rewrite <- (app_nil_r (lit "--update_package")).
    rewrite (getopt_long_word (lit "update_package") []) by done.
    by rewrite IH.
  - rewrite (getopt_long_word (lit "send_intent") ("="%char :: text)) by done.
    by rewrite IH.
  - rewrite <- (app_nil_r (lit "--send_intent")).
    rewrite (getopt_long_word (lit "send_intent") []) by done.
    by rewrite IH.
  - rewrite (getopt_long_word (lit "wipe_data") []) by done.
    by rewrite IH.
  - rewrite (getopt_long_word (lit "wipe_cache") []) by done.
    by rewrite IH.
Qed.

(** The options after the loop over such a vector, from the options [o]
    before it. *)
Definition settled (o : options) (rs : list request) : options :=
  mkOptions (previous_runs o)
            (from_option Some (send_intent o) (requested_intent rs))
            (from_option Some (update_package o) (requested_package rs))
            (wipe_data o || requests_data rs)
            (wipe_cache o || requests_data rs || requests_cache rs).

Lemma last_cons_or {A} (x : A) l :
  last (x :: l) = from_option Some (Some x) (last l).
Proof.
  destruct l as [|y l]; [done|]. rewrite last_cons_cons.
  destruct (last (y :: l)) eqn:E; [done|]. by apply last_None in E.
Qed.

Lemma option_loop_render rs o w :
  option_loop o (map returned rs) w = (settled o rs, w).
Proof.
  revert o. induction rs as [|r rs IH]; intros o.
  - unfold settled. cbn. rewrite !orb_false_r. by destruct o.
  - cbn [map option_loop]. unfold bind.
    assert (Hc : option_case o (returned r) w
                 = (settled o [r], w)).
    { destruct r, o as [? ? ? [] []]; reflexivity. }
    rewrite Hc, IH. f_equal. unfold settled.
    cbn [previous_runs send_intent update_package wipe_data wipe_cache].
    unfold requested_package, requested_intent, requests_data, requests_cache.
    destruct r as [j path|j text| |]; cbn [omap list_omap existsb last from_option];
      rewrite ?last_cons_or;
      repeat match goal with
             | |- context [last ?l] => destruct (last l)
             end;
      repeat match goal with
             | |- context [existsb ?f ?l] => destruct (existsb f l)
             end;
      by destruct (wipe_data o), (wipe_cache o).
Qed.

(** The options such a vector asks for. *)
Definition requested (rs : list request) : options :=
  mkOptions None (requested_intent rs) (requested_package rs)
            (requests_data rs) (requests_data rs || requests_cache rs).

Lemma parse_options_render prog rs w :
  parse_options (vector prog rs) w = (requested rs, w).
Proof.
  unfold parse_options, vector, requested. change (drop 1 (prog :: ?l)) with l.
  rewrite getopt_long_render, option_loop_render. f_equal.
  unfold settled, no_options.
  cbn [previous_runs send_intent update_package wipe_data wipe_cache orb].
  by destruct (requested_intent rs), (requested_package rs).
Qed.

Section FirstMatch.

Variables INSTALL_SUCCESS INSTALL_ERROR : Z.

(** C6: the dispatcher's first-match policy.  With an update package, the
    install operation alone is invoked and its result is the status;
    otherwise the requested partitions are erased, data before cache, and
    the status is the error code as soon as one erase fails and the success
    code when none does; with no request at all the status is the error
    code and nothing is invoked.  The option [--wipe_data] alone requests
    both erases.  And this is what every argument vector made of the
    options of the table gets, each argument joined to its option or
    given as the next word: the options read from it are the intent and
    the package path given last and the two erase flags; that package is
    the one installed, whatever else the vector asks for; without a path,
    [--wipe_data] anywhere in the vector has data and cache erased, and
    [--wipe_cache] without it the cache alone. *)
Theorem dispatch_first_match (o : options) (w : world) :
  let status := fst (dispatch INSTALL_SUCCESS INSTALL_ERROR o w) in
  let t := events (dispatch INSTALL_SUCCESS INSTALL_ERROR o) w in
  match update_package o with
  | Some pkg =>
      status = install_result w pkg
      /\ calls "install_package" t = [[pkg]]
      /\ calls "format_root_device" t = []
  | None =>
      calls "install_package" t = []
      /\ calls "format_root_device" t =
           (if wipe_data o then [[lit "DATA:"]] else [])
           ++ (if wipe_cache o then [[lit "CACHE:"]] else [])
      /\ status =
           if wipe_data o || wipe_cache o then
             if (wipe_data o && erase_fails w "DATA:")
                || (wipe_cache o && erase_fails w "CACHE:")
             then INSTALL_ERROR else INSTALL_SUCCESS
           else INSTALL_ERROR
  end
  /\ (forall prog w',
        let o' := fst (parse_options [prog; lit "--wipe_data"] w') in
        update_package o' = None /\ wipe_data o' = true /\ wipe_cache o' = true)
  /\ (forall prog rs w0 w1,
        let o' := fst (parse_options (vector prog rs) w0) in
        let status' := fst (dispatch INSTALL_SUCCESS INSTALL_ERROR o' w1) in
        let t' := events (dispatch INSTALL_SUCCESS INSTALL_ERROR o') w1 in
        o' = requested rs
        /\ match requested_package rs with
           | Some pkg =>
               status' = install_result w1 pkg
               /\ calls "install_package" t' = [[pkg]]
               /\ calls "format_root_device" t' = []
           | None =>
               calls "install_package" t' = []
               /\ calls "format_root_device" t' =
                    (if requests_data rs then [[lit "DATA:"]] else [])
                    ++ (if requests_data rs || requests_cache rs
                        then [[lit "CACHE:"]] else [])
               /\ status' =
                    if requests_data rs || requests_cache rs then
                      if (requests_data rs && erase_fails w1 "DATA:")
                         || ((requests_data rs || requests_cache rs)
                             && erase_fails w1 "CACHE:")
                      then INSTALL_ERROR else INSTALL_SUCCESS
                    else INSTALL_ERROR
           end).
Proof.
  split_and!; [apply dispatch_run | by intros |].
  intros prog rs w0 w1. cbn zeta. rewrite parse_options_render. cbn [fst].
  split; [done|].
  pose proof (dispatch_run INSTALL_SUCCESS INSTALL_ERROR (requested rs) w1)
    as H.
  cbn zeta in H. unfold requested in *.
  cbn [update_package wipe_data wipe_cache] in H.
  destruct (requested_package rs); [exact H|].
  destruct H as (H1 & H2 & H3). split_and!; [done|done|].
  rewrite H3. by destruct (requests_data rs), (requests_cache rs).
Qed.

End FirstMatch.
